(** * FG-TextExtract: field extraction from plain-text invoices

    A shallow embedding of the extraction pipeline of the repository
    (src/main.py and src/src/extractors/*.py) together with the properties
    its specification states about it.

    Conventions of the embedding.
    - A Python [str] is a [list ascii].  The character classes [\d], [\s],
      [\w] and the case conversions are those of the ASCII range; a code
      above 127 is neither digit, letter nor white space.  Currency symbols
      other than [$] are kept through their Latin-1 codes where they have one.
    - A regular expression is a value of [Re.regex]; the matcher is a
      backtracking matcher with the priorities of Python's [re] module
      (leftmost match, alternatives in order, greedy or lazy repetition).
    - A Python [float] is a binary64 number, see [Float64].
    - [dateutil.parser.parse] is an external library and is a parameter.  *)

From Stdlib Require Import Ascii String.
From Stdlib Require Import List Bool Arith ZArith NArith Lia.
From Stdlib Require Import Sorting.Sorted Sorting.Permutation.
Import ListNotations.

Set Implicit Arguments.

(** ** Python strings *)

Module PyStr.

Definition str := list ascii.

Definition lit (s : string) : str := list_ascii_of_string s.

Definition code (c : ascii) : N := N_of_ascii c.

Definition between (lo hi : N) (c : ascii) : bool :=
  (N.leb lo (code c) && N.leb (code c) hi)%bool.

Definition is_digit : ascii -> bool := between 48 57.
Definition is_upper : ascii -> bool := between 65 90.
Definition is_lower : ascii -> bool := between 97 122.
Definition is_alpha (c : ascii) : bool := is_upper c || is_lower c.
Definition is_alnum (c : ascii) : bool := is_alpha c || is_digit c.

(** [str.isspace] on the ASCII range: tab, line feed, vertical tab, form
    feed, carriage return, the four separators 28..31 and the space. *)
Definition is_space (c : ascii) : bool :=
  between 9 13 c || between 28 31 c || N.eqb (code c) 32.

(** [\w]: alphanumeric or underscore. *)
Definition is_word (c : ascii) : bool := is_alnum c || N.eqb (code c) 95.

Definition newline : ascii := ascii_of_N 10.

Definition lower_char (c : ascii) : ascii :=
  if is_upper c then ascii_of_N (code c + 32) else c.

Definition upper_char (c : ascii) : ascii :=
  if is_lower c then ascii_of_N (code c - 32) else c.

Definition lower (s : str) : str := map lower_char s.
Definition upper (s : str) : str := map upper_char s.

Definition eqb_char (a b : ascii) : bool := Ascii.eqb a b.

Fixpoint eqb (a b : str) : bool :=
  match a, b with
  | [], [] => true
  | x :: a', y :: b' => eqb_char x y && eqb a' b'
  | _, _ => false
  end.

(** [x in xs] for a list of strings. *)
Definition mem (x : str) (xs : list str) : bool := existsb (eqb x) xs.

Fixpoint starts_with (p s : str) : bool :=
  match p, s with
  | [], _ => true
  | x :: p', y :: s' => eqb_char x y && starts_with p' s'
  | _ :: _, [] => false
  end.

(** [sub in s] for strings. *)
Fixpoint contains (sub s : str) : bool :=
  starts_with sub s ||
  match s with
  | [] => false
  | _ :: s' => contains sub s'
  end.

(** [s.replace(old, '')] for a one-character [old]. *)
Definition remove_char (c : ascii) (s : str) : str :=
  filter (fun x => negb (eqb_char x c)) s.

Fixpoint lstrip (s : str) : str :=
  match s with
  | c :: s' => if is_space c then lstrip s' else s
  | [] => []
  end.

Definition rstrip (s : str) : str := rev (lstrip (rev s)).

Definition strip (s : str) : str := rstrip (lstrip s).

(** [s.split()]: the maximal runs of non-space characters.  [cur] holds the
    run being read, reversed. *)
Fixpoint split_ws_aux (cur : str) (s : str) : list str :=
  match s with
  | [] => match cur with [] => [] | _ => [rev cur] end
  | c :: s' =>
      if is_space c
      then match cur with
           | [] => split_ws_aux [] s'
           | _ => rev cur :: split_ws_aux [] s'
           end
      else split_ws_aux (c :: cur) s'
  end.

Definition split_ws (s : str) : list str := split_ws_aux [] s.

(** [s.split(sep)] for a one-character separator: empty pieces are kept. *)
Fixpoint split_on_aux (sep : ascii) (cur : str) (s : str) : list str :=
  match s with
  | [] => [rev cur]
  | c :: s' =>
      if eqb_char c sep
      then rev cur :: split_on_aux sep [] s'
      else split_on_aux sep (c :: cur) s'
  end.

Definition split_on (sep : ascii) (s : str) : list str := split_on_aux sep [] s.

(** [sep.join(parts)]. *)
Fixpoint join (sep : str) (parts : list str) : str :=
  match parts with
  | [] => []
  | [p] => p
  | p :: ps => p ++ sep ++ join sep ps
  end.

(** [s[a:b]] for [0 <= a], [0 <= b]. *)
Definition slice (a b : nat) (s : str) : str := skipn a (firstn b s).

(** [s.isdigit()], ASCII range. *)
Definition isdigit (s : str) : bool :=
  match s with [] => false | _ => forallb is_digit s end.

(** [s.isupper()]: no lower-case letter and at least one upper-case one. *)
Definition isupper (s : str) : bool :=
  forallb (fun c => negb (is_lower c)) s && existsb is_upper s.

(** [s.istitle()]: upper-case letters only after uncased characters,
    lower-case letters only after cased ones, and at least one upper-case
    letter.  [prev_cased] tells whether the previous character is a letter. *)
Fixpoint istitle_aux (prev_cased seen_upper : bool) (s : str) : bool :=
  match s with
  | [] => seen_upper
  | c :: s' =>
      if is_upper c then
        if prev_cased then false else istitle_aux true true s'
      else if is_lower c then
        if prev_cased then istitle_aux true seen_upper s' else false
      else istitle_aux false seen_upper s'
  end.

Definition istitle (s : str) : bool := istitle_aux false false s.

End PyStr.

Import PyStr.

(** ** Regular expressions with the matching priorities of Python's [re] *)

Module Re.

Inductive regex : Type :=
| Eps
| Chr (p : ascii -> bool)
| Seq (a b : regex)
| Alt (a b : regex)
| Rep (greedy : bool) (lo : nat) (hi : option nat) (a : regex)
| Grp (a : regex)
| WordB
| Bol
| Eol.

(** The matcher walks over the text: [seen] is what lies before the current
    position, last character first; [rest] is what lies after it; [grp] is
    the text of capture group 1 when it has been closed. *)
Record mstate : Type := MState {
  seen : str;
  rest : str;
  grp : option str
}.

Definition pos (st : mstate) : nat := length (seen st).

Definition word_before (st : mstate) : bool :=
  match seen st with c :: _ => is_word c | [] => false end.

Definition word_after (st : mstate) : bool :=
  match rest st with c :: _ => is_word c | [] => false end.

(** [$] without MULTILINE: the end, or just before a final line feed. *)
Definition at_eol (st : mstate) : bool :=
  match rest st with
  | [] => true
  | [c] => eqb_char c newline
  | _ => false
  end.

Definition cont := mstate -> option mstate.

Definition below (cnt : nat) (hi : option nat) : bool :=
  match hi with None => true | Some h => cnt <? h end.

(** The loop of a repetition.  [fuel] is the number of characters left when
    the loop is entered; an iteration that consumes nothing is not taken. *)
Fixpoint iter (step : mstate -> cont -> option mstate)
    (greedy : bool) (lo : nat) (hi : option nat)
    (fuel cnt : nat) (st : mstate) (k : cont) {struct fuel} : option mstate :=
  match fuel with
  | 0 => if lo <=? cnt then k st else None
  | S f =>
      let more (_ : unit) :=
        if below cnt hi
        then step st (fun st' =>
               if length (rest st') <? length (rest st)
               then iter step greedy lo hi f (S cnt) st' k
               else None)
        else None in
      let stop (_ : unit) := if lo <=? cnt then k st else None in
      if greedy
      then match more tt with Some r => Some r | None => stop tt end
      else match stop tt with Some r => Some r | None => more tt end
  end.

Fixpoint run (r : regex) (st : mstate) (k : cont) {struct r} : option mstate :=
  match r with
  | Eps => k st
  | Chr p =>
      match rest st with
      | c :: s' => if p c then k (MState (c :: seen st) s' (grp st)) else None
      | [] => None
      end
  | Seq a b => run a st (fun st' => run b st' k)
  | Alt a b =>
      match run a st k with
      | Some r => Some r
      | None => run b st k
      end
  | Rep greedy lo hi a => iter (run a) greedy lo hi (length (rest st)) 0 st k
  | Grp a =>
      run a st (fun st' =>
        k (MState (seen st') (rest st')
             (Some (rev (firstn (pos st' - pos st) (seen st'))))))
  | WordB => if xorb (word_before st) (word_after st) then k st else None
  | Bol => match seen st with [] => k st | _ => None end
  | Eol => if at_eol st then k st else None
  end.

(** A match object: [m_start], [m_end], [group(0)] and [group(1)]. *)
Record rmatch : Type := RMatch {
  m_start : nat;
  m_end : nat;
  group0 : str;
  group1 : option str
}.

Definition match_here (r : regex) (sn rs : str) : option rmatch :=
  match run r (MState sn rs None) Some with
  | Some st' =>
      Some (RMatch (length sn) (pos st')
              (rev (firstn (pos st' - length sn) (seen st'))) (grp st'))
  | None => None
  end.

(** [re.finditer]: the matches from left to right, none overlapping.
    [skip] counts the characters that still belong to the previous match. *)
Fixpoint finditer_aux (r : regex) (sn rs : str) (skip : nat) {struct rs}
    : list rmatch :=
  match skip with
  | S n =>
      match rs with
      | [] => []
      | c :: rs' => finditer_aux r (c :: sn) rs' n
      end
  | 0 =>
      match match_here r sn rs with
      | Some m =>
          m :: match rs with
               | [] => []
               | c :: rs' => finditer_aux r (c :: sn) rs' (m_end m - m_start m - 1)
               end
      | None =>
          match rs with
          | [] => []
          | c :: rs' => finditer_aux r (c :: sn) rs' 0
          end
      end
  end.

Definition finditer (r : regex) (s : str) : list rmatch := finditer_aux r [] s 0.

(** [re.search]: the first match of [finditer]. *)
Fixpoint search_aux (r : regex) (sn rs : str) {struct rs} : option rmatch :=
  match match_here r sn rs with
  | Some m => Some m
  | None =>
      match rs with
      | [] => None
      | c :: rs' => search_aux r (c :: sn) rs'
      end
  end.

Definition search (r : regex) (s : str) : option rmatch := search_aux r [] s.

(** [re.match]: a match at position 0 only. *)
Definition match_ (r : regex) (s : str) : option rmatch := match_here r [] s.

(** [match.group(1) if match.groups() else match.group(0)]. *)
Definition group1_or_0 (m : rmatch) : str :=
  match group1 m with Some g => g | None => group0 m end.

Fixpoint has_group (r : regex) : bool :=
  match r with
  | Grp _ => true
  | Seq a b | Alt a b => has_group a || has_group b
  | Rep _ _ _ a => has_group a
  | Eps | Chr _ | WordB | Bol | Eol => false
  end.

(** [re.findall] for a pattern with at most one group: the texts of the
    group when the pattern has one, the whole matches otherwise. *)
Definition findall (r : regex) (s : str) : list str :=
  if has_group r
  then map (fun m => match group1 m with Some g => g | None => [] end) (finditer r s)
  else map group0 (finditer r s).

(** *** Pattern combinators *)

Definition ci (p : ascii -> bool) : ascii -> bool :=
  fun c => p (lower_char c) || p (upper_char c).

(** A character class, case-folded under IGNORECASE. *)
Definition cls (icase : bool) (p : ascii -> bool) : regex :=
  Chr (if icase then ci p else p).

Definition chr (icase : bool) (c : ascii) : regex := cls icase (eqb_char c).

Fixpoint seqs (rs : list regex) : regex :=
  match rs with
  | [] => Eps
  | [r] => r
  | r :: rs' => Seq r (seqs rs')
  end.

Fixpoint alts (rs : list regex) : regex :=
  match rs with
  | [] => Chr (fun _ => false)
  | [r] => r
  | r :: rs' => Alt r (alts rs')
  end.

(** A literal word, the result of [re.escape] on a word. *)
Definition word (icase : bool) (s : string) : regex :=
  seqs (map (chr icase) (lit s)).

Definition star (r : regex) : regex := Rep true 0 None r.
Definition plus (r : regex) : regex := Rep true 1 None r.
Definition opt (r : regex) : regex := Rep true 0 (Some 1) r.
Definition rep (lo hi : nat) (r : regex) : regex := Rep true lo (Some hi) r.
Definition lazy_star (r : regex) : regex := Rep false 0 None r.

Definition one_of (s : string) (c : ascii) : bool :=
  existsb (eqb_char c) (lit s).

Definition any_of (ps : list (ascii -> bool)) (c : ascii) : bool :=
  existsb (fun p => p c) ps.

(** [.] without DOTALL. *)
Definition dot (c : ascii) : bool := negb (eqb_char c newline).

(** A pattern of the source next to its syntax tree. *)
Definition py (source : string) (r : regex) : regex := r.

End Re.

(** ** Python floats: binary64, round to nearest, ties to even

    Only non-negative values arise (an amount has no sign), so a float is
    [m * 2^e] with [0 <= m], or the infinity a very long digit string is
    converted to. *)

Module Float64.

Local Open Scope Z_scope.

Inductive float : Type :=
| Fin (m e : Z)
| Inf.

(** [n / d >= 2^k] for [0 < n], [0 < d]. *)
Definition ge_pow2 (n d k : Z) : bool :=
  if 0 <=? k then d * 2 ^ k <=? n else d <=? n * 2 ^ (- k).

(** The integer part of the binary logarithm of [n / d]. *)
Definition ilog2 (n d : Z) : Z :=
  let k := Z.log2 n - Z.log2 d in
  if ge_pow2 n d k then k else k - 1.

(** [num / den] rounded to the nearest integer, ties to even. *)
Definition rne (num den : Z) : Z :=
  let q := num / den in
  let r := num mod den in
  match 2 * r ?= den with
  | Lt => q
  | Gt => q + 1
  | Eq => if Z.even q then q else q + 1
  end.

(** The binary64 number nearest to [n / d]: 53 bits of mantissa, the least
    exponent -1074, overflow to infinity from [2^1024]. *)
Definition round (n d : Z) : float :=
  if n =? 0 then Fin 0 0
  else
    let e := Z.max (ilog2 n d - 52) (-1074) in
    let m := if 0 <=? e then rne n (d * 2 ^ e) else rne (n * 2 ^ (- e)) d in
    if (971 <? e) || ((e =? 971) && (2 ^ 53 <=? m)) then Inf else Fin m e.

Definition leb (a b : float) : bool :=
  match a, b with
  | _, Inf => true
  | Inf, Fin _ _ => false
  | Fin m1 e1, Fin m2 e2 =>
      let lo := Z.min e1 e2 in
      m1 * 2 ^ (e1 - lo) <=? m2 * 2 ^ (e2 - lo)
  end.

Definition digit_value (c : ascii) : Z := Z.of_N (code c) - 48.

Definition digits_value (ds : str) : Z :=
  fold_left (fun acc c => 10 * acc + digit_value c) ds 0.

(** [float(s)] for a string over the digits and the point, the only strings
    the extractor converts: [None] stands for the ValueError that
    an empty string, a lone point or a second point raises. *)
Definition of_string (s : str) : option float :=
  match split_on "."%char s with
  | [ip] =>
      if forallb is_digit ip && negb (Nat.eqb (length ip) 0)
      then Some (round (digits_value ip) 1) else None
  | [ip; fp] =>
      if forallb is_digit (ip ++ fp) && negb (Nat.eqb (length (ip ++ fp)) 0)
      then Some (round (digits_value (ip ++ fp)) (10 ^ Z.of_nat (length fp)))
      else None
  | _ => None
  end.

(** The float a decimal literal of the source denotes. *)
Definition literal (s : string) : float :=
  match of_string (lit s) with Some f => f | None => Fin 0 0 end.

(** The value times 100, rounded to the nearest integer, ties to even. *)
Definition hundredths (m e : Z) : Z :=
  if 0 <=? e then 100 * m * 2 ^ e else rne (100 * m) (2 ^ (- e)).

Definition digit_char (d : Z) : ascii := ascii_of_N (Z.to_N (d + 48)).

(** The decimal digits of [n], least significant first; [fuel] bounds their
    number. *)
Fixpoint digits_rev (fuel : nat) (n : Z) : str :=
  match fuel with
  | O => []
  | S f => if n <? 10 then [digit_char n]
           else digit_char (n mod 10) :: digits_rev f (n / 10)
  end.

Definition decimal (n : Z) : str :=
  rev (digits_rev (S (Z.to_nat (Z.log2 n))) n).

(** A comma before every group of three digits, on the reversed digits. *)
Fixpoint group3_rev (ds : str) (n : nat) : str :=
  match ds with
  | [] => []
  | c :: ds' =>
      match n with
      | O => ","%char :: c :: group3_rev ds' 2
      | S n' => c :: group3_rev ds' n'
      end
  end.

Definition group3 (ds : str) : str := rev (group3_rev (rev ds) 3).

(** [f"{value:,.2f}"]. *)
Definition format_2f (f : float) : str :=
  match f with
  | Inf => lit "inf"
  | Fin m e =>
      let c := hundredths m e in
      group3 (decimal (c / 100)) ++ lit "." ++
      [digit_char (c mod 100 / 10); digit_char (c mod 10)]
  end.

End Float64.

(** ** Stable sorting: [sorted] and [list.sort] with a key

    Python's sort is stable.  An insertion sort is the model: an element is
    put before the first element of the sorted tail it does not exceed, so
    elements of equal key keep their order.  [reverse=True] is the same
    sort for the opposite order (equal keys keep their order as well). *)

Section StableSort.

Variables (A K : Type) (key : A -> K) (leb : K -> K -> bool).

Fixpoint insert_by (x : A) (l : list A) : list A :=
  match l with
  | [] => [x]
  | y :: l' => if leb (key x) (key y) then x :: l else y :: insert_by x l'
  end.

Definition sorted_by (l : list A) : list A := fold_right insert_by [] l.

End StableSort.

Definition sorted_desc_by (A K : Type) (key : A -> K) (leb : K -> K -> bool)
    (l : list A) : list A :=
  sorted_by key (fun a b => leb b a) l.

(** The first [Some] a loop body produces: a [for] loop left by [return]. *)
Fixpoint first_some (A B : Type) (f : A -> option B) (l : list A) : option B :=
  match l with
  | [] => None
  | x :: l' =>
      match f x with
      | Some b => Some b
      | None => first_some f l'
      end
  end.

(** ** src/src/extractors/currency_extractor.py *)

Module Currency.

Import Re.

Record CurrencyExtractor : Type := {
  currency_patterns : list regex;
  total_keywords : list string
}.

(** The class of the currency symbols: the dollar and, by their Latin-1 codes,
    the cent, the pound and the yen.  The other symbols have no code in the
    character type. *)
Definition is_currency_symbol (c : ascii) : bool :=
  existsb (N.eqb (code c)) [36; 162; 163; 165]%N.

Definition symbol : regex := Chr is_currency_symbol.
Definition ws (icase : bool) : regex := cls icase is_space.
Definition comma_digit (c : ascii) : bool := is_digit c || one_of "," c.

Definition amount (icase : bool) : regex :=
  py "([0-9,]+\.?[0-9]*)"
    (Grp (seqs [plus (cls icase comma_digit); opt (chr icase ".");
                star (cls icase is_digit)])).

Definition iso_code : regex :=
  py "(?:USD|EUR|GBP|JPY|INR|CAD|AUD)"
    (alts (map (word true) ["USD"; "EUR"; "GBP"; "JPY"; "INR"; "CAD"; "AUD"]%string)).

(** The class of the colon and the white space. *)
Definition colon_or_space (c : ascii) : bool := one_of ":" c || is_space c.

Definition init : CurrencyExtractor := {|
  currency_patterns := [
    py "[$€£¥₹¢₦₡₪₱₨₩₴₽]\s*([0-9,]+\.?[0-9]*)"
      (seqs [symbol; star (ws true); amount true]);
    py "([0-9,]+\.?[0-9]*)\s*[$€£¥₹¢₦₡₪₱₨₩₴₽]"
      (seqs [amount true; star (ws true); symbol]);
    py "([0-9,]+\.?[0-9]*)\s*(?:USD|EUR|GBP|JPY|INR|CAD|AUD)\b"
      (seqs [amount true; star (ws true); iso_code; WordB]);
    py "(?:USD|EUR|GBP|JPY|INR|CAD|AUD)\s*([0-9,]+\.?[0-9]*)"
      (seqs [iso_code; star (ws true); amount true]);
    py "(?:total|amount|sum|due|balance|pay|price|cost)[:\s]*\$?\s*([0-9,]+\.?[0-9]*)"
      (seqs [alts (map (word true)
                     ["total"; "amount"; "sum"; "due"; "balance"; "pay";
                      "price"; "cost"]%string);
             star (cls true colon_or_space); opt (chr true "$");
             star (ws true); amount true]);
    py "([0-9,]+\.?[0-9]*)\s*(?:total|due|balance)"
      (seqs [amount true; star (ws true);
             alts (map (word true) ["total"; "due"; "balance"]%string)])
  ];
  total_keywords := [
    "total"; "grand total"; "amount due"; "balance due"; "final amount";
    "total amount"; "amount owed"; "total due"; "pay"; "payment";
    "sum"; "balance"; "invoice total"; "bill total"
  ]%string
|}.

(** [re.sub] of the currency symbols by the empty string. *)
Definition remove_symbols (s : str) : str :=
  filter (fun c => negb (is_currency_symbol c)) s.

Definition digit_comma_point (c : ascii) : bool :=
  is_digit c || one_of ",." c.

Definition _clean_amount (amount_str : str) : option str :=
  match amount_str with
  | [] => None
  | _ =>
      let cleaned := strip (remove_symbols amount_str) in
      (* only the digits, the comma and the point are kept *)
      let cleaned := filter digit_comma_point cleaned in
      match cleaned with
      | [] => None
      | _ => Some cleaned
      end
  end.

(** [None] is the ValueError of [float]. *)
Definition _amount_to_float (amount_str : str) : option Float64.float :=
  match amount_str with
  | [] => Some (Float64.Fin 0 0)
  | _ =>
      let cleaned := remove_symbols amount_str in
      let cleaned := remove_char "," cleaned in
      Float64.of_string cleaned
  end.

Definition in_range (value : Float64.float) : bool :=
  Float64.leb (Float64.literal "0.01") value &&
  Float64.leb value (Float64.literal "999999999.99").

Definition _is_valid_amount (amount_str : str) : bool :=
  match amount_str with
  | [] => false
  | _ =>
      match search (Chr is_digit) amount_str with
      | None => false
      | Some _ =>
          let parts := split_on "." amount_str in
          if contains (lit ".") amount_str && (2 <? length parts) then false
          else if contains (lit ".") amount_str && (length parts =? 2)
                  && (2 <? length (nth 1 parts [])) then false
          else
            match _amount_to_float amount_str with
            | Some value => in_range value
            | None => false
            end
      end
  end.

Definition _format_amount (amount_str : str) : str :=
  match _amount_to_float amount_str with
  | Some value => lit "$" ++ Float64.format_2f value
  | None => lit "$" ++ amount_str
  end.

(** The sort key of [_find_all_amounts]; every amount in the list was
    formatted from a float, so the conversion does not fail there. *)
Definition sort_key (x : str) : Float64.float :=
  match _amount_to_float x with
  | Some v => v
  | None => Float64.Fin 0 0
  end.

(** One turn of the inner loop of [_find_all_amounts]. *)
Definition add_amount (amounts : list str) (m : rmatch) : list str :=
  let amount_str := group1_or_0 m in
  match _clean_amount amount_str with
  | Some cleaned_amount =>
      if _is_valid_amount cleaned_amount then
        let formatted_amount := _format_amount cleaned_amount in
        if mem formatted_amount amounts then amounts
        else amounts ++ [formatted_amount]
      else amounts
  | None => amounts
  end.

Definition _find_all_amounts (self : CurrencyExtractor) (text : str) : list str :=
  let text_lower := lower text in
  let amounts :=
    fold_left
      (fun amounts pattern => fold_left add_amount (finditer pattern text_lower) amounts)
      (currency_patterns self) [] in
  sorted_desc_by sort_key Float64.leb amounts.

Definition keyword_then_amount (keyword : string) : regex :=
  py "{re.escape(keyword)}[:\s]*\$?\s*([0-9,]+\.?[0-9]*)"
    (seqs [word false keyword; star (Chr colon_or_space); opt (chr false "$");
           star (ws false); amount false]).

Definition amount_then_keyword (keyword : string) : regex :=
  py "([0-9,]+\.?[0-9]*)\s*{re.escape(keyword)}"
    (seqs [amount false; star (ws false); word false keyword]).

(** The body of both inner loops of [_find_total_amount]. *)
Definition total_candidate (all_amounts : list str) (m : rmatch) : option str :=
  match group1 m with
  | None => None
  | Some amount_str =>
      match _clean_amount amount_str with
      | Some cleaned =>
          let formatted := _format_amount cleaned in
          if mem formatted all_amounts then Some formatted else None
      | None => None
      end
  end.

Definition near_keyword (all_amounts : list str) (text_lower : str)
    (keyword : string) : option str :=
  match first_some (total_candidate all_amounts)
          (finditer (keyword_then_amount keyword) text_lower) with
  | Some formatted => Some formatted
  | None =>
      first_some (total_candidate all_amounts)
        (finditer (amount_then_keyword keyword) text_lower)
  end.

(** Method 1 is the loop over the keywords.  Methods 2 and 3 of the source
    both return [all_amounts[0]], whether the text holds its digits or not. *)
Definition _find_total_amount (self : CurrencyExtractor) (text : str)
    (all_amounts : list str) : str :=
  match all_amounts with
  | [] => []
  | largest_amount :: _ =>
      let text_lower := lower text in
      match first_some (near_keyword all_amounts text_lower) (total_keywords self) with
      | Some formatted => formatted
      | None => largest_amount
      end
  end.

Record amounts : Type := {
  total : str;
  other_amounts : str
}.

(** [[amt for amt in all_amounts if amt != total_amount]] *)
Definition other_amounts_list (all_amounts : list str) (total_amount : str)
    : list str :=
  filter (fun amt => negb (eqb amt total_amount)) all_amounts.

Definition extract_amounts (self : CurrencyExtractor) (text : str) : amounts :=
  let all_amounts := _find_all_amounts self text in
  let total_amount := _find_total_amount self text all_amounts in
  let other := other_amounts_list all_amounts total_amount in
  {| total := total_amount;
     other_amounts := join (lit ", ") other |}.

End Currency.

(** ** src/src/extractors/invoice_extractor.py *)

Module Invoice.

Import Re.

Record InvoiceExtractor : Type := {
  invoice_patterns : list regex
}.

Definition ws : regex := cls true is_space.

(** The classes of the patterns; every pattern is compiled with IGNORECASE. *)
Definition alnum_dash (c : ascii) : bool :=
  is_upper c || is_digit c || one_of "-" c.

Definition alnum_dash_underscore (c : ascii) : bool :=
  is_upper c || is_digit c || one_of "-_" c.

Definition code_capture : regex :=
  py "([A-Z0-9\-]{3,20})" (Grp (rep 3 20 (cls true alnum_dash))).

(** A keyword, an optional hash sign and an optional colon before the code. *)
Definition keyword_code (keyword : string) : regex :=
  py "{keyword}\s*#?\s*:?\s*([A-Z0-9\-]{3,20})"
    (seqs [word true keyword; star ws; opt (chr true "#"); star ws;
           opt (chr true ":"); star ws; code_capture]).

Definition number_word : regex :=
  py "(?:number|no|num)" (alts (map (word true) ["number"; "no"; "num"]%string)).

Definition keyword_number_code (keyword : string) : regex :=
  py "{keyword}\s*(?:number|no|num)\s*#?\s*:?\s*([A-Z0-9\-]{3,20})"
    (seqs [word true keyword; star ws; number_word; star ws;
           opt (chr true "#"); star ws; opt (chr true ":"); star ws;
           code_capture]).

Definition keyword_mark_code (keyword : string) : regex :=
  py "{keyword}\s*[:#]\s*([A-Z0-9\-]{3,20})"
    (seqs [word true keyword; star ws; cls true (one_of ":#"); star ws;
           code_capture]).

Definition invoice_or_inv : regex :=
  py "(?:invoice|inv)" (Alt (word true "invoice") (word true "inv")).

Definition init : InvoiceExtractor := {|
  invoice_patterns := [
    keyword_code "invoice";
    keyword_code "inv";
    keyword_number_code "invoice";
    keyword_number_code "inv";
    keyword_mark_code "invoice";
    keyword_mark_code "inv";
    py "(?:invoice|inv).*?([A-Z]{1,3}[0-9]{3,10})"
      (seqs [invoice_or_inv; lazy_star (cls true dot);
             Grp (Seq (rep 1 3 (cls true is_upper)) (rep 3 10 (cls true is_digit)))]);
    py "(?:invoice|inv).*?([0-9]{3,10}[A-Z]{0,3})"
      (seqs [invoice_or_inv; lazy_star (cls true dot);
             Grp (Seq (rep 3 10 (cls true is_digit)) (rep 0 3 (cls true is_upper)))]);
    keyword_code "bill";
    keyword_number_code "bill"
  ]
|}.

Definition false_positives : list str :=
  map lit ["invoice"; "number"; "total"; "amount"; "date"; "due";
           "paid"; "balance"; "tax"; "shipping"; "subtotal"]%string.

Definition is_some (A : Type) (o : option A) : bool :=
  match o with Some _ => true | None => false end.

Definition class_pattern : regex :=
  py "^[A-Z0-9\-_]{3,20}$"
    (seqs [Bol; rep 3 20 (cls true alnum_dash_underscore); Eol]).

Definition _is_valid_invoice_number (candidate : str) : bool :=
  if length candidate <? 3 then false
  else
    let cleaned := remove_char " " (remove_char "_" (remove_char "-" candidate)) in
    if negb (is_some (search (Chr is_digit) cleaned)) then false
    else if negb (is_some (match_ class_pattern candidate)) then false
    else if mem (lower candidate) false_positives then false
    else
      let has_letter := is_some (search (cls true is_upper) candidate) in
      let has_digit := is_some (search (Chr is_digit) candidate) in
      if has_letter && has_digit then true
      else if isdigit candidate && (4 <=? length candidate) then true
      else false.

(** The three patterns of the line-based extraction. *)
Definition line_patterns : list regex :=
  [keyword_code "invoice"; keyword_code "inv"; keyword_code "bill"].

(** The body of the loop over [line_patterns]: [re.search] gives the first
    match of the pattern only. *)
Definition anchored_candidate (line_lower : str) (pattern : regex) : option str :=
  match search pattern line_lower with
  | Some m =>
      match group1 m with
      | Some invoice_num =>
          if _is_valid_invoice_number invoice_num
          then Some (upper invoice_num) else None
      | None => None
      end
  | None => None
  end.

Definition standalone_token : regex :=
  py "\b[A-Z0-9\-]{3,20}\b" (seqs [WordB; rep 3 20 (cls true alnum_dash); WordB]).

Definition standalone_candidate (m : str) : option str :=
  if _is_valid_invoice_number m then Some (upper m) else None.

(** The empty string is the result when nothing is found. *)
Definition _extract_from_line (line : str) : str :=
  let line_lower := lower line in
  match first_some (anchored_candidate line_lower) line_patterns with
  | Some invoice_num => invoice_num
  | None =>
      if contains (lit "invoice") line_lower then
        match first_some standalone_candidate (findall standalone_token line) with
        | Some invoice_num => invoice_num
        | None => []
        end
      else []
  end.

Definition has_keyword (line : str) : bool :=
  let line_lower := strip (lower line) in
  contains (lit "invoice") line_lower || contains (lit "inv") line_lower
  || contains (lit "bill") line_lower.

(** The body of the loop over the lines. *)
Definition line_candidate (line : str) : option str :=
  if has_keyword line then
    match _extract_from_line line with
    | [] => None
    | invoice_num => Some invoice_num
    end
  else None.

Definition full_text_candidate (m : rmatch) : option str :=
  let invoice_num := group1_or_0 m in
  if _is_valid_invoice_number invoice_num then Some (upper invoice_num) else None.

Definition extract_invoice_number (self : InvoiceExtractor) (text : str) : str :=
  let text_lines := split_on newline text in
  match first_some line_candidate text_lines with
  | Some invoice_num => invoice_num
  | None =>
      let text_lower := lower text in
      match first_some
              (fun pattern => first_some full_text_candidate (finditer pattern text_lower))
              (invoice_patterns self) with
      | Some invoice_num => invoice_num
      | None => []
      end
  end.

End Invoice.

(** ** src/src/extractors/vendor_extractor.py *)

Module Vendor.

Import Re.

Local Open Scope Z_scope.

Record VendorExtractor : Type := {
  vendor_keywords : list string;
  exclude_words : list string
}.

Definition init : VendorExtractor := {|
  vendor_keywords := [
    "vendor"; "supplier"; "company"; "corp"; "corporation"; "inc"; "incorporated";
    "ltd"; "limited"; "llc"; "llp"; "pllc"; "co"; "group"; "enterprises";
    "services"; "solutions"; "systems"; "technologies"; "industries"
  ]%string;
  exclude_words := [
    "invoice"; "bill"; "receipt"; "statement"; "total"; "amount"; "payment";
    "date"; "number"; "account"; "customer"; "order"; "purchase"; "sale";
    "tax"; "shipping"; "delivery"; "address"; "phone"; "email"; "website";
    "terms"; "conditions"; "description"; "quantity"; "price"; "subtotal";
    "discount"; "balance"; "due"; "paid"; "remit"; "billing"; "contact"
  ]%string
|}.

Definition ws1 : regex := plus (Chr is_space).

(** A capitalised word: one upper-case letter, then lower-case letters. *)
Definition cap_word : regex :=
  py "[A-Z][a-z]+" (Seq (Chr is_upper) (plus (Chr is_lower))).

Definition cap_words_pattern : regex :=
  py "\b[A-Z][a-z]+(?:\s+[A-Z][a-z]+)*\b"
    (seqs [WordB; cap_word; star (Seq ws1 cap_word); WordB]).

Definition keyword_context (keyword : string) : regex :=
  py "(?i)\b{re.escape(keyword)}\b.{0,100}"
    (seqs [WordB; word true keyword; WordB; rep 0 100 (cls true dot)]).

Definition _find_near_keywords (self : VendorExtractor) (text : str) : list str :=
  flat_map
    (fun keyword =>
       flat_map
         (fun m => let context := group0 m in findall cap_words_pattern context)
         (finditer (keyword_context keyword) text))
    (vendor_keywords self).

Definition title_case_pattern : regex :=
  py "\b[A-Z][a-z]+(?:\s+[A-Z][a-z]+){1,4}\b"
    (seqs [WordB; cap_word; rep 1 4 (Seq ws1 cap_word); WordB]).

Definition _find_title_case_names (self : VendorExtractor) (text : str) : list str :=
  let matches := findall title_case_pattern text in
  filter
    (fun m =>
       negb (existsb (fun exclude => contains (lower (lit exclude)) (lower m))
               (exclude_words self))
       && (2 <=? length (split_ws m))%nat)
    matches.

Definition caps_word : regex :=
  py "[A-Z]{2,}" (Rep true 2 None (Chr is_upper)).

Definition all_caps_pattern : regex :=
  py "\b[A-Z]{2,}(?:\s+[A-Z]{2,})*\b"
    (seqs [WordB; caps_word; star (Seq ws1 caps_word); WordB]).

Definition short_abbreviation : regex :=
  py "^[A-Z]{1,3}$" (seqs [Bol; rep 1 3 (Chr is_upper); Eol]).

Definition is_none (A : Type) (o : option A) : bool :=
  match o with Some _ => false | None => true end.

Definition _find_all_caps_names (self : VendorExtractor) (text : str) : list str :=
  let matches := findall all_caps_pattern text in
  filter
    (fun m =>
       (3 <=? length m)%nat
       && negb (existsb (fun exclude => contains (upper (lit exclude)) m)
                  (exclude_words self))
       && is_none (match_ short_abbreviation m))
    matches.

(** The class of the letters, the white space and the ampersand. *)
Definition name_char (c : ascii) : bool :=
  is_lower c || is_upper c || is_space c || one_of "&" c.

Definition suffix_patterns : list regex := [
  py "\b[A-Z][a-zA-Z\s&]+(?:Corp|Corporation|Inc|Incorporated|Ltd|Limited|LLC|LLP|PLLC|Co)\b"
    (seqs [WordB; cls true is_upper; plus (cls true name_char);
           alts (map (word true)
                   ["Corp"; "Corporation"; "Inc"; "Incorporated"; "Ltd";
                    "Limited"; "LLC"; "LLP"; "PLLC"; "Co"]%string);
           WordB]);
  py "\b[A-Z][a-zA-Z\s&]+(?:Group|Enterprises|Services|Solutions|Systems|Technologies|Industries)\b"
    (seqs [WordB; cls true is_upper; plus (cls true name_char);
           alts (map (word true)
                   ["Group"; "Enterprises"; "Services"; "Solutions"; "Systems";
                    "Technologies"; "Industries"]%string);
           WordB])
].

Definition _find_company_suffixes (self : VendorExtractor) (text : str) : list str :=
  flat_map (fun pattern => findall pattern text) suffix_patterns.

Definition business_suffixes : list string :=
  ["corp"; "corporation"; "inc"; "incorporated"; "ltd"; "limited";
   "llc"; "llp"; "pllc"; "co"; "group"; "enterprises"]%string.

Definition _score_candidate (self : VendorExtractor) (candidate : str) : Z :=
  let score := 0 in
  let candidate_lower := lower candidate in
  let length := Z.of_nat (length candidate) in
  let score :=
    if (10 <=? length) && (length <=? 50) then score + 10
    else if (5 <=? length) && (length <=? 60) then score + 5
    else score in
  let word_count := Z.of_nat (List.length (split_ws candidate)) in
  let score := if 2 <=? word_count then score + 15 else score in
  let score :=
    if existsb (fun suffix => contains (lit suffix) candidate_lower) business_suffixes
    then score + 20 else score in
  let score := if istitle candidate then score + 10 else score in
  let score :=
    if existsb (fun exclude => contains (lit exclude) candidate_lower)
         (exclude_words self)
    then score - 20 else score in
  let score := if isupper candidate && (10 <? length) then score - 5 else score in
  let score :=
    if Invoice.is_some (search (Chr is_digit) candidate) then score - 10 else score in
  score.

Definition _select_best_candidate (self : VendorExtractor) (candidates : list str)
    : str :=
  match candidates with
  | [] => []
  | _ =>
      let scored_candidates :=
        map (fun candidate => (candidate, _score_candidate self candidate)) candidates in
      let scored_candidates := sorted_desc_by snd Z.leb scored_candidates in
      match scored_candidates with
      | (best, _) :: _ => strip best
      | [] => []
      end
  end.

(** The candidates of the four methods, in the order they are collected. *)
Definition candidates_of (self : VendorExtractor) (text : str) : list str :=
  _find_near_keywords self text ++ _find_title_case_names self text
  ++ _find_all_caps_names self text ++ _find_company_suffixes self text.

Definition extract_vendor (self : VendorExtractor) (text : str) : str :=
  let candidates := candidates_of self text in
  match candidates with
  | [] => []
  | _ => _select_best_candidate self candidates
  end.

End Vendor.

(** ** src/src/extractors/date_extractor.py *)

Module Dates.

Import Re.

Local Open Scope Z_scope.

Inductive Label : Type := invoice | due | order | ship | unknown.

Inductive Confidence : Type := high | medium.

(** The fields of a [datetime] that [strftime('%m/%d/%Y')] reads. *)
Record datetime : Type := {
  year : Z;
  month : Z;
  day : Z
}.

(** The dictionary built for every date that is found. *)
Record DateFinding : Type := {
  raw_date : str;
  formatted_date : str;
  label : Label;
  snippet : str;
  confidence : Confidence
}.

Record DateExtractor : Type := {
  date_patterns : list (Label * list regex);
  generic_patterns : list regex
}.

Definition sep : regex := py "[\/\-\.]" (cls true (one_of "/-.")).
Definition digits (lo hi : nat) : regex := rep lo hi (cls true is_digit).

Definition numeric_date : regex :=
  py "([0-9]{1,2}[\/\-\.][0-9]{1,2}[\/\-\.][0-9]{2,4})"
    (Grp (seqs [digits 1 2; sep; digits 1 2; sep; digits 2 4])).

Definition ws : regex := cls true is_space.

(** Two words with optional white space between them, then the date. *)
Definition labelled2 (w1 w2 : string) : regex :=
  py "{w1}\s*{w2}[:\s]*([0-9]{1,2}[\/\-\.][0-9]{1,2}[\/\-\.][0-9]{2,4})"
    (seqs [word true w1; star ws; word true w2;
           star (cls true Currency.colon_or_space); numeric_date]).

Definition labelled1 (w : string) : regex :=
  py "{w}[:\s]*([0-9]{1,2}[\/\-\.][0-9]{1,2}[\/\-\.][0-9]{2,4})"
    (seqs [word true w; star (cls true Currency.colon_or_space); numeric_date]).

Definition month_name : regex :=
  py "(?:Jan|Feb|Mar|Apr|May|Jun|Jul|Aug|Sep|Oct|Nov|Dec)[a-z]*"
    (Seq (alts (map (word true)
                  ["Jan"; "Feb"; "Mar"; "Apr"; "May"; "Jun"; "Jul"; "Aug";
                   "Sep"; "Oct"; "Nov"; "Dec"]%string))
         (star (cls true is_lower))).

Definition init : DateExtractor := {|
  date_patterns := [
    (invoice, [labelled2 "invoice" "date"; labelled2 "inv" "date"; labelled1 "invoice"]);
    (due, [labelled2 "due" "date"; labelled2 "payment" "due"; labelled1 "due"]);
    (order, [labelled2 "order" "date"; labelled2 "po" "date"; labelled2 "purchase" "date"]);
    (ship, [labelled2 "ship" "date"; labelled2 "shipping" "date"; labelled1 "shipped"])
  ];
  generic_patterns := [
    py "[0-9]{1,2}[\/\-\.][0-9]{1,2}[\/\-\.][0-9]{4}"
      (seqs [digits 1 2; sep; digits 1 2; sep; digits 4 4]);
    py "[0-9]{4}[\/\-\.][0-9]{1,2}[\/\-\.][0-9]{1,2}"
      (seqs [digits 4 4; sep; digits 1 2; sep; digits 1 2]);
    py "[0-9]{1,2}[\/\-\.][0-9]{1,2}[\/\-\.][0-9]{2}"
      (seqs [digits 1 2; sep; digits 1 2; sep; digits 2 2]);
    py "(?:Jan|Feb|Mar|Apr|May|Jun|Jul|Aug|Sep|Oct|Nov|Dec)[a-z]*\s+[0-9]{1,2},?\s+[0-9]{4}"
      (seqs [month_name; plus ws; digits 1 2; opt (chr true ","); plus ws;
             digits 4 4]);
    py "[0-9]{1,2}\s+(?:Jan|Feb|Mar|Apr|May|Jun|Jul|Aug|Sep|Oct|Nov|Dec)[a-z]*\s+[0-9]{4}"
      (seqs [digits 1 2; plus ws; month_name; plus ws; digits 4 4])
  ]
|}.

(** The number [n] in decimal, padded with zeros to [width] digits. *)
Definition padded (width : nat) (n : Z) : str :=
  let ds := Float64.decimal n in
  repeat "0"%char (width - length ds) ++ ds.

(** [strftime('%m/%d/%Y')] *)
Definition strftime (d : datetime) : str :=
  padded 2 (month d) ++ lit "/" ++ padded 2 (day d) ++ lit "/" ++ padded 4 (year d).

Definition priority (l : Label) : Z :=
  match l with
  | invoice => 1
  | due => 2
  | order => 3
  | ship => 4
  | unknown => 5
  end.

Definition _get_context_snippet (text : str) (start end_ : nat) : str :=
  let context_length := 50%nat in
  let snippet_start := (start - context_length)%nat in
  let snippet_end := Nat.min (length text) (end_ + context_length) in
  let snippet := strip (slice snippet_start snippet_end text) in
  join (lit " ") (split_ws snippet).

(** The seen set is the list of the dates already kept. *)
Fixpoint keep_unseen (seen_dates : list str) (sorted_dates : list DateFinding)
    : list DateFinding :=
  match sorted_dates with
  | [] => []
  | date_info :: others =>
      if mem (formatted_date date_info) seen_dates
      then keep_unseen seen_dates others
      else date_info :: keep_unseen (formatted_date date_info :: seen_dates) others
  end.

Definition _remove_duplicates (dates : list DateFinding) : list DateFinding :=
  let sorted_dates := sorted_by (fun d => priority (label d)) Z.leb dates in
  keep_unseen [] sorted_dates.

Section WithParser.

(** [dateutil.parser.parse(date_str, fuzzy=True)]; [None] stands for the
    ValueError, TypeError or OverflowError that [_parse_date] catches. *)
Variable dateutil_parse : str -> option datetime.

Definition _parse_date (date_str : str) : option datetime :=
  let date_str := strip date_str in
  match dateutil_parse date_str with
  | Some parsed =>
      if (1900 <=? year parsed) && (year parsed <=? 2100) then Some parsed else None
  | None => None
  end.

(** One turn of the loop over the matches of a labelled pattern. *)
Definition add_labelled (text : str) (l : Label) (dates : list DateFinding)
    (m : rmatch) : list DateFinding :=
  let date_str := group1_or_0 m in
  match _parse_date date_str with
  | Some parsed_date =>
      dates ++ [{| raw_date := date_str;
                   formatted_date := strftime parsed_date;
                   label := l;
                   snippet := _get_context_snippet text (m_start m) (m_end m);
                   confidence := high |}]
  | None => dates
  end.

(** One turn of the loop over the matches of a generic pattern. *)
Definition add_generic (text : str) (dates : list DateFinding) (m : rmatch)
    : list DateFinding :=
  let date_str := group0 m in
  if existsb (fun d => eqb (lower (raw_date d)) (lower date_str)) dates then dates
  else
    match _parse_date date_str with
    | Some parsed_date =>
        dates ++ [{| raw_date := date_str;
                     formatted_date := strftime parsed_date;
                     label := unknown;
                     snippet := _get_context_snippet text (m_start m) (m_end m);
                     confidence := medium |}]
    | None => dates
    end.

(** The list [dates] as it stands before the duplicates are removed. *)
Definition found_dates (self : DateExtractor) (text : str) : list DateFinding :=
  let text_lower := lower text in
  let dates :=
    fold_left
      (fun dates entry =>
         fold_left
           (fun dates pattern =>
              fold_left (add_labelled text (fst entry)) (finditer pattern text_lower) dates)
           (snd entry) dates)
      (date_patterns self) [] in
  if (length dates <? 3)%nat then
    fold_left
      (fun dates pattern => fold_left (add_generic text) (finditer pattern text) dates)
      (generic_patterns self) dates
  else dates.

Definition extract_dates (self : DateExtractor) (text : str) : list DateFinding :=
  let dates := found_dates self text in
  let unique_dates := _remove_duplicates dates in
  firstn 3 unique_dates.

End WithParser.

End Dates.

(** ** src/main.py *)

Module Main.

Local Open Scope string_scope.
Local Open Scope list_scope.

(** What a call that may raise gives: its value, or the exception, of which
    only [str(e)] is kept. *)
Inductive outcome (A : Type) : Type :=
| Ok (a : A)
| Raise (message : str).

Arguments Ok {A} a.
Arguments Raise {A} message.

Definition bind (A B : Type) (c : outcome A) (k : A -> outcome B) : outcome B :=
  match c with
  | Ok a => k a
  | Raise message => Raise message
  end.

Notation "x <- c ;; k" := (bind c (fun x => k))
  (at level 61, c at next level, right associativity).

(** The values of a result dictionary: strings, and the integer of
    [date_count]. *)
Inductive value : Type :=
| VStr (s : str)
| VInt (n : Z).

(** A dictionary keeps its keys in the order of their insertion. *)
Definition dict : Type := list (string * value).

Fixpoint dict_set (d : dict) (k : string) (v : value) : dict :=
  match d with
  | [] => [(k, v)]
  | (k', v') :: d' =>
      if String.eqb k' k then (k, v) :: d' else (k', v') :: dict_set d' k v
  end.

Definition dict_update (d other : dict) : dict :=
  fold_left (fun d kv => dict_set d (fst kv) (snd kv)) other d.

Fixpoint dict_get (d : dict) (k : string) : option value :=
  match d with
  | [] => None
  | (k', v) :: d' => if String.eqb k' k then Some v else dict_get d' k
  end.

Definition keys (d : dict) : list string := map fst d.

Record Path : Type := {
  parent : str;
  name : str
}.

(** The four extractor objects, each through the one method that is called
    on it. *)
Record TextProcessor : Type := {
  date_extractor : str -> outcome (list Dates.DateFinding);
  vendor_extractor : str -> outcome str;
  invoice_extractor : str -> outcome str;
  currency_extractor : str -> outcome Currency.amounts
}.

Definition _create_text_excerpt (text : str) : str :=
  let max_length := 500%nat in
  let cleaned_text := join (lit " ") (split_ws text) in
  if (length cleaned_text <=? max_length)%nat then cleaned_text
  else slice 0 max_length cleaned_text ++ lit "...".

Definition label_name (l : Dates.Label) : str :=
  match l with
  | Dates.invoice => lit "invoice"
  | Dates.due => lit "due"
  | Dates.order => lit "order"
  | Dates.ship => lit "ship"
  | Dates.unknown => lit "unknown"
  end.

(** The key of column [field] of the date of rank [idx]. *)
Definition date_key (idx : nat) (field : string) : string :=
  String.append "date"
    (String.append (string_of_list_ascii (Float64.decimal (Z.of_nat idx))) field).

(** The loop over [enumerate(sorted_dates[:3])]; [i] is the index of the
    first date of [ds]. *)
Fixpoint set_dates (result : dict) (i : nat) (ds : list Dates.DateFinding) : dict :=
  match ds with
  | [] => result
  | date_info :: ds' =>
      let idx := (i + 1)%nat in
      let result := dict_set result (date_key idx "_mmddyyyy")
                      (VStr (Dates.formatted_date date_info)) in
      let result := dict_set result (date_key idx "_label")
                      (VStr (label_name (Dates.label date_info))) in
      let result := dict_set result (date_key idx "_snippet")
                      (VStr (Dates.snippet date_info)) in
      set_dates result (S i) ds'
  end.

Definition _format_dates (dates : list Dates.DateFinding) : dict :=
  let result := [
    ("date_primary_mmddyyyy", VStr []);
    ("date1_mmddyyyy", VStr []);
    ("date1_label", VStr []);
    ("date1_snippet", VStr []);
    ("date2_mmddyyyy", VStr []);
    ("date2_label", VStr []);
    ("date2_snippet", VStr []);
    ("date3_mmddyyyy", VStr []);
    ("date3_label", VStr []);
    ("date3_snippet", VStr []);
    ("date_count", VInt (Z.of_nat (length dates)))
  ] in
  match dates with
  | [] => result
  | _ =>
      let sorted_dates :=
        sorted_by (fun d => Dates.priority (Dates.label d)) Z.leb dates in
      let result :=
        match sorted_dates with
        | first :: _ =>
            dict_set result "date_primary_mmddyyyy" (VStr (Dates.formatted_date first))
        | [] => result
        end in
      set_dates result 0 (firstn 3 sorted_dates)
  end.

Definition _create_empty_result (filename : str) (error : str) : dict := [
  ("filename", VStr filename);
  ("text_excerpt", VStr []);
  ("date_primary_mmddyyyy", VStr []);
  ("date1_mmddyyyy", VStr []);
  ("date1_label", VStr []);
  ("date1_snippet", VStr []);
  ("date2_mmddyyyy", VStr []);
  ("date2_label", VStr []);
  ("date2_snippet", VStr []);
  ("date3_mmddyyyy", VStr []);
  ("date3_label", VStr []);
  ("date3_snippet", VStr []);
  ("date_count", VInt 0);
  ("possible_vendor", VStr []);
  ("invoice_no", VStr []);
  ("total", VStr []);
  ("other_amounts", VStr []);
  ("errors", VStr error)
].

(** The column order of [_save_to_csv]. *)
Definition columns : list string := [
  "filename"; "text_excerpt"; "date_primary_mmddyyyy";
  "date1_mmddyyyy"; "date1_label"; "date1_snippet";
  "date2_mmddyyyy"; "date2_label"; "date2_snippet";
  "date3_mmddyyyy"; "date3_label"; "date3_snippet";
  "date_count"; "possible_vendor"; "invoice_no";
  "total"; "other_amounts"; "errors"
].

Section WithFiles.

(** [read_text_file] of src/src/utils/file_utils.py reads the file system:
    the content of the file, [None] when it cannot be read. *)
Variable read_text_file : Path -> outcome (option str).

(** The body of the [try] block of [process_file]. *)
Definition try_process_file (self : TextProcessor) (file_path : Path) : outcome dict :=
  text_content <- read_text_file file_path ;;
  match text_content with
  | None | Some [] => Ok (_create_empty_result (name file_path) (lit "Empty file"))
  | Some text_content =>
      let result := [
        ("filename", VStr (name file_path));
        ("text_excerpt", VStr (_create_text_excerpt text_content))
      ] in
      dates <- date_extractor self text_content ;;
      let result := dict_update result (_format_dates dates) in
      vendor <- vendor_extractor self text_content ;;
      let result := dict_set result "possible_vendor" (VStr vendor) in
      invoice_no <- invoice_extractor self text_content ;;
      let result := dict_set result "invoice_no" (VStr invoice_no) in
      amounts <- currency_extractor self text_content ;;
      let result := dict_set result "total" (VStr (Currency.total amounts)) in
      let result := dict_set result "other_amounts"
                      (VStr (Currency.other_amounts amounts)) in
      let result := dict_set result "errors" (VStr []) in
      Ok result
  end.

(** The log is the state the logger of the processor keeps: the lines
    written so far. *)
Definition log : Type := list str.

Definition process_file (self : TextProcessor) (file_path : Path) (lg : log)
    : dict * log :=
  match try_process_file self file_path with
  | Ok result => (result, lg)
  | Raise message =>
      (_create_empty_result (name file_path) message,
       lg ++ [lit "Error processing " ++ parent file_path ++ lit "/"
              ++ name file_path ++ lit ": " ++ message])
  end.

(** The loop of [process_directory] over the files the directory lists; the
    results are what is handed to [_save_to_csv]. *)
Fixpoint process_files (self : TextProcessor) (txt_files : list Path) (lg : log)
    : list dict * log :=
  match txt_files with
  | [] => ([], lg)
  | file_path :: others =>
      let (result, lg) := process_file self file_path lg in
      let (results, lg) := process_files self others lg in
      (result :: results, lg)
  end.

End WithFiles.

(** *** [process_directory] and [_save_to_csv] *)

(** A cell of a data frame: a value, or the NaN that pandas puts where a
    result lacks a key that another result has. *)
Inductive cell : Type :=
| Filled (v : value)
| NaN.

Record DataFrame : Type := {
  df_columns : list string;
  df_rows : list (list cell)
}.

Definition has_key (k : string) (r : dict) : bool :=
  match dict_get r k with Some _ => true | None => false end.

(** [pd.DataFrame(results).reindex(columns=columns, fill_value='')]: the
    rows in the order of the results, the cells in the order of [columns];
    a column that no result has is filled with the empty string. *)
Definition reindex (results : list dict) (columns : list string) : DataFrame := {|
  df_columns := columns;
  df_rows :=
    map (fun r =>
           map (fun c =>
                  match dict_get r c with
                  | Some v => Filled v
                  | None => if existsb (has_key c) results then NaN
                            else Filled (VStr [])
                  end)
               columns)
        results
|}.

(** [str(path)] *)
Definition path_str (p : Path) : str := parent p ++ lit "/" ++ name p.

(** What [_save_to_csv] leaves: the file written, if any, and the log.
    Creating the directory and writing the file are taken to succeed. *)
Definition _save_to_csv (results : list dict) (output_file : Path) (lg : log)
    : option (Path * DataFrame) * log :=
  match results with
  | [] => (None, lg ++ [lit "No results to save"])
  | _ =>
      let df := reindex results columns in
      (Some (output_file, df), lg)
  end.

Section WithDirectory.

Variable read_text_file : Path -> outcome (option str).

(** [list(input_dir.glob("*.txt"))] *)
Variable glob_txt : Path -> list Path.

Definition process_directory (self : TextProcessor) (input_dir output_file : Path)
    (lg : log) : option (Path * DataFrame) * log :=
  let txt_files := glob_txt input_dir in
  match txt_files with
  | [] => (None, lg ++ [lit "No .txt files found in " ++ path_str input_dir])
  | _ =>
      let lg := lg ++ [lit "Found " ++ Float64.decimal (Z.of_nat (length txt_files))
                       ++ lit " .txt files to process"] in
      let (results, lg) := process_files read_text_file self txt_files lg in
      let (saved, lg) := _save_to_csv results output_file lg in
      (saved, lg ++ [lit "Processing complete. Results saved to "
                     ++ path_str output_file])
  end.

End WithDirectory.

(** The processor [TextProcessor.__init__] builds. *)
Definition init (dateutil_parse : str -> option Dates.datetime) : TextProcessor := {|
  date_extractor := fun text => Ok (Dates.extract_dates dateutil_parse Dates.init text);
  vendor_extractor := fun text => Ok (Vendor.extract_vendor Vendor.init text);
  invoice_extractor := fun text => Ok (Invoice.extract_invoice_number Invoice.init text);
  currency_extractor := fun text => Ok (Currency.extract_amounts Currency.init text)
|}.

End Main.

(** ** src/src/utils/file_utils.py *)

Module FileUtils.

Import Main.

Inductive encoding : Type := utf_8 | latin_1 | cp1252 | iso_8859_1 | utf_16.

(** What [open(file_path, 'r', encoding=...)] and [file.read()] give: the
    text, a UnicodeDecodeError (or UnicodeError), or an OSError with its
    message. *)
Inductive reading : Type :=
| Text (s : str)
| UnicodeError
| OSError (message : str).

Definition alt_encodings : list encoding := [latin_1; cp1252; iso_8859_1; utf_16].

Section WithFileSystem.

Variable open_read : Path -> encoding -> reading.

(** The loop over the alternative encodings: the text of the first one that
    decodes the file; [None] when the loop ends without one.  An OSError in
    the loop is not caught there. *)
Fixpoint try_encodings (file_path : Path) (encodings : list encoding)
    : outcome (option str) :=
  match encodings with
  | [] => Ok None
  | alt_encoding :: others =>
      match open_read file_path alt_encoding with
      | Text s => Ok (Some s)
      | UnicodeError => try_encodings file_path others
      | OSError message => Raise message
      end
  end.

(** [stdout] holds the lines printed so far. *)
Definition read_text_file (file_path : Path) (encoding : encoding) (stdout : list str)
    : outcome (option str) * list str :=
  match open_read file_path encoding with
  | Text s => (Ok (Some s), stdout)
  | UnicodeError =>
      match try_encodings file_path alt_encodings with
      | Ok (Some s) => (Ok (Some s), stdout)
      | Ok None =>
          (Ok None,
           stdout ++ [lit "Could not decode file " ++ parent file_path ++ lit "/"
                      ++ name file_path ++ lit " with any encoding"])
      | Raise message => (Raise message, stdout)
      end
  | OSError message =>
      (Ok None,
       stdout ++ [lit "Error reading file " ++ parent file_path ++ lit "/"
                  ++ name file_path ++ lit ": " ++ message])
  end.

End WithFileSystem.
End FileUtils.

Unset Implicit Arguments.

Import Re.

Open Scope list_scope.

(** * The statements of the specification

    The notions the specification speaks of, next to those of the code. *)

(** ** Text excerpt *)

(** The text with every run of white space collapsed to one space. *)
Definition collapsed (text : str) : str := join (lit " ") (split_ws text).

Definition ends_with (suffix s : str) : Prop := exists p, s = p ++ suffix.

Definition long_text : str := concat (repeat (lit "abcdef  ") 85) ++ lit "xyzxy".
Definition short_text : str := lit "  Invoice   INV-1  ".

(** ** Amounts *)

Module SpecTotal.
(** The captures of the amount patterns that pass validation, cleaned. *)
Definition validated (m : rmatch) : option str :=
  match Currency._clean_amount (group1_or_0 m) with
  | Some cleaned => if Currency._is_valid_amount cleaned then Some cleaned else None
  | None => None
  end.

Definition amount_matches (self : Currency.CurrencyExtractor) (text : str) : list rmatch :=
  flat_map (fun pattern => finditer pattern (lower text)) (Currency.currency_patterns self).
End SpecTotal.

Module SpecAmount.
Definition has_digit (s : str) : Prop := exists c, In c s /\ is_digit c = true.

Definition is_point (c : ascii) : bool := eqb_char c ".".

Definition decimal_points (s : str) : nat := length (filter is_point s).

(** What follows the first decimal point; empty when there is none. *)
Fixpoint fractional_part (s : str) : str :=
  match s with
  | [] => []
  | c :: s' => if is_point c then s' else fractional_part s'
  end.

(** The strings the capture of an amount pattern can hold: digits and
    commas, then possibly a point and digits. *)
Fixpoint amount_shape_tail (s : str) : bool :=
  match s with
  | [] => true
  | c :: s' =>
      if Currency.comma_digit c then amount_shape_tail s'
      else is_point c && forallb is_digit s'
  end.

Definition amount_shape (s : str) : bool :=
  match s with
  | c :: s' => Currency.comma_digit c && amount_shape_tail s'
  | [] => false
  end.

(** The validity of an amount in the words of the specification. *)
Definition valid_amount (s : str) : Prop :=
  has_digit s /\
  decimal_points s <= 1 /\
  length (fractional_part s) <= 2 /\
  exists value, Currency._amount_to_float s = Some value /\
                Currency.in_range value = true.

(** What precedes the first decimal point. *)
Fixpoint integer_part (s : str) : str :=
  match s with
  | [] => []
  | c :: s' => if is_point c then [] else c :: integer_part s'
  end.

(** The amount a cleaned string denotes, in hundredths: its digits read as
    one number, scaled by the number of digits after the point. *)
Definition cents (s : str) : Z :=
  (Float64.digits_value (filter is_digit s)
   * 10 ^ (2 - Z.of_nat (length (filter is_digit (fractional_part s)))))%Z.

Definition digit_or_point (c : ascii) : bool := is_digit c || is_point c.

(** The validity of an amount with its value taken as a decimal number. *)
Definition valid_amount_decimal (s : str) : Prop :=
  has_digit s /\
  decimal_points s <= 1 /\
  length (fractional_part s) <= 2 /\
  (1 <= cents s <= 99999999999)%Z.
End SpecAmount.

(** The mantissa of a rounded number has 53 bits (subnormal numbers apart). *)
Definition mantissa (n d e : Z) : Z :=
  (if 0 <=? e then Float64.rne n (d * 2 ^ e) else Float64.rne (n * 2 ^ (- e)) d)%Z.

(** The denominators of the amounts: no digit, one digit or two digits after
    the point. *)
Definition decimal_scale (d : Z) : Prop := (d = 1 \/ d = 10 \/ d = 100)%Z.

(** The range test of [_is_valid_amount] on the float of a string. *)
Definition float_in_range (s : str) : bool :=
  match Currency._amount_to_float s with
  | Some value => Currency.in_range value
  | None => false
  end.

(** ** Invoice numbers *)

Module SpecInvoice.
Definition has_digit := SpecAmount.has_digit.
Definition has_letter (s : str) : Prop := exists c, In c s /\ is_alpha c = true.
Definition all_digits (s : str) : Prop := s <> [] /\ forallb is_digit s = true.

Definition strip_separators (s : str) : str :=
  remove_char " " (remove_char "_" (remove_char "-" s)).

(** The class of the letters, the digits, the underscore and the dash. *)
Definition class_char (c : ascii) : bool := is_alpha c || is_digit c || one_of "_-" c.

Definition in_class_3_20 (s : str) : Prop :=
  3 <= length s <= 20 /\ forallb class_char s = true.

Definition stopword (s : str) : Prop := In (lower s) Invoice.false_positives.

Definition letters_and_digits_or_long_number (s : str) : Prop :=
  (has_letter s /\ has_digit s) \/ (all_digits s /\ 4 <= length s).

(** The validity of a candidate in the words of the specification. *)
Definition stated_valid_invoice_number (s : str) : Prop :=
  3 <= length (strip_separators s) /\ has_digit s /\ in_class_3_20 s /\
  ~ stopword s /\ letters_and_digits_or_long_number s.

(** What [re.match] with [^...$] accepts: the class, and also the class
    followed by one final line feed. *)
Definition matches_class (s : str) : Prop :=
  in_class_3_20 s \/ exists body, s = body ++ [newline] /\ in_class_3_20 body.

(** The validity the code implements: the length is that of the candidate
    itself. *)
Definition valid_invoice_number (s : str) : Prop :=
  3 <= length s /\ has_digit s /\ matches_class s /\
  ~ stopword s /\ letters_and_digits_or_long_number s.
End SpecInvoice.

Module SpecSearch.
(** The first valid capture of the keyword-anchored patterns on a line that
    holds one of the keywords. *)
Definition anchored_match (line : str) : option str :=
  if Invoice.has_keyword line
  then first_some (Invoice.anchored_candidate (lower line)) Invoice.line_patterns
  else None.

(** The first valid standalone token of a line that holds "invoice". *)
Definition standalone_match (line : str) : option str :=
  if Invoice.has_keyword line && contains (lit "invoice") (lower line)
  then first_some Invoice.standalone_candidate (findall Invoice.standalone_token line)
  else None.

(** The search over the whole lower-cased text with the broader patterns. *)
Definition full_text_match (self : Invoice.InvoiceExtractor) (text : str) : option str :=
  first_some
    (fun pattern => first_some Invoice.full_text_candidate (finditer pattern (lower text)))
    (Invoice.invoice_patterns self).

(** The search order in the words of the specification: a keyword-anchored
    match of any line wins over the standalone tokens. *)
Definition stated_search_order (self : Invoice.InvoiceExtractor) (text : str) : Prop :=
  forall v, first_some anchored_match (split_on newline text) = Some v ->
            Invoice.extract_invoice_number self text = v.
End SpecSearch.

(** Two lines: the first has a standalone token only, the second a
    keyword-anchored number. *)
Definition two_invoice_lines : str :=
  lit "Invoice for order AB123" ++ [newline] ++ lit "Invoice #: INV-2024-001".

(** ** Dates *)

Module SpecDates.
Definition prio (d : Dates.DateFinding) : Z := Dates.priority (Dates.label d).

Definition same_date (d x : Dates.DateFinding) : bool :=
  PyStr.eqb (Dates.formatted_date x) (Dates.formatted_date d).

Definition by_priority (a b : Dates.DateFinding) : Prop := (prio a <= prio b)%Z.

Definition has_label (l : Dates.Label) (d : Dates.DateFinding) : bool :=
  Z.eqb (prio d) (Dates.priority l).
End SpecDates.

Module SpecParser.
(** A stand-in for [dateutil] in the examples: it reads month/day/year
    written with digits and slashes and nothing else. *)
Definition numeric_mdy (s : str) : option Dates.datetime :=
  match split_on "/" s with
  | [m; d; y] =>
      if forallb is_digit (m ++ d ++ y)
      then Some {| Dates.year := Float64.digits_value y;
                   Dates.month := Float64.digits_value m;
                   Dates.day := Float64.digits_value d |}
      else None
  | _ => None
  end.

Definition invoice_and_due : str :=
  lit "Due Date: 02/15/2024" ++ [newline] ++ lit "Invoice Date: 01/15/2024".
End SpecParser.

(** ** Vendors *)

Module SpecVendor.
Local Open Scope Z_scope.
Section Table.
Variable self : Vendor.VendorExtractor.

Definition len (c : str) : Z := Z.of_nat (length c).

Definition length_points (c : str) : Z :=
  if (10 <=? len c) && (len c <=? 50) then 10
  else if (5 <=? len c) && (len c <=? 60) then 5 else 0.

Definition word_points (c : str) : Z :=
  if 2 <=? Z.of_nat (length (split_ws c)) then 15 else 0.

Definition suffix_points (c : str) : Z :=
  if existsb (fun suffix => contains (lit suffix) (lower c)) Vendor.business_suffixes
  then 20 else 0.

Definition title_points (c : str) : Z := if istitle c then 10 else 0.

Definition excluded_points (c : str) : Z :=
  if existsb (fun exclude => contains (lit exclude) (lower c)) (Vendor.exclude_words self)
  then -20 else 0.

Definition caps_points (c : str) : Z :=
  if isupper c && (10 <? len c) then -5 else 0.

Definition digit_points (c : str) : Z := if existsb is_digit c then -10 else 0.

(** The scoring table of the specification, row by row. *)
Definition table_score (c : str) : Z :=
  length_points c + word_points c + suffix_points c + title_points c
  + excluded_points c + caps_points c + digit_points c.
End Table.
End SpecVendor.

Section FirstGreatest.

Variables (A : Type) (key : A -> Z).


End FirstGreatest.

Definition widget_text : str :=
  lit "From: Widget Works LLC, 12 Main Street" ++ [newline] ++ lit "BIG BOLD TRADERS".

(** ** Records *)

Module SpecRecord.
Import Main.
Local Open Scope string_scope.

(** The value an extraction field has in an empty result: the empty string,
    and 0 for the number of dates. *)
Definition empty_value (k : string) : value :=
  if String.eqb k "date_count" then VInt 0 else VStr [].

(** Every field but the file name and the error is empty. *)
Definition extraction_fields_empty (r : dict) : Prop :=
  forall k, In k columns -> k <> "filename" -> k <> "errors" ->
            dict_get r k = Some (empty_value k).

(** The specification on a failure: the error field is not empty. *)
Definition stated_error_field (r : dict) : Prop :=
  dict_get r "errors" <> Some (VStr []).

(** A file system whose every file holds the text [content]. *)
Definition every_file (content : str) (p : Path) : outcome (option str) :=
  Ok (Some content).

Definition some_path : Path := {| parent := lit "data/input"; name := lit "a.txt" |}.
End SpecRecord.

Module SpecRuns.
Import Main.
(** The same file name in two directories. *)
Definition first_copy : Path := {| parent := lit "in"; name := lit "a.txt" |}.
Definition second_copy : Path := {| parent := lit "again"; name := lit "a.txt" |}.
Definition sample_text : str :=
  lit "Acme Tools Inc" ++ [newline] ++ lit "Invoice Date: 01/15/2024" ++ [newline]
  ++ lit "Invoice #: INV-2024-001" ++ [newline] ++ lit "Amount due: $120.00".
End SpecRuns.

(** ** The date library and the clock *)

Module SpecClock.
Import Main.
Local Open Scope Z_scope.





End SpecClock.

(** The keys of a dictionary after [dict_set]. *)
Definition keys_set (ks : list string) (k : string) : list string :=
  if existsb (String.eqb k) ks then ks else ks ++ [k].

Definition date_columns : list string := [
  "date_primary_mmddyyyy"; "date1_mmddyyyy"; "date1_label"; "date1_snippet";
  "date2_mmddyyyy"; "date2_label"; "date2_snippet";
  "date3_mmddyyyy"; "date3_label"; "date3_snippet"; "date_count"
]%string.

(** * The matcher and the words of a pattern *)

Module ReSem.
(** The words a pattern can match, the assertions left aside: an upper
    bound of what the matcher accepts. *)
Fixpoint matches (r : regex) (w : str) : Prop :=
  match r with
  | Eps | WordB | Bol | Eol => w = []
  | Chr p => exists c, w = [c] /\ p c = true
  | Seq a b => exists u v, w = u ++ v /\ matches a u /\ matches b v
  | Alt a b => matches a w \/ matches b w
  | Rep _ lo _ a =>
      exists ws, w = concat ws /\ Forall (matches a) ws /\ lo <= length ws
  | Grp a => matches a w
  end.

(** [st'] is [st] after the word [w]. *)
Definition after (w : str) (st st' : mstate) : Prop :=
  rest st = w ++ rest st' /\ seen st' = rev w ++ seen st.

Definition all_chars : list ascii := map ascii_of_nat (seq 0 256).

(** Every character of the class is no white space. *)
Definition no_space_class (p : ascii -> bool) : bool :=
  forallb (fun c => implb (p c) (negb (is_space c))) all_chars.

Fixpoint may_be_empty (r : regex) : bool :=
  match r with
  | Eps | WordB | Bol | Eol => true
  | Chr _ => false
  | Seq a b => may_be_empty a && may_be_empty b
  | Alt a b => may_be_empty a || may_be_empty b
  | Rep _ lo _ a => Nat.eqb lo 0 || may_be_empty a
  | Grp a => may_be_empty a
  end.

(** No match begins with white space. *)
Fixpoint first_no_space (r : regex) : bool :=
  match r with
  | Eps | WordB | Bol | Eol => true
  | Chr p => no_space_class p
  | Seq a b => first_no_space a && (negb (may_be_empty a) || first_no_space b)
  | Alt a b => first_no_space a && first_no_space b
  | Rep _ _ _ a => first_no_space a
  | Grp a => first_no_space a
  end.

(** No match ends with white space. *)
Fixpoint last_no_space (r : regex) : bool :=
  match r with
  | Eps | WordB | Bol | Eol => true
  | Chr p => no_space_class p
  | Seq a b => last_no_space b && (negb (may_be_empty b) || last_no_space a)
  | Alt a b => last_no_space a && last_no_space b
  | Rep _ _ _ a => last_no_space a
  | Grp a => last_no_space a
  end.

(** The patterns whose matches [strip] leaves alone. *)
Definition strip_proof (r : regex) : bool :=
  negb (may_be_empty r) && first_no_space r && last_no_space r && negb (has_group r).
End ReSem.

Import ReSem.

(** The state after [j] more characters. *)
Definition advance (j : nat) (sn rs : str) (g : option str) : mstate :=
  MState (rev (firstn j rs) ++ sn) (skipn j rs) g.

(** The matcher [step] accepts only words of the pattern [a]. *)
Definition sound_step (a : regex) (step : mstate -> cont -> option mstate) : Prop :=
  forall st k out, step st k = Some out ->
    exists w st', matches a w /\ after w st st' /\ k st' = Some out.

Definition first_char_ok (w : str) : Prop :=
  forall c w', w = c :: w' -> is_space c = false.

Definition last_char_ok (w : str) : Prop :=
  forall c w', rev w = c :: w' -> is_space c = false.

(** * Further notions

    The notions the further properties of the code are stated with. *)

(** ** ASCII texts *)

(** The text holds ASCII characters only.  On such a text [lower], [upper]
    and the matching without regard to case of the model are those of
    Python; beyond ASCII, Python folds more letters than the model does and
    [str.lower] may change the length of a text. *)
Definition is_ascii (c : ascii) : bool := N.ltb (code c) 128.

Definition ascii_text (s : str) : Prop := forallb is_ascii s = true.

(** ** White space *)

(** Every white space character of [s] is a plain space. *)
Definition plain_spaces (s : str) : bool :=
  forallb (fun c => implb (is_space c) (eqb_char c " ")) s.

(** No two white space characters of [s] follow each other. *)
Fixpoint single_spaced (s : str) : bool :=
  match s with
  | c :: (d :: _) as s' => negb (is_space c && is_space d) && single_spaced s'
  | _ => true
  end.

(** A word of a text: not empty and free of white space. *)
Definition is_word_of_text (w : str) : Prop :=
  w <> [] /\ forallb (fun c => negb (is_space c)) w = true.

Definition no_space (c : ascii) : bool := negb (is_space c).

Definition upper_or_space (c : ascii) : bool := is_upper c || is_space c.

(** ** Pieces of a text and the groups of a match *)

(** [g] is a piece of [s]: consecutive characters of it. *)
Definition segment (g s : str) : Prop := exists a b, s = a ++ g ++ b.

(** The group of a state was closed inside the word [w], or is the one of
    the state the word was read from. *)
Definition group_within (w : str) (st st' : mstate) : Prop :=
  grp st' = grp st \/ exists g, grp st' = Some g /\ segment g w.

Definition capture_step (a : regex) (step : mstate -> cont -> option mstate) : Prop :=
  forall st k out, step st k = Some out ->
    exists w st', matches a w /\ after w st st' /\ group_within w st st' /\
                  k st' = Some out.

(** What a match object says of the text [s] it was found in. *)
Definition match_in (r : regex) (s : str) (m : rmatch) : Prop :=
  exists pre post,
    s = pre ++ group0 m ++ post /\
    m_start m = length pre /\ m_end m = length pre + length (group0 m) /\
    matches r (group0 m) /\
    forall g, group1 m = Some g -> segment g (group0 m).

Module ReShape.
(** Every character a match of the pattern holds is in the class [q]. *)
Fixpoint chars_within (q : ascii -> bool) (r : regex) : bool :=
  match r with
  | Eps | WordB | Bol | Eol => true
  | Chr p => forallb (fun c => implb (p c) (q c)) all_chars
  | Seq a b | Alt a b => chars_within q a && chars_within q b
  | Rep _ _ _ a | Grp a => chars_within q a
  end.
End ReShape.

Import ReShape.

(** ** Date findings *)

Module SpecFinding.
Section Findings.
Variable dateutil_parse : str -> option Dates.datetime.
Variable self : Dates.DateExtractor.
Variable text : str.

(** The finding was parsed by the library from its raw text, which stands
    in the text (letter case apart); its year is between 1900 and 2100 and
    its snippet is cut around a place of the text. *)
Definition parsed (d : Dates.DateFinding) : Prop :=
  exists dt start end_,
    dateutil_parse (strip (Dates.raw_date d)) = Some dt /\
    (1900 <= Dates.year dt <= 2100)%Z /\
    Dates.formatted_date d = Dates.strftime dt /\
    segment (lower (Dates.raw_date d)) (lower text) /\
    start <= end_ <= length text /\
    Dates.snippet d = Dates._get_context_snippet text start end_.

Definition labelled (d : Dates.DateFinding) : Prop :=
  Dates.confidence d = Dates.high /\
  exists entry, In entry (Dates.date_patterns self) /\ Dates.label d = fst entry.

Definition generic (d : Dates.DateFinding) : Prop :=
  Dates.confidence d = Dates.medium /\ Dates.label d = Dates.unknown.

Definition same_raw (d d' : Dates.DateFinding) : Prop :=
  lower (Dates.raw_date d') = lower (Dates.raw_date d).

(** A generic finding repeats the raw text of no finding before it. *)
Definition generic_is_new (l : list Dates.DateFinding) : Prop :=
  forall l1 d l2, l = l1 ++ d :: l2 -> generic d ->
    forall d', In d' l1 -> ~ same_raw d d'.

(** A finding of a labelled pattern, and one of a generic pattern. *)
Definition from_label (d : Dates.DateFinding) : Prop := parsed d /\ labelled d.
Definition from_generic (d : Dates.DateFinding) : Prop := parsed d /\ generic d.

(** The list [dates] after the loops over the labelled patterns. *)
Definition labelled_dates : list Dates.DateFinding :=
  fold_left
    (fun dates entry =>
       fold_left
         (fun dates pattern =>
            fold_left (Dates.add_labelled dateutil_parse text (fst entry))
                      (finditer pattern (lower text)) dates)
         (snd entry) dates)
    (Dates.date_patterns self) [].

(** What the loops over the generic patterns add to [dates]. *)
Definition generic_grown (dates acc : list Dates.DateFinding) : Prop :=
  exists extra, acc = dates ++ extra /\
    Forall from_generic extra /\
    (generic_is_new dates -> generic_is_new acc).

End Findings.
End SpecFinding.

(** ** Written amounts *)

Module SpecFormat.
Import Float64.
(** An amount of [c] hundredths as it is written: the dollar sign, the
    units with a comma before every group of three digits, the point and two
    digits. *)
Definition canonical (c : Z) : str :=
  lit "$" ++ group3 (decimal (c / 100)) ++ lit "."
  ++ [digit_char (c mod 100 / 10); digit_char (c mod 10)].
End SpecFormat.

(** ** Records and tables *)

Module SpecColumns.
Import Main.
(** The cell of a date column: the field of the date of rank [i], empty
    when there are fewer dates. *)
Definition date_cell (ds : list Dates.DateFinding) (i : nat)
    (field : Dates.DateFinding -> str) : option value :=
  Some (VStr (match nth_error ds i with Some d => field d | None => [] end)).

Definition label_text (d : Dates.DateFinding) : str := label_name (Dates.label d).

(** The eleven date columns filled from the dates [ds], which are taken in
    their order. *)
Definition date_columns_of (count : nat) (ds : list Dates.DateFinding) (r : dict) : Prop :=
  dict_get r "date_count" = Some (VInt (Z.of_nat count)) /\
  dict_get r "date_primary_mmddyyyy" = date_cell ds 0 Dates.formatted_date /\
  dict_get r "date1_mmddyyyy" = date_cell ds 0 Dates.formatted_date /\
  dict_get r "date1_label" = date_cell ds 0 label_text /\
  dict_get r "date1_snippet" = date_cell ds 0 Dates.snippet /\
  dict_get r "date2_mmddyyyy" = date_cell ds 1 Dates.formatted_date /\
  dict_get r "date2_label" = date_cell ds 1 label_text /\
  dict_get r "date2_snippet" = date_cell ds 1 Dates.snippet /\
  dict_get r "date3_mmddyyyy" = date_cell ds 2 Dates.formatted_date /\
  dict_get r "date3_label" = date_cell ds 2 label_text /\
  dict_get r "date3_snippet" = date_cell ds 2 Dates.snippet.
End SpecColumns.

Module SpecSuccess.
Import Main.
Local Open Scope string_scope.
Local Open Scope list_scope.
(** The record of a text on which every extractor returns. *)
Definition record_of (filename text : str) (dates : list Dates.DateFinding)
    (vendor invoice_no : str) (amounts : Currency.amounts) : dict :=
  [("filename", VStr filename); ("text_excerpt", VStr (_create_text_excerpt text))]
  ++ _format_dates dates
  ++ [("possible_vendor", VStr vendor); ("invoice_no", VStr invoice_no);
      ("total", VStr (Currency.total amounts));
      ("other_amounts", VStr (Currency.other_amounts amounts));
      ("errors", VStr [])].
End SpecSuccess.

Module SpecDirectory.
Import Main.
(** A directory that lists two files, and the file to write. *)
Definition two_files (input_dir : Path) : list Path :=
  [SpecRuns.first_copy; SpecRuns.second_copy].
Definition output_path : Path :=
  {| parent := lit "data/output"; name := lit "extracted_data.csv" |}.
End SpecDirectory.

(** ** Files *)

Module SpecFiles.
Import Main FileUtils.
(** What [read_text_file] returns, read off the readings in UTF-8 and in
    Latin-1 alone. *)
Definition utf_8_then_latin_1 (open_read : Path -> encoding -> reading) (file_path : Path)
    : outcome (option str) :=
  match open_read file_path utf_8 with
  | Text s => Ok (Some s)
  | OSError _ => Ok None
  | UnicodeError =>
      match open_read file_path latin_1 with
      | Text s => Ok (Some s)
      | OSError message => Raise message
      | UnicodeError => Ok None
      end
  end.

Definition error_line (file_path : Path) (message : str) : str :=
  lit "Error reading file " ++ parent file_path ++ lit "/" ++ name file_path
  ++ lit ": " ++ message.

(** A file system whose files are not UTF-8 but decode in Latin-1. *)
Definition latin_1_files (content : str) (file_path : Path) (e : encoding) : reading :=
  match e with
  | latin_1 | cp1252 | iso_8859_1 => Text content
  | utf_8 | utf_16 => UnicodeError
  end.

(** A file system without any file. *)
Definition no_file (file_path : Path) (e : encoding) : reading :=
  OSError (lit "[Errno 2] No such file or directory").
End SpecFiles.

(** ** The errors of the operating system *)

Module SpecErrors.
Import Main FileUtils.

(** What the operating system answers when a file is opened and read in an
    encoding: the text, bytes that the encoding does not decode, or an error,
    with its number and what [str(e)] shows after it (the message of the
    system and the name of the file). *)
Inductive answer : Type :=
| Content (s : str)
| Undecodable
| Errno (n : Z) (detail : str).

(** [str(e)] of the OSError that [open] raises. *)
Definition os_error_str (n : Z) (detail : str) : str :=
  lit "[Errno " ++ Float64.decimal n ++ lit "] " ++ detail.

Definition open_on (os : Path -> encoding -> answer) (file_path : Path) (e : encoding)
    : reading :=
  match os file_path e with
  | Content s => Text s
  | Undecodable => UnicodeError
  | Errno n detail => OSError (os_error_str n detail)
  end.

(** [read_text_file(file_path)] as [process_file] calls it: the encoding is
    the default one, and what is printed is left aside. *)
Definition read_on (os : Path -> encoding -> answer) (file_path : Path)
    : outcome (option str) :=
  fst (read_text_file (open_on os) file_path utf_8 []).

(** A file that UTF-8 does not decode and that can no longer be opened when
    the other encodings are tried. *)
Definition permission_lost (file_path : Path) (e : encoding) : answer :=
  match e with
  | utf_8 => Undecodable
  | _ => Errno 13 (lit "Permission denied: 'data/input/a.txt'")
  end.

(** A directory in which the file is missing, one in which it is empty and
    one in which it holds a text. *)
Definition missing (file_path : Path) (e : encoding) : answer :=
  Errno 2 (lit "No such file or directory: 'data/input/a.txt'").

Definition holding (content : str) (file_path : Path) (e : encoding) : answer :=
  Content content.
End SpecErrors.

(** * Proofs *)

(** ** The text excerpt *)

(** Claim C8.  When the text, its white space collapsed, has at most 500
    characters, the excerpt is that collapsed text; when it is longer, the
    excerpt is its first 500 characters followed by three points: 503
    characters that end in three points. *)
Theorem excerpt_truncation : forall text : str,
  (length (collapsed text) <= 500 ->
     Main._create_text_excerpt text = collapsed text) /\
  (500 < length (collapsed text) ->
     Main._create_text_excerpt text = firstn 500 (collapsed text) ++ lit "..." /\
     length (Main._create_text_excerpt text) = 503 /\
     ends_with (lit "...") (Main._create_text_excerpt text)).
Proof.
  intro text. unfold Main._create_text_excerpt. fold (collapsed text).
  destruct (Nat.leb_spec (length (collapsed text)) 500) as [Hle | Hgt]; split; intro H;
    try lia; try reflexivity.
  unfold slice. rewrite skipn_O.
  repeat split.
  - rewrite length_app, length_firstn, Nat.min_l by lia. reflexivity.
  - exists (firstn 500 (collapsed text)). reflexivity.
Qed.

Lemma excerpt_truncation_witness :
  Main._create_text_excerpt short_text = lit "Invoice INV-1" /\
  length (collapsed long_text) = 600 /\
  length (Main._create_text_excerpt long_text) = 503 /\
  ends_with (lit "...") (Main._create_text_excerpt long_text).
Proof.
  split.
  - apply (proj1 (excerpt_truncation short_text)). vm_compute. lia.
  - split; [ vm_compute; reflexivity | ].
    apply (proj2 (excerpt_truncation long_text)). vm_compute. lia.
Defined.

(** ** Amounts: the total and the other amounts *)

Lemma eqb_char_true : forall a b, eqb_char a b = true <-> a = b.
Proof. intros a b. unfold eqb_char. apply Ascii.eqb_eq. Qed.

Lemma eqb_true : forall a b : str, PyStr.eqb a b = true <-> a = b.
Proof.
  induction a as [| x a IH]; destruct b as [| y b]; simpl; split; intro H;
    try reflexivity; try discriminate.
  - apply andb_true_iff in H as [Hx Ha]. apply eqb_char_true in Hx.
    apply IH in Ha. congruence.
  - injection H as -> ->. apply andb_true_iff. split.
    + now apply eqb_char_true.
    + now apply IH.
Qed.

Lemma mem_In : forall (x : str) xs, mem x xs = true <-> In x xs.
Proof.
  intros x xs. unfold mem. rewrite existsb_exists. split.
  - intros [y [Hy He]]. apply eqb_true in He. now subst.
  - intro H. exists x. split; [assumption | now apply eqb_true].
Qed.

Lemma first_some_Some : forall (A B : Type) (f : A -> option B) l b,
  first_some f l = Some b -> exists x, In x l /\ f x = Some b.
Proof.
  induction l as [| x l IH]; simpl; intros b H; [discriminate |].
  destruct (f x) as [b' |] eqn:Hf.
  - injection H as <-. exists x. auto.
  - destruct (IH _ H) as [y [Hy Hfy]]. exists y. auto.
Qed.

Lemma first_some_None : forall (A B : Type) (f : A -> option B) l,
  first_some f l = None <-> forall x, In x l -> f x = None.
Proof.
  induction l as [| x l IH]; simpl.
  - split; [intros _ y [] | reflexivity].
  - destruct (f x) eqn:Hf; split; intro H.
    + discriminate.
    + specialize (H x (or_introl eq_refl)). congruence.
    + intros y [<- | Hy]; [assumption | now apply IH].
    + apply IH. intros y Hy. apply H. now right.
Qed.

Section SortFacts.
Variables (A K : Type) (key : A -> K) (leb : K -> K -> bool).

Lemma insert_by_perm : forall x l, Permutation (insert_by key leb x l) (x :: l).
Proof.
  induction l as [| y l IH]; simpl.
  - apply Permutation_refl.
  - destruct (leb (key x) (key y)).
    + apply Permutation_refl.
    + eapply Permutation_trans; [apply perm_skip, IH | apply perm_swap].
Qed.

Lemma sorted_by_perm : forall l, Permutation (sorted_by key leb l) l.
Proof.
  induction l as [| x l IH]; simpl.
  - apply perm_nil.
  - eapply Permutation_trans; [apply insert_by_perm | now apply perm_skip].
Qed.
End SortFacts.

Lemma sorted_desc_by_perm : forall (A K : Type) (key : A -> K) leb l,
  Permutation (sorted_desc_by key leb l) l.
Proof. intros. apply sorted_by_perm. Qed.

(** The list [amounts] as the loops of [_find_all_amounts] fill it. *)
Lemma add_amount_spec : forall acc m,
  Currency.add_amount acc m =
  match SpecTotal.validated m with
  | Some cleaned =>
      if mem (Currency._format_amount cleaned) acc then acc
      else acc ++ [Currency._format_amount cleaned]
  | None => acc
  end.
Proof.
  intros acc m. unfold Currency.add_amount, SpecTotal.validated.
  destruct (Currency._clean_amount (group1_or_0 m)) as [c |]; [| reflexivity].
  destruct (Currency._is_valid_amount c); reflexivity.
Qed.

Lemma fold_add_amount_In : forall ms acc x,
  In x (fold_left Currency.add_amount ms acc) <->
  In x acc \/ exists m c, In m ms /\ SpecTotal.validated m = Some c /\ x = Currency._format_amount c.
Proof.
  induction ms as [| m ms IH]; intros acc x; simpl.
  - split; [auto | intros [H | [m [c [[] _]]]]; assumption].
  - rewrite IH, add_amount_spec. split.
    + intros [H | [m' [c [Hm [Hv Hx]]]]].
      * destruct (SpecTotal.validated m) as [c |] eqn:Hv; [| now left].
        destruct (mem _ acc); [now left |].
        apply in_app_or in H as [H | [<- | []]]; [now left |].
        right. exists m, c. auto.
      * right. exists m', c. auto.
    + intros [H | [m' [c [[<- | Hm] [Hv Hx]]]]].
      * left. destruct (SpecTotal.validated m); [| assumption].
        destruct (mem _ acc); [assumption | apply in_or_app; now left].
      * left. rewrite Hv. destruct (mem _ acc) eqn:Hmem.
        -- apply mem_In in Hmem. now subst.
        -- subst. apply in_or_app. right. now left.
      * right. exists m', c. auto.
Qed.

Lemma fold_add_amount_NoDup : forall ms acc,
  NoDup acc -> NoDup (fold_left Currency.add_amount ms acc).
Proof.
  induction ms as [| m ms IH]; intros acc H; simpl; [assumption |].
  apply IH. rewrite add_amount_spec.
  destruct (SpecTotal.validated m) as [c |]; [| assumption].
  destruct (mem _ acc) eqn:Hmem; [assumption |].
  apply NoDup_app; [assumption | constructor; [easy | constructor] |].
  intros x Hx [<- | []]. apply mem_In in Hx. congruence.
Qed.

Lemma fold_patterns_In : forall (text_lower : str) ps acc x,
  In x (fold_left (fun amounts pattern =>
          fold_left Currency.add_amount (finditer pattern text_lower) amounts) ps acc) <->
  In x acc \/ exists m c, In m (flat_map (fun p => finditer p text_lower) ps)
                          /\ SpecTotal.validated m = Some c /\ x = Currency._format_amount c.
Proof.
  induction ps as [| p ps IH]; intros acc x; simpl.
  - split; [auto | intros [H | [m [c [[] _]]]]; assumption].
  - rewrite IH, fold_add_amount_In. split.
    + intros [[H | [m [c [Hm [Hv Hx]]]]] | [m [c [Hm [Hv Hx]]]]].
      * now left.
      * right. exists m, c. split; [apply in_or_app; now left | auto].
      * right. exists m, c. split; [apply in_or_app; now right | auto].
    + intros [H | [m [c [Hm [Hv Hx]]]]].
      * left. now left.
      * apply in_app_or in Hm as [Hm | Hm].
        -- left. right. exists m, c. auto.
        -- right. exists m, c. auto.
Qed.

Lemma fold_patterns_NoDup : forall (text_lower : str) ps acc,
  NoDup acc ->
  NoDup (fold_left (fun amounts pattern =>
          fold_left Currency.add_amount (finditer pattern text_lower) amounts) ps acc).
Proof.
  induction ps as [| p ps IH]; intros acc H; simpl; [assumption |].
  apply IH. now apply fold_add_amount_NoDup.
Qed.

Lemma find_all_amounts_In : forall self text x,
  In x (Currency._find_all_amounts self text) <->
  exists m c, In m (SpecTotal.amount_matches self text)
              /\ SpecTotal.validated m = Some c /\ x = Currency._format_amount c.
Proof.
  intros self text x. unfold Currency._find_all_amounts, SpecTotal.amount_matches.
  split.
  - intro H. eapply Permutation_in in H; [| apply sorted_desc_by_perm].
    apply fold_patterns_In in H as [[] | H]. exact H.
  - intro H. eapply Permutation_in; [apply Permutation_sym, sorted_desc_by_perm |].
    apply fold_patterns_In. now right.
Qed.

Lemma find_all_amounts_NoDup : forall self text,
  NoDup (Currency._find_all_amounts self text).
Proof.
  intros self text. unfold Currency._find_all_amounts.
  eapply Permutation_NoDup; [apply Permutation_sym, sorted_desc_by_perm |].
  apply fold_patterns_NoDup. constructor.
Qed.

Lemma format_amount_nonempty : forall c, Currency._format_amount c <> [].
Proof.
  intro c. unfold Currency._format_amount.
  destruct (Currency._amount_to_float c); discriminate.
Qed.

Lemma find_total_amount_In : forall self text all,
  all <> [] -> In (Currency._find_total_amount self text all) all.
Proof.
  intros self text all Hne. unfold Currency._find_total_amount.
  destruct all as [| a all']; [congruence |].
  destruct (first_some _ _) as [f |] eqn:Hf; [| now left].
  apply first_some_Some in Hf as [kw [_ Hkw]].
  unfold Currency.near_keyword in Hkw.
  assert (Hc : forall ms, first_some (Currency.total_candidate (a :: all')) ms = Some f ->
                          In f (a :: all')).
  { intros ms Hms. apply first_some_Some in Hms as [m [_ Hm]].
    unfold Currency.total_candidate in Hm.
    destruct (group1 m); [| discriminate].
    destruct (Currency._clean_amount _); [| discriminate].
    destruct (mem _ _) eqn:Hmem; [| discriminate].
    injection Hm as <-. now apply mem_In. }
  destruct (first_some _ (finditer (Currency.keyword_then_amount kw) _)) eqn:H1.
  - injection Hkw as ->. eapply Hc, H1.
  - eapply Hc, Hkw.
Qed.

Lemma other_amounts_list_In : forall all t x,
  In x (Currency.other_amounts_list all t) <-> In x all /\ x <> t.
Proof.
  intros all t x. unfold Currency.other_amounts_list. rewrite filter_In.
  split; intros [H1 H2]; split; try assumption.
  - intro E. subst. rewrite (proj2 (eqb_true t t) eq_refl) in H2. discriminate.
  - destruct (PyStr.eqb x t) eqn:E; [apply eqb_true in E; contradiction | reflexivity].
Qed.

(** Claim C10.  The total of [extract_amounts] is empty exactly when no
    capture of the amount patterns passes validation.  When one does, the
    total is not empty and is one of the formatted amounts of the list, which
    holds no amount twice; the list of the other amounts never holds the
    total, and [other_amounts] is that list joined. *)
Theorem total_empty_iff_no_valid_amount :
  forall (self : Currency.CurrencyExtractor) (text : str),
    let all_amounts := Currency._find_all_amounts self text in
    let result := Currency.extract_amounts self text in
    (Currency.total result = [] <->
       forall m, In m (SpecTotal.amount_matches self text) -> SpecTotal.validated m = None) /\
    ((exists m, In m (SpecTotal.amount_matches self text) /\ SpecTotal.validated m <> None) ->
       Currency.total result <> [] /\
       In (Currency.total result) all_amounts /\
       exists m c, In m (SpecTotal.amount_matches self text) /\ SpecTotal.validated m = Some c /\
                   Currency.total result = Currency._format_amount c) /\
    NoDup all_amounts /\
    ~ In (Currency.total result) (Currency.other_amounts_list all_amounts (Currency.total result)) /\
    Currency.other_amounts result =
      join (lit ", ") (Currency.other_amounts_list all_amounts (Currency.total result)).
Proof.
  intros self text all_amounts result.
  assert (Hempty : all_amounts = [] <->
            forall m, In m (SpecTotal.amount_matches self text) -> SpecTotal.validated m = None).
  { split.
    - intros E m Hm. destruct (SpecTotal.validated m) as [c |] eqn:Hv; [| reflexivity].
      assert (Hin : In (Currency._format_amount c) all_amounts)
        by (apply find_all_amounts_In; exists m, c; auto).
      rewrite E in Hin. destruct Hin.
    - intro H. destruct all_amounts as [| a l] eqn:E; [reflexivity |].
      assert (Hin : In a (Currency._find_all_amounts self text))
        by (fold all_amounts; rewrite E; now left).
      apply find_all_amounts_In in Hin as [m [c [Hm [Hv _]]]].
      rewrite (H m Hm) in Hv. discriminate. }
  assert (Htot : all_amounts <> [] ->
            In (Currency.total result) all_amounts)
    by (intro Hne; apply find_total_amount_In; exact Hne).
  assert (Hnonempty : all_amounts <> [] -> Currency.total result <> []).
  { intros Hne E. apply Htot in Hne. rewrite E in Hne.
    apply find_all_amounts_In in Hne as [m [c [_ [_ Hc]]]].
    symmetry in Hc. now apply format_amount_nonempty in Hc. }
  repeat split.
  - intro E. apply Hempty. destruct all_amounts eqn:Ea; [reflexivity |].
    exfalso. apply Hnonempty; [discriminate | exact E].
  - intro H. apply Hempty in H. unfold result, Currency.extract_amounts. simpl.
    fold all_amounts. rewrite H. reflexivity.
  - destruct H as [m [Hm Hv]]. apply Hnonempty. intro E.
    apply Hv. now apply Hempty.
  - destruct H as [m [Hm Hv]]. apply Htot. intro E. apply Hv. now apply Hempty.
  - destruct H as [m [Hm Hv]]. apply find_all_amounts_In, Htot.
    intro E. apply Hv. now apply Hempty.
  - apply find_all_amounts_NoDup.
  - intro H. apply other_amounts_list_In in H as [_ H]. now apply H.
Qed.

Lemma total_empty_iff_no_valid_amount_witness :
  Currency.total (Currency.extract_amounts Currency.init (lit "pay $5.00 or 1,200 USD")) <> [] /\
  In (Currency.total (Currency.extract_amounts Currency.init (lit "pay $5.00 or 1,200 USD")))
     (Currency._find_all_amounts Currency.init (lit "pay $5.00 or 1,200 USD")).
Proof.
  destruct (proj1 (proj2 (total_empty_iff_no_valid_amount Currency.init
                             (lit "pay $5.00 or 1,200 USD")))) as [H1 [H2 _]].
  - eexists. split; [vm_compute; left; reflexivity | vm_compute; discriminate].
  - split; assumption.
Defined.

(** *** The total on the example of the specification *)

(** Claim C1.  On the text of the specification the keyword total is found
    first inside the word subtotal: the total returned is $100.00, and
    $120.00 is left among the other amounts. *)
Theorem subtotal_is_taken_for_total :
  Currency.extract_amounts Currency.init (lit "Subtotal: $100.00 ... Total: $120.00")
  = {| Currency.total := lit "$100.00"; Currency.other_amounts := lit "$120.00" |}.
Proof. vm_compute. reflexivity. Qed.

Lemma total_keyword_example :
  Currency.extract_amounts Currency.init (lit "Items: $100.00 ... Grand Total: $120.00")
  = {| Currency.total := lit "$120.00"; Currency.other_amounts := lit "$100.00" |}.
Proof. vm_compute. reflexivity. Qed.

Lemma total_fallback_example :
  Currency.extract_amounts Currency.init (lit "5 EUR and 7 EUR")
  = {| Currency.total := lit "$7.00"; Currency.other_amounts := lit "$5.00" |}.
Proof. vm_compute. reflexivity. Qed.

(** ** Amounts: validation *)

(** [re.search] of a one-character class. *)
Lemma match_here_Chr : forall p sn rs,
  match_here (Chr p) sn rs <> None <->
  exists c rs', rs = c :: rs' /\ p c = true.
Proof.
  intros p sn rs. unfold match_here. simpl.
  destruct rs as [| c rs']; simpl.
  - split; [congruence | intros [c [rs' [H _]]]; discriminate].
  - destruct (p c) eqn:Hp; split.
    + intros _. exists c, rs'. auto.
    + discriminate.
    + congruence.
    + intros [c' [rs'' [H Hp']]]. injection H as <- <-. congruence.
Qed.

Lemma search_aux_Chr : forall p rs sn,
  search_aux (Chr p) sn rs <> None <-> existsb p rs = true.
Proof.
  induction rs as [| c rs IH]; intro sn.
  - simpl. split; [congruence | discriminate].
  - cbn [search_aux existsb].
    destruct (match_here (Chr p) sn (c :: rs)) eqn:Hm.
    + split; [intros _ | discriminate].
      assert (H : match_here (Chr p) sn (c :: rs) <> None) by congruence.
      apply match_here_Chr in H as [c' [rs' [E Hp]]]. injection E as <- <-.
      now rewrite Hp.
    + rewrite IH. destruct (p c) eqn:Hp; [| reflexivity].
      exfalso. assert (H : match_here (Chr p) sn (c :: rs) <> None)
        by (apply match_here_Chr; exists c, rs; auto).
      congruence.
Qed.

Lemma search_Chr : forall p s,
  Invoice.is_some (search (Chr p) s) = existsb p s.
Proof.
  intros p s. unfold search.
  destruct (search_aux (Chr p) [] s) eqn:E; simpl; symmetry.
  - apply (proj1 (search_aux_Chr p s [])). congruence.
  - apply not_true_is_false. intro H.
    apply (proj2 (search_aux_Chr p s [])) in H. congruence.
Qed.

Lemma has_digit_existsb : forall s, SpecAmount.has_digit s <-> existsb is_digit s = true.
Proof. intro s. unfold SpecAmount.has_digit. now rewrite existsb_exists. Qed.

Lemma decimal_points_cons : forall c s,
  SpecAmount.decimal_points (c :: s) =
  if SpecAmount.is_point c then S (SpecAmount.decimal_points s) else SpecAmount.decimal_points s.
Proof.
  intros c s. unfold SpecAmount.decimal_points. cbn [filter].
  destruct (SpecAmount.is_point c); reflexivity.
Qed.

Lemma contains_point : forall s,
  contains (lit ".") s = negb (Nat.eqb (SpecAmount.decimal_points s) 0).
Proof.
  induction s as [| c s IH]; [reflexivity |].
  change (contains (lit ".") (c :: s))
    with ((eqb_char "." c && true) || contains (lit ".") s).
  rewrite IH, decimal_points_cons, andb_true_r.
  replace (eqb_char "." c) with (SpecAmount.is_point c)
    by (unfold SpecAmount.is_point, eqb_char; apply Ascii.eqb_sym).
  destruct (SpecAmount.is_point c); reflexivity.
Qed.

Lemma split_on_aux_no_point : forall s cur,
  SpecAmount.decimal_points s = 0 -> split_on_aux "." cur s = [rev cur ++ s].
Proof.
  induction s as [| c s IH]; intros cur H.
  - cbn. now rewrite app_nil_r.
  - rewrite decimal_points_cons in H. cbn [split_on_aux].
    change (eqb_char c ".") with (SpecAmount.is_point c).
    destruct (SpecAmount.is_point c); [discriminate |].
    rewrite IH by assumption. cbn [rev]. now rewrite <- app_assoc.
Qed.

Lemma split_on_aux_length : forall s cur,
  length (split_on_aux "." cur s) = S (SpecAmount.decimal_points s).
Proof.
  induction s as [| c s IH]; intro cur; [reflexivity |].
  rewrite decimal_points_cons. cbn [split_on_aux].
  change (eqb_char c ".") with (SpecAmount.is_point c).
  destruct (SpecAmount.is_point c); cbn [length]; now rewrite IH.
Qed.

Lemma split_on_aux_nth1 : forall s cur,
  SpecAmount.decimal_points s = 1 ->
  nth 1 (split_on_aux "." cur s) [] = SpecAmount.fractional_part s.
Proof.
  induction s as [| c s IH]; intros cur H; [discriminate |].
  rewrite decimal_points_cons in H. cbn [split_on_aux SpecAmount.fractional_part].
  change (eqb_char c ".") with (SpecAmount.is_point c).
  destruct (SpecAmount.is_point c).
  - injection H as H. rewrite split_on_aux_no_point by assumption. reflexivity.
  - now apply IH.
Qed.

Lemma fractional_part_no_point : forall s,
  SpecAmount.decimal_points s = 0 -> SpecAmount.fractional_part s = [].
Proof.
  induction s as [| c s IH]; intro H; [reflexivity |].
  rewrite decimal_points_cons in H. cbn [SpecAmount.fractional_part].
  destruct (SpecAmount.is_point c); [discriminate | now apply IH].
Qed.

Lemma is_valid_amount_eq : forall s,
  Currency._is_valid_amount s =
  existsb is_digit s && (SpecAmount.decimal_points s <=? 1)
  && (length (SpecAmount.fractional_part s) <=? 2) && float_in_range s.
Proof.
  intro s. unfold Currency._is_valid_amount, float_in_range.
  destruct s as [| c0 s0]; [reflexivity |].
  set (s := c0 :: s0).
  pose proof (search_Chr is_digit s) as Hs.
  destruct (search (Chr is_digit) s); cbn [Invoice.is_some] in Hs; rewrite <- Hs;
    [| reflexivity].
  unfold split_on. rewrite split_on_aux_length, contains_point.
  destruct (SpecAmount.decimal_points s) as [| [| n]] eqn:Hn.
  - rewrite fractional_part_no_point by assumption. reflexivity.
  - rewrite split_on_aux_nth1 by assumption.
    destruct (Nat.ltb_spec 2 (length (SpecAmount.fractional_part s))) as [H | H].
    + rewrite (proj2 (Nat.leb_gt _ _) H). reflexivity.
    + rewrite (proj2 (Nat.leb_le _ _) H). reflexivity.
  - reflexivity.
Qed.

Lemma is_valid_amount_iff : forall s,
  Currency._is_valid_amount s = true <-> SpecAmount.valid_amount s.
Proof.
  intro s. rewrite is_valid_amount_eq. unfold SpecAmount.valid_amount, float_in_range.
  rewrite !andb_true_iff, has_digit_existsb, !Nat.leb_le.
  split.
  - intros [[[H1 H2] H3] H4]. repeat split; try assumption.
    destruct (Currency._amount_to_float s) as [v |]; [| discriminate].
    exists v. auto.
  - intros [H1 [H2 [H3 [v [Hv Hr]]]]]. rewrite Hv. auto.
Qed.

(** Facts on single characters are settled by running through the 256
    characters. *)
Ltac each_char c :=
  destruct c as [[] [] [] [] [] [] [] []]; vm_compute;
  repeat split; intros; try reflexivity; try discriminate; try congruence.

Lemma digit_comma_point_plain : forall c,
  Currency.digit_comma_point c = true ->
  Currency.is_currency_symbol c = false /\ is_space c = false.
Proof. intro c. each_char c. Qed.

Lemma comma_digit_kept : forall c,
  Currency.comma_digit c = true ->
  Currency.digit_comma_point c = true /\ SpecAmount.is_point c = false.
Proof. intro c. each_char c. Qed.

Lemma point_kept : forall c,
  SpecAmount.is_point c = true -> Currency.digit_comma_point c = true.
Proof. intro c. each_char c. Qed.

Lemma digit_kept : forall c,
  is_digit c = true -> Currency.digit_comma_point c = true.
Proof. intro c. each_char c. Qed.

Lemma filter_all : forall (A : Type) (p : A -> bool) l,
  forallb p l = true -> filter p l = l.
Proof.
  induction l as [| x l IH]; simpl; intro H; [reflexivity |].
  apply andb_true_iff in H as [Hx Hl]. rewrite Hx, IH; auto.
Qed.

(** [strip] leaves a string alone that has no white space at its ends. *)
Lemma lstrip_id : forall s,
  (forall c s', s = c :: s' -> is_space c = false) -> lstrip s = s.
Proof.
  intros [| c s] H; [reflexivity |].
  cbn [lstrip]. now rewrite (H c s eq_refl).
Qed.

Lemma strip_id : forall s,
  (forall c s', s = c :: s' -> is_space c = false) ->
  (forall c s', rev s = c :: s' -> is_space c = false) ->
  strip s = s.
Proof.
  intros s H1 H2. unfold strip, rstrip.
  rewrite (lstrip_id s H1), (lstrip_id (rev s) H2). apply rev_involutive.
Qed.

Lemma strip_all_nonspace : forall s,
  forallb (fun c => negb (is_space c)) s = true -> strip s = s.
Proof.
  intros s H. rewrite forallb_forall in H.
  apply strip_id; intros c s' E.
  - apply negb_true_iff, H. rewrite E. now left.
  - apply negb_true_iff, H, in_rev. rewrite E. now left.
Qed.

Lemma amount_shape_tail_kept : forall s,
  SpecAmount.amount_shape_tail s = true -> forallb Currency.digit_comma_point s = true.
Proof.
  induction s as [| c s IH]; [reflexivity |].
  cbn [SpecAmount.amount_shape_tail forallb]. intro H.
  destruct (Currency.comma_digit c) eqn:Hc.
  - rewrite (proj1 (comma_digit_kept c Hc)). now apply IH.
  - apply andb_true_iff in H as [Hp Hd]. rewrite (point_kept c Hp). simpl.
    rewrite forallb_forall in *. intros x Hx. now apply digit_kept, Hd.
Qed.

Lemma amount_shape_tail_fraction : forall s,
  SpecAmount.amount_shape_tail s = true ->
  forallb is_digit (SpecAmount.fractional_part s) = true.
Proof.
  induction s as [| c s IH]; [reflexivity |].
  cbn [SpecAmount.amount_shape_tail SpecAmount.fractional_part]. intro H.
  destruct (Currency.comma_digit c) eqn:Hc.
  - rewrite (proj2 (comma_digit_kept c Hc)). now apply IH.
  - apply andb_true_iff in H as [Hp Hd]. now rewrite Hp.
Qed.

Lemma amount_shape_clean : forall raw,
  SpecAmount.amount_shape raw = true ->
  Currency._clean_amount raw = Some raw /\
  forallb is_digit (SpecAmount.fractional_part raw) = true.
Proof.
  intros raw H.
  assert (Ht : SpecAmount.amount_shape_tail raw = true).
  { destruct raw as [| c s]; [discriminate |]. cbn [SpecAmount.amount_shape] in H.
    apply andb_true_iff in H as [Hc Hs]. cbn [SpecAmount.amount_shape_tail].
    now rewrite Hc. }
  split; [| now apply amount_shape_tail_fraction].
  pose proof (amount_shape_tail_kept raw Ht) as Hk.
  assert (Hsym : Currency.remove_symbols raw = raw).
  { apply filter_all. rewrite forallb_forall in *. intros c Hc.
    now rewrite (proj1 (digit_comma_point_plain c (Hk c Hc))). }
  assert (Hsp : strip raw = raw).
  { apply strip_all_nonspace. rewrite forallb_forall in *. intros c Hc.
    now rewrite (proj2 (digit_comma_point_plain c (Hk c Hc))). }
  destruct raw as [| c s]; [discriminate |].
  unfold Currency._clean_amount.
  rewrite Hsym, Hsp, (filter_all _ _ _ Hk). reflexivity.
Qed.

(** *** Rounding to binary64 keeps the bounds of the range *)

Module RoundingFacts.

Import Float64.

Local Open Scope Z_scope.

(** [n / d >= 2^k] as a proposition. *)
Lemma ge_pow2_true : forall n d k,
  ge_pow2 n d k = true <->
  (0 <= k /\ d * 2 ^ k <= n) \/ (k < 0 /\ d <= n * 2 ^ (- k)).
Proof.
  intros n d k. unfold ge_pow2. destruct (Z.leb_spec 0 k).
  - rewrite Z.leb_le. lia.
  - rewrite Z.leb_le. lia.
Qed.

Lemma pow2_pos : forall k, 0 < 2 ^ k \/ k < 0.
Proof. intro k. destruct (Z.lt_ge_cases k 0); [now right | left; now apply Z.pow_pos_nonneg]. Qed.

Lemma pow2_split : forall a b, 0 <= a -> 0 <= b -> 2 ^ (a + b) = 2 ^ a * 2 ^ b.
Proof. intros. now apply Z.pow_add_r. Qed.

Lemma ge_pow2_mono : forall n d k k',
  0 < n -> 0 < d -> k' <= k -> ge_pow2 n d k = true -> ge_pow2 n d k' = true.
Proof.
  intros n d k k' Hn Hd Hk H. apply ge_pow2_true in H. apply ge_pow2_true.
  destruct (Z.lt_ge_cases k' 0) as [Hk' | Hk']; [right | left]; split; try assumption.
  - destruct H as [[H0 H] | [H0 H]].
    + assert (0 < 2 ^ k) by (apply Z.pow_pos_nonneg; lia).
      assert (0 < 2 ^ (- k')) by (apply Z.pow_pos_nonneg; lia). nia.
    + replace (- k') with ((k - k') + (- k)) by lia.
      rewrite pow2_split by lia.
      assert (0 < 2 ^ (k - k')) by (apply Z.pow_pos_nonneg; lia).
      assert (0 < 2 ^ (- k)) by (apply Z.pow_pos_nonneg; lia). nia.
  - destruct H as [[H0 H] | [H0 H]]; [| lia].
    replace k with ((k - k') + k') in H by lia.
    rewrite pow2_split in H by lia.
    assert (0 < 2 ^ (k - k')) by (apply Z.pow_pos_nonneg; lia).
    assert (0 < 2 ^ k') by (apply Z.pow_pos_nonneg; lia). nia.
Qed.

Lemma ilog2_spec : forall n d,
  0 < n -> 0 < d ->
  ge_pow2 n d (ilog2 n d) = true /\ ge_pow2 n d (ilog2 n d + 1) = false.
Proof.
  intros n d Hn Hd.
  destruct (Z.log2_spec n Hn) as [Ha1 Ha2]. destruct (Z.log2_spec d Hd) as [Hb1 Hb2].
  pose proof (Z.log2_nonneg n) as Ha0. pose proof (Z.log2_nonneg d) as Hb0.
  set (a := Z.log2 n) in *. set (b := Z.log2 d) in *.
  assert (Hlo : ge_pow2 n d (a - b - 1) = true).
  { apply ge_pow2_true. destruct (Z.lt_ge_cases (a - b - 1) 0) as [H | H]; [right | left];
      split; try assumption.
    - replace (- (a - b - 1)) with (b + 1 - a) by lia.
      assert (E : 2 ^ (b + 1) = 2 ^ a * 2 ^ (b + 1 - a))
        by (rewrite <- pow2_split by lia; f_equal; lia).
      assert (0 < 2 ^ (b + 1 - a)) by (apply Z.pow_pos_nonneg; lia). nia.
    - assert (E : 2 ^ a = 2 ^ (b + 1) * 2 ^ (a - b - 1))
        by (rewrite <- pow2_split by lia; f_equal; lia).
      assert (0 < 2 ^ (a - b - 1)) by (apply Z.pow_pos_nonneg; lia). nia. }
  assert (Hhi : ge_pow2 n d (a - b + 1) = false).
  { apply not_true_is_false. intro H. apply ge_pow2_true in H.
    destruct H as [[H0 H] | [H0 H]].
    - assert (E : 2 ^ (a + 1) = 2 ^ b * 2 ^ (a - b + 1))
        by (rewrite <- pow2_split by lia; f_equal; lia).
      assert (0 < 2 ^ (a - b + 1)) by (apply Z.pow_pos_nonneg; lia). nia.
    - replace (- (a - b + 1)) with (b - a - 1) in H by lia.
      assert (E : 2 ^ b = 2 ^ (a + 1) * 2 ^ (b - a - 1))
        by (rewrite <- pow2_split by lia; f_equal; lia).
      assert (0 < 2 ^ (b - a - 1)) by (apply Z.pow_pos_nonneg; lia). nia. }
  unfold ilog2. fold a b. cbv zeta.
  destruct (ge_pow2 n d (a - b)) eqn:E.
  - split; [exact E | exact Hhi].
  - split; [exact Hlo |]. replace (a - b - 1 + 1) with (a - b) by lia. exact E.
Qed.

Lemma ilog2_ge : forall n d k,
  0 < n -> 0 < d -> ge_pow2 n d k = true -> k <= ilog2 n d.
Proof.
  intros n d k Hn Hd H. destruct (ilog2_spec n d Hn Hd) as [_ H2].
  destruct (Z.le_gt_cases k (ilog2 n d)) as [Hle | Hgt]; [assumption |].
  assert (ge_pow2 n d (ilog2 n d + 1) = true)
    by (apply (ge_pow2_mono n d k); try assumption; lia).
  congruence.
Qed.

Lemma ilog2_lt : forall n d k,
  0 < n -> 0 < d -> ge_pow2 n d k = false -> ilog2 n d < k.
Proof.
  intros n d k Hn Hd H. destruct (ilog2_spec n d Hn Hd) as [H1 _].
  destruct (Z.lt_ge_cases (ilog2 n d) k) as [Hlt | Hge]; [assumption |].
  assert (ge_pow2 n d k = true)
    by (apply (ge_pow2_mono n d (ilog2 n d)); try assumption; lia).
  congruence.
Qed.

Lemma rne_ge : forall num den t, 0 < den -> t * den <= num -> t <= rne num den.
Proof.
  intros num den t Hd H. unfold rne.
  assert (t <= num / den) by (apply Z.div_le_lower_bound; lia).
  destruct (2 * (num mod den) ?= den); [destruct (Z.even (num / den)) | |]; lia.
Qed.

Lemma rne_le : forall num den t, 0 < den -> num <= t * den -> rne num den <= t.
Proof.
  intros num den t Hd H. unfold rne.
  pose proof (Z.div_mod num den ltac:(lia)) as E.
  pose proof (Z.mod_pos_bound num den Hd) as Hr.
  assert (Hq : num / den <= t) by (apply Z.div_le_upper_bound; lia).
  destruct (Z.compare_spec (2 * (num mod den)) den) as [Hc | Hc | Hc].
  - assert (num / den < t) by nia. destruct (Z.even (num / den)); lia.
  - lia.
  - assert (num / den < t) by nia. lia.
Qed.

Lemma mantissa_lower : forall n d,
  0 < n -> 0 < d -> 2 ^ 52 <= mantissa n d (ilog2 n d - 52).
Proof.
  intros n d Hn Hd. destruct (ilog2_spec n d Hn Hd) as [H _].
  apply ge_pow2_true in H. set (k := ilog2 n d) in *. unfold mantissa.
  destruct (Z.leb_spec 0 (k - 52)) as [He | He].
  - assert (Hp1 : 0 < 2 ^ (k - 52)) by (apply Z.pow_pos_nonneg; lia).
    apply rne_ge; [nia |].
    destruct H as [[_ H] | [H0 _]]; [| lia].
    replace k with (52 + (k - 52)) in H by lia. rewrite pow2_split in H by lia. lia.
  - apply rne_ge; [assumption |].
    destruct H as [[H0 H] | [H0 H]].
    + replace (- (k - 52)) with (52 - k) by lia.
      assert (E : 2 ^ 52 = 2 ^ k * 2 ^ (52 - k))
        by (rewrite <- pow2_split by lia; f_equal; lia).
      assert (Hp2 : 0 < 2 ^ (52 - k)) by (apply Z.pow_pos_nonneg; lia). nia.
    + replace (- (k - 52)) with (- k + 52) by lia. rewrite pow2_split by lia.
      assert (Hp3 : 0 < 2 ^ 52) by reflexivity. nia.
Qed.

Lemma mantissa_upper : forall n d,
  0 < n -> 0 < d -> mantissa n d (ilog2 n d - 52) <= 2 ^ 53.
Proof.
  intros n d Hn Hd. destruct (ilog2_spec n d Hn Hd) as [_ H].
  set (k := ilog2 n d) in *. unfold mantissa.
  assert (Hk : (0 <= k + 1 -> n < d * 2 ^ (k + 1)) /\
               (k + 1 < 0 -> n * 2 ^ (- (k + 1)) < d)).
  { split; intro H0.
    - destruct (Z.lt_ge_cases n (d * 2 ^ (k + 1))); [assumption |].
      assert (ge_pow2 n d (k + 1) = true) by (apply ge_pow2_true; left; lia). congruence.
    - destruct (Z.lt_ge_cases (n * 2 ^ (- (k + 1))) d); [assumption |].
      assert (ge_pow2 n d (k + 1) = true) by (apply ge_pow2_true; right; lia). congruence. }
  destruct Hk as [Hk1 Hk2].
  destruct (Z.leb_spec 0 (k - 52)) as [He | He].
  - assert (Hp4 : 0 < 2 ^ (k - 52)) by (apply Z.pow_pos_nonneg; lia).
    apply rne_le; [nia |].
    specialize (Hk1 ltac:(lia)).
    replace (k + 1) with (53 + (k - 52)) in Hk1 by lia.
    rewrite pow2_split in Hk1 by lia. lia.
  - apply rne_le; [assumption |].
    destruct (Z.lt_ge_cases (k + 1) 0) as [H0 | H0].
    + specialize (Hk2 H0).
      replace (- (k - 52)) with (- (k + 1) + 53) by lia. rewrite pow2_split by lia.
      assert (Hp5 : 0 < 2 ^ 53) by reflexivity. nia.
    + specialize (Hk1 H0).
      replace (- (k - 52)) with (52 - k) by lia.
      assert (E : 2 ^ 53 = 2 ^ (k + 1) * 2 ^ (52 - k))
        by (rewrite <- pow2_split by lia; f_equal; lia).
      assert (Hp6 : 0 < 2 ^ (52 - k)) by (apply Z.pow_pos_nonneg; lia). nia.
Qed.

(** [round] on a fraction that is no subnormal number. *)
Lemma round_normal : forall n d,
  0 < n -> 0 < d -> -1022 <= ilog2 n d ->
  let e := ilog2 n d - 52 in
  let m := mantissa n d e in
  round n d = (if (971 <? e) || ((e =? 971) && (2 ^ 53 <=? m)) then Inf else Fin m e).
Proof.
  intros n d Hn Hd Hk e m. unfold round.
  rewrite (proj2 (Z.eqb_neq n 0)) by lia. cbv zeta.
  rewrite Z.max_l by lia. reflexivity.
Qed.

Lemma literal_low : literal "0.01" = Fin 5764607523034235 (-59).
Proof. vm_compute. reflexivity. Qed.

Lemma literal_high : literal "999999999.99" = Fin 8388607999916114 (-23).
Proof. vm_compute. reflexivity. Qed.

Lemma pow2_ge_2 : forall x, 1 <= x -> 2 <= 2 ^ x.
Proof. intros x H. change 2 with (2 ^ 1) at 1. apply Z.pow_le_mono_r; lia. Qed.

Lemma leb_low : forall m e,
  2 ^ 52 <= m -> -58 <= e -> leb (Fin 5764607523034235 (-59)) (Fin m e) = true.
Proof.
  intros m e Hm He. unfold leb. rewrite Z.min_l by lia.
  apply Z.leb_le. replace (-59 - -59) with 0 by lia.
  pose proof (pow2_ge_2 (e - -59) ltac:(lia)) as Hp.
  change (2 ^ 52) with 4503599627370496 in Hm. change (2 ^ 0) with 1. nia.
Qed.

Lemma leb_high_small : forall m e,
  0 <= m <= 2 ^ 53 -> e <= -24 -> leb (Fin m e) (Fin 8388607999916114 (-23)) = true.
Proof.
  intros m e Hm He. unfold leb. rewrite Z.min_l by lia.
  apply Z.leb_le. replace (e - e) with 0 by lia.
  pose proof (pow2_ge_2 (-23 - e) ltac:(lia)) as Hp.
  change (2 ^ 53) with 9007199254740992 in Hm. change (2 ^ 0) with 1. nia.
Qed.

Lemma leb_high_big : forall m e,
  2 ^ 52 <= m -> -22 <= e -> leb (Fin m e) (Fin 8388607999916114 (-23)) = false.
Proof.
  intros m e Hm He. unfold leb. rewrite Z.min_r by lia.
  apply Z.leb_gt. replace (-23 - -23) with 0 by lia.
  pose proof (pow2_ge_2 (e - -23) ltac:(lia)) as Hp.
  change (2 ^ 52) with 4503599627370496 in Hm. change (2 ^ 0) with 1. nia.
Qed.

Lemma leb_high_same : forall m,
  leb (Fin m (-23)) (Fin 8388607999916114 (-23)) = (m <=? 8388607999916114).
Proof.
  intro m. unfold leb. rewrite Z.min_l by lia.
  replace (-23 - -23) with 0 by lia. change (2 ^ 0) with 1. now rewrite !Z.mul_1_r.
Qed.

(** Rounding to binary64 does not move a decimal amount across the bounds
    of the range: a fraction with denominator 1, 10 or 100 is in the range
    exactly when it lies between 1/100 and 99999999999/100. *)
Lemma round_in_range : forall n d,
  0 <= n -> decimal_scale d ->
  (Currency.in_range (round n d) = true <->
   d <= 100 * n /\ 100 * n <= 99999999999 * d).
Proof.
  intros n d Hn Hd. unfold Currency.in_range. rewrite literal_low, literal_high.
  assert (Hdpos : 0 < d) by (destruct Hd as [-> | [-> | ->]]; lia).
  destruct (Z.eq_dec n 0) as [-> | Hn0].
  - unfold round. cbn [Z.eqb]. split; [discriminate | lia].
  - assert (Hnpos : 0 < n) by lia.
    destruct (ge_pow2 n d 30) eqn:H30.
    + (* at least 2^30 *)
      pose proof (ilog2_ge n d 30 Hnpos Hdpos H30) as Hk.
      apply ge_pow2_true in H30. change (2 ^ 30) with 1073741824 in H30.
      rewrite (round_normal n d Hnpos Hdpos ltac:(lia)). cbv zeta.
      pose proof (mantissa_lower n d Hnpos Hdpos) as Hm.
      split; [| lia]. intro H. exfalso.
      destruct ((971 <? ilog2 n d - 52) || _); [discriminate |].
      rewrite leb_high_big in H by (assumption || lia).
      now rewrite andb_false_r in H.
    + destruct (ge_pow2 n d 29) eqn:H29.
      * (* between 2^29 and 2^30 *)
        pose proof (ilog2_ge n d 29 Hnpos Hdpos H29) as Hk1.
        pose proof (ilog2_lt n d 30 Hnpos Hdpos H30) as Hk2.
        assert (Hk : ilog2 n d = 29) by lia.
        apply ge_pow2_true in H29. change (2 ^ 29) with 536870912 in H29.
        rewrite (round_normal n d Hnpos Hdpos ltac:(lia)). cbv zeta.
        pose proof (mantissa_lower n d Hnpos Hdpos) as Hm.
        rewrite Hk in *. change (29 - 52) with (-23) in *.
        change ((971 <? -23) || ((-23 =? 971) && (2 ^ 53 <=? mantissa n d (-23))))
          with false. cbv iota.
        rewrite leb_low by (assumption || lia). rewrite leb_high_same. cbn [andb].
        unfold mantissa. change (0 <=? -23) with false. cbv iota.
        change (- -23) with 23. change (2 ^ 23) with 8388608.
        rewrite Z.leb_le. split.
        -- intro H. split; [lia |].
           destruct (Z.le_gt_cases (100 * n) (99999999999 * d)) as [Hle | Hgt];
             [assumption | exfalso].
           assert (Hbig : 1000000000 * d <= n)
             by (destruct Hd as [-> | [-> | ->]]; lia).
           pose proof (rne_ge (n * 8388608) d 8388608000000000 Hdpos ltac:(lia)). lia.
        -- intros [_ H]. apply rne_le; [assumption | lia].
      * destruct (ge_pow2 n d (-6)) eqn:H6.
        -- (* between 2^-6 and 2^29 *)
           pose proof (ilog2_ge n d (-6) Hnpos Hdpos H6) as Hk1.
           pose proof (ilog2_lt n d 29 Hnpos Hdpos H29) as Hk2.
           apply ge_pow2_true in H6. change (2 ^ (- -6)) with 64 in H6.
           assert (H29' : n < d * 536870912).
           { destruct (Z.lt_ge_cases n (d * 536870912)); [assumption |].
             assert (ge_pow2 n d 29 = true) by (apply ge_pow2_true; left; split; [lia |];
               change (2 ^ 29) with 536870912; lia). congruence. }
           rewrite (round_normal n d Hnpos Hdpos ltac:(lia)). cbv zeta.
           pose proof (mantissa_lower n d Hnpos Hdpos) as Hm1.
           pose proof (mantissa_upper n d Hnpos Hdpos) as Hm2.
           rewrite (proj2 (Z.ltb_ge 971 (ilog2 n d - 52))) by lia.
           rewrite (proj2 (Z.eqb_neq (ilog2 n d - 52) 971)) by lia. cbn [orb andb].
           rewrite leb_low by (assumption || lia).
           rewrite leb_high_small; [| change (2 ^ 52) with 4503599627370496 in Hm1; lia | lia].
           split; [intros _; lia | reflexivity].
        -- (* below 2^-6: one hundredth alone *)
           assert (H6' : d > 64 * n).
           { destruct (Z.le_gt_cases d (64 * n)); [| lia].
             assert (ge_pow2 n d (-6) = true)
               by (apply ge_pow2_true; right; split; [lia |];
                   change (2 ^ (- -6)) with 64; lia). congruence. }
           assert (d = 100 /\ n = 1) as [-> ->]
             by (destruct Hd as [-> | [-> | ->]]; lia).
           split; [intros _; lia | intros _; vm_compute; reflexivity].
Qed.

End RoundingFacts.

(** *** The float of a cleaned string and its decimal value *)

Module DecimalFacts.

Import Float64 RoundingFacts.

Lemma split_on_aux_one_point : forall s cur,
  SpecAmount.decimal_points s = 1 ->
  split_on_aux "." cur s = [rev cur ++ SpecAmount.integer_part s; SpecAmount.fractional_part s].
Proof.
  induction s as [| c s IH]; intros cur H; [discriminate |].
  rewrite decimal_points_cons in H.
  cbn [split_on_aux SpecAmount.integer_part SpecAmount.fractional_part].
  change (eqb_char c ".") with (SpecAmount.is_point c).
  destruct (SpecAmount.is_point c).
  - injection H as H. rewrite split_on_aux_no_point by assumption.
    now rewrite app_nil_r.
  - rewrite IH by assumption. cbn [rev]. now rewrite <- app_assoc.
Qed.

Lemma parts_of_one_point : forall s,
  SpecAmount.decimal_points s = 1 ->
  SpecAmount.decimal_points (SpecAmount.fractional_part s) = 0 /\
  filter is_digit s = filter is_digit (SpecAmount.integer_part s)
                      ++ filter is_digit (SpecAmount.fractional_part s) /\
  forallb is_digit (filter SpecAmount.digit_or_point (SpecAmount.integer_part s)) = true.
Proof.
  induction s as [| c s IH]; intro H; [discriminate |].
  rewrite decimal_points_cons in H.
  cbn [SpecAmount.integer_part SpecAmount.fractional_part filter].
  destruct (SpecAmount.is_point c) eqn:Hp.
  - injection H as H. split; [assumption |]. split; [| reflexivity].
    replace (is_digit c) with false; [reflexivity |].
    clear - Hp. revert Hp. each_char c.
  - destruct (IH H) as [H1 [H2 H3]]. split; [assumption |]. split.
    + cbn [filter]. destruct (is_digit c); [cbn [app]; now rewrite H2 | assumption].
    + cbn [filter]. unfold SpecAmount.digit_or_point at 1. rewrite Hp, orb_false_r.
      destruct (is_digit c) eqn:Hd; [cbn [forallb]; now rewrite Hd | assumption].
Qed.

Lemma digit_value_bounds : forall c, is_digit c = true -> (0 <= digit_value c <= 9)%Z.
Proof. intro c. each_char c; lia. Qed.

Lemma digits_value_nonneg : forall ds,
  forallb is_digit ds = true -> (0 <= digits_value ds)%Z.
Proof.
  intro ds. unfold digits_value.
  assert (G : forall acc, (0 <= acc)%Z -> forallb is_digit ds = true ->
              (0 <= fold_left (fun acc c => 10 * acc + digit_value c) ds acc)%Z).
  { induction ds as [| c ds IH]; intros acc Ha H; [exact Ha |].
    cbn [forallb] in H. apply andb_true_iff in H as [Hc Hds].
    cbn [fold_left]. apply IH; [| exact Hds].
    pose proof (digit_value_bounds c Hc). lia. }
  apply G. lia.
Qed.

Lemma filter_filter_sub : forall (A : Type) (p q : A -> bool) l,
  (forall x, p x = true -> q x = true) -> filter p (filter q l) = filter p l.
Proof.
  intros A p q l H. induction l as [| x l IH]; [reflexivity |]. cbn [filter].
  destruct (q x) eqn:Hq; cbn [filter].
  - now rewrite IH.
  - destruct (p x) eqn:Hp; [| exact IH]. rewrite (H x Hp) in Hq. discriminate.
Qed.

Lemma comma_removed : forall s,
  forallb Currency.digit_comma_point s = true ->
  remove_char "," s = filter SpecAmount.digit_or_point s.
Proof.
  unfold remove_char. induction s as [| c s IH]; intro H; [reflexivity |].
  cbn [forallb] in H. apply andb_true_iff in H as [Hc Hs]. cbn [filter].
  rewrite (IH Hs).
  replace (negb (eqb_char c ",")) with (SpecAmount.digit_or_point c); [reflexivity |].
  clear - Hc. revert Hc. each_char c.
Qed.

Lemma point_is_kept : forall c, SpecAmount.is_point c = true -> SpecAmount.digit_or_point c = true.
Proof. intros c H. unfold SpecAmount.digit_or_point. rewrite H. apply orb_true_r. Qed.

Lemma digit_is_kept : forall c, is_digit c = true -> SpecAmount.digit_or_point c = true.
Proof. intros c H. unfold SpecAmount.digit_or_point. now rewrite H. Qed.

Lemma fractional_part_filter : forall s,
  SpecAmount.fractional_part (filter SpecAmount.digit_or_point s) =
  filter SpecAmount.digit_or_point (SpecAmount.fractional_part s).
Proof.
  induction s as [| c s IH]; [reflexivity |].
  cbn [filter SpecAmount.fractional_part].
  destruct (SpecAmount.is_point c) eqn:Hp.
  - rewrite (point_is_kept c Hp). cbn [SpecAmount.fractional_part]. now rewrite Hp.
  - destruct (SpecAmount.digit_or_point c); [cbn [SpecAmount.fractional_part]; now rewrite Hp | exact IH].
Qed.

Lemma integer_part_filter : forall s,
  SpecAmount.integer_part (filter SpecAmount.digit_or_point s) = filter SpecAmount.digit_or_point (SpecAmount.integer_part s).
Proof.
  induction s as [| c s IH]; [reflexivity |].
  cbn [filter SpecAmount.integer_part].
  destruct (SpecAmount.is_point c) eqn:Hp.
  - rewrite (point_is_kept c Hp). cbn [SpecAmount.integer_part]. now rewrite Hp.
  - destruct (SpecAmount.digit_or_point c) eqn:Hk.
    + cbn [SpecAmount.integer_part filter]. now rewrite Hp, Hk, IH.
    + cbn [filter]. now rewrite Hk.
Qed.

Lemma no_point_digits : forall s,
  SpecAmount.decimal_points s = 0 -> filter SpecAmount.digit_or_point s = filter is_digit s.
Proof.
  induction s as [| c s IH]; intro H; [reflexivity |].
  rewrite decimal_points_cons in H. cbn [filter]. unfold SpecAmount.digit_or_point at 1.
  destruct (SpecAmount.is_point c); [discriminate |].
  rewrite orb_false_r, (IH H). reflexivity.
Qed.

Lemma forallb_filter : forall (A : Type) (p : A -> bool) l, forallb p (filter p l) = true.
Proof.
  intros A p l. induction l as [| x l IH]; [reflexivity |]. cbn [filter].
  destruct (p x) eqn:Hp; [cbn [forallb]; now rewrite Hp | exact IH].
Qed.

Lemma existsb_filter_nonempty : forall (A : Type) (p : A -> bool) l,
  existsb p l = true -> length (filter p l) <> 0%nat.
Proof.
  intros A p l. induction l as [| x l IH]; [discriminate |]. cbn [existsb filter].
  destruct (p x); [discriminate | exact IH].
Qed.

Lemma filter_length_le : forall (A : Type) (p : A -> bool) l,
  (length (filter p l) <= length l)%nat.
Proof.
  intros A p l. induction l as [| x l IH]; [apply Nat.le_refl |]. cbn [filter].
  destruct (p x); cbn [length]; lia.
Qed.

(** The float of a valid-looking cleaned string is the rounding of its
    decimal value. *)
Lemma amount_to_float_value : forall s,
  forallb Currency.digit_comma_point s = true ->
  existsb is_digit s = true ->
  (SpecAmount.decimal_points s <= 1)%nat ->
  (length (SpecAmount.fractional_part s) <= 2)%nat ->
  exists n d, Currency._amount_to_float s = Some (round n d) /\
              (0 <= n)%Z /\ decimal_scale d /\ (SpecAmount.cents s * d = 100 * n)%Z.
Proof.
  intros s Hclean Hdigit Hpoints Hfrac.
  assert (Hfloat : Currency._amount_to_float s = of_string (filter SpecAmount.digit_or_point s)).
  { unfold Currency._amount_to_float. destruct s as [| c s']; [discriminate |].
    assert (E : Currency.remove_symbols (c :: s') = c :: s').
    { apply filter_all. rewrite forallb_forall in *. intros x Hx.
      now rewrite (proj1 (digit_comma_point_plain x (Hclean x Hx))). }
    rewrite E. now rewrite comma_removed. }
  rewrite Hfloat. set (t := filter SpecAmount.digit_or_point s).
  assert (Hpt : SpecAmount.decimal_points t = SpecAmount.decimal_points s).
  { unfold SpecAmount.decimal_points, t. f_equal.
    apply filter_filter_sub, point_is_kept. }
  assert (Hdt : filter is_digit t = filter is_digit s)
    by (apply filter_filter_sub, digit_is_kept).
  pose proof (existsb_filter_nonempty _ _ _ Hdigit) as Hne.
  unfold of_string, split_on.
  destruct (SpecAmount.decimal_points s) as [| [| k]] eqn:Hk; [| | lia].
  - (* no point *)
    rewrite split_on_aux_no_point by assumption. cbn [rev app].
    assert (Et : t = filter is_digit s) by (apply no_point_digits; assumption).
    rewrite Et, forallb_filter.
    rewrite (proj2 (Nat.eqb_neq _ 0) Hne). cbn [negb andb].
    exists (digits_value (filter is_digit s)), 1%Z.
    split; [reflexivity |]. split; [apply digits_value_nonneg, forallb_filter |].
    split; [now left |]. unfold SpecAmount.cents.
    rewrite (fractional_part_no_point s Hk). cbn [filter length].
    change (10 ^ (2 - Z.of_nat 0))%Z with 100%Z. lia.
  - (* one point *)
    rewrite split_on_aux_one_point by assumption. cbn [rev app].
    destruct (parts_of_one_point s Hk) as [H1 [H2 H3]].
    set (ip := SpecAmount.integer_part t). set (fp := SpecAmount.fractional_part t).
    assert (Eip : ip = filter SpecAmount.digit_or_point (SpecAmount.integer_part s))
      by apply integer_part_filter.
    assert (Efp : fp = filter is_digit (SpecAmount.fractional_part s)).
    { unfold fp, t. rewrite fractional_part_filter. now apply no_point_digits. }
    assert (Hip : forallb is_digit ip = true) by (rewrite Eip; exact H3).
    assert (Hfp : forallb is_digit fp = true) by (rewrite Efp; apply forallb_filter).
    assert (Eall : ip ++ fp = filter is_digit s).
    { destruct (parts_of_one_point t ltac:(lia)) as [_ [G _]].
      rewrite <- Hdt, G. fold ip fp.
      now rewrite (filter_all _ _ _ Hip), (filter_all _ _ _ Hfp). }
    rewrite forallb_app, Hip, Hfp, Eall.
    rewrite (proj2 (Nat.eqb_neq _ 0) Hne). cbn [negb andb].
    exists (digits_value (filter is_digit s)), (10 ^ Z.of_nat (length fp))%Z.
    split; [reflexivity |]. split; [apply digits_value_nonneg, forallb_filter |].
    assert (Hlen : (length fp <= 2)%nat).
    { rewrite Efp. eapply Nat.le_trans; [apply filter_length_le | exact Hfrac]. }
    unfold SpecAmount.cents. rewrite <- Efp.
    destruct (length fp) as [| [| [| n]]]; [| | | lia].
    + split; [now left | change (10 ^ Z.of_nat 0)%Z with 1%Z;
                         change (10 ^ (2 - Z.of_nat 0))%Z with 100%Z; lia].
    + split; [right; now left | change (10 ^ Z.of_nat 1)%Z with 10%Z;
                                change (10 ^ (2 - Z.of_nat 1))%Z with 10%Z; lia].
    + split; [right; now right | change (10 ^ Z.of_nat 2)%Z with 100%Z;
                                 change (10 ^ (2 - Z.of_nat 2))%Z with 1%Z; lia].
Qed.

(** The range of the amounts, in hundredths. *)
Lemma float_in_range_cents : forall s,
  forallb Currency.digit_comma_point s = true ->
  existsb is_digit s = true ->
  (SpecAmount.decimal_points s <= 1)%nat ->
  (length (SpecAmount.fractional_part s) <= 2)%nat ->
  (float_in_range s = true <-> (1 <= SpecAmount.cents s <= 99999999999)%Z).
Proof.
  intros s H1 H2 H3 H4.
  destruct (amount_to_float_value s H1 H2 H3 H4) as [n [d [E [Hn [Hd Hc]]]]].
  unfold float_in_range. rewrite E, (round_in_range n d Hn Hd).
  assert (0 < d)%Z by (destruct Hd as [-> | [-> | ->]]; lia). nia.
Qed.

Lemma clean_amount_kept : forall raw cleaned,
  Currency._clean_amount raw = Some cleaned ->
  forallb Currency.digit_comma_point cleaned = true.
Proof.
  intros raw cleaned H. unfold Currency._clean_amount in H.
  destruct raw as [| c r]; [discriminate |].
  destruct (filter Currency.digit_comma_point _) as [| x l] eqn:E; [discriminate |].
  injection H as <-. rewrite <- E. apply forallb_filter.
Qed.

Lemma is_valid_amount_decimal : forall s,
  forallb Currency.digit_comma_point s = true ->
  (Currency._is_valid_amount s = true <-> SpecAmount.valid_amount_decimal s).
Proof.
  intros s Hclean. rewrite is_valid_amount_eq. unfold SpecAmount.valid_amount_decimal.
  rewrite !andb_true_iff, has_digit_existsb, !Nat.leb_le. split.
  - intros [[[H1 H2] H3] H4]. repeat split; try assumption;
      apply (float_in_range_cents s Hclean H1 H2 H3); assumption.
  - intros [H1 [H2 [H3 H4]]]. repeat split; try assumption.
    now apply (float_in_range_cents s Hclean H1 H2 H3).
Qed.

End DecimalFacts.

(** Claim C7.  A cleaned amount string is accepted exactly when it holds a
    digit, has at most one decimal point, has at most 2 characters after the
    point, and its float lies between 0.01 and 999999999.99, both included;
    the rounding to a float does not move an amount across these bounds, so
    that the last condition is that the amount, in hundredths, lies between
    1 and 99999999999.  For the strings the amount patterns capture,
    cleaning changes nothing and what follows the point is made of digits.
    The four amounts at the bounds: 0.00 and 1000000000.00 are rejected,
    0.01 and 999999999.99 are accepted. *)
Theorem amount_validation :
  (forall raw cleaned : str,
     Currency._clean_amount raw = Some cleaned ->
     (Currency._is_valid_amount cleaned = true <-> SpecAmount.valid_amount cleaned) /\
     (Currency._is_valid_amount cleaned = true <-> SpecAmount.valid_amount_decimal cleaned) /\
     (SpecAmount.amount_shape raw = true ->
        cleaned = raw /\ forallb is_digit (SpecAmount.fractional_part cleaned) = true)) /\
  option_map Currency._is_valid_amount (Currency._clean_amount (lit "$0.00")) = Some false /\
  option_map Currency._is_valid_amount (Currency._clean_amount (lit "$1000000000.00")) = Some false /\
  option_map Currency._is_valid_amount (Currency._clean_amount (lit "$0.01")) = Some true /\
  option_map Currency._is_valid_amount (Currency._clean_amount (lit "$999999999.99")) = Some true.
Proof.
  split; [| repeat split; vm_compute; reflexivity].
  intros raw cleaned Hc. split; [| split].
  - apply is_valid_amount_iff.
  - apply DecimalFacts.is_valid_amount_decimal. eapply DecimalFacts.clean_amount_kept, Hc.
  - intro Hs. destruct (amount_shape_clean raw Hs) as [Hr Hd].
    rewrite Hr in Hc. injection Hc as <-. auto.
Qed.

Lemma amount_validation_witness :
  (Currency._is_valid_amount (lit "1,234.50") = true <-> SpecAmount.valid_amount_decimal (lit "1,234.50")) /\
  SpecAmount.cents (lit "1,234.50") = 123450%Z /\
  forallb is_digit (SpecAmount.fractional_part (lit "1,234.50")) = true.
Proof.
  destruct (proj1 amount_validation (lit "1,234.50") (lit "1,234.50")) as [_ [H1 H2]].
  - vm_compute. reflexivity.
  - split; [exact H1 |]. split; [vm_compute; reflexivity |].
    apply H2. vm_compute. reflexivity.
Defined.

(** ** Invoice numbers: the validity of a candidate *)

Lemma iter_chr_greedy : forall p lo hi (k : cont) fuel cnt sn rs g,
  length rs <= fuel -> cnt <= hi ->
  (iter (run (Chr p)) true lo (Some hi) fuel cnt (MState sn rs g) k <> None <->
   exists j, j <= length rs /\ forallb p (firstn j rs) = true /\
             lo <= cnt + j /\ cnt + j <= hi /\ k (advance j sn rs g) <> None).
Proof.
  intros p lo hi k. induction fuel as [| f IH]; intros cnt sn rs g Hf Hc.
  - destruct rs; [| simpl in Hf; lia]. cbn [iter].
    destruct (Nat.leb_spec lo cnt) as [Hlo | Hlo].
    + split.
      * intro H. exists 0. repeat split; try lia; auto.
      * intros [j [Hj [_ [_ [_ Hk]]]]]. assert (j = 0) by (simpl in Hj; lia). now subst.
    + split; [congruence |]. intros [j [Hj [_ [Hl _]]]]. simpl in Hj. lia.
  - cbn [iter]. cbv zeta.
    set (more := if below cnt (Some hi) then _ else None).
    set (stop := if lo <=? cnt then k (MState sn rs g) else None).
    assert (Hstop : stop <> None <-> lo <= cnt /\ k (advance 0 sn rs g) <> None).
    { unfold stop, advance. cbn [firstn skipn rev app].
      destruct (Nat.leb_spec lo cnt) as [Hlo | Hlo]; split; intro H.
      - split; assumption.
      - apply H.
      - congruence.
      - destruct H; lia. }
    assert (Hmore : more <> None <->
              exists c rs', rs = c :: rs' /\ p c = true /\ cnt < hi /\
                iter (run (Chr p)) true lo (Some hi) f (S cnt) (MState (c :: sn) rs' g) k <> None).
    { unfold more, below. destruct (Nat.ltb_spec cnt hi) as [Hlt | Hge].
      - cbn [run rest seen grp]. destruct rs as [| c rs'].
        + split; [congruence | intros [c [rs' [E _]]]; discriminate].
        + destruct (p c) eqn:Hp.
          * cbn [rest length]. rewrite (proj2 (Nat.ltb_lt _ _) (Nat.lt_succ_diag_r _)).
            split.
            -- intro H. exists c, rs'. auto.
            -- intros [c' [rs'' [E [_ [_ H]]]]]. injection E as <- <-. exact H.
          * split; [congruence |]. intros [c' [rs'' [E [Hp' _]]]].
            injection E as <- <-. congruence.
      - split; [congruence | intros [c [rs' [_ [_ [H _]]]]]; lia]. }
    assert (Hres : match more with Some r => Some r | None => stop end <> None <->
                   more <> None \/ stop <> None).
    { destruct more; intuition congruence. }
    fold more. rewrite Hres, Hmore, Hstop. split.
    + intros [[c [rs' [E [Hp [Hlt H]]]]] | [Hlo Hk]].
      * subst rs. apply IH in H; [| simpl in Hf; lia | lia].
        destruct H as [j [Hj [Hall [Hl [Hh Hk]]]]].
        exists (S j). cbn [firstn forallb length]. rewrite Hp, Hall.
        repeat split; try lia.
        unfold advance in *. cbn [firstn skipn rev]. rewrite <- app_assoc. exact Hk.
      * exists 0. repeat split; try lia; auto.
    + intros [j [Hj [Hall [Hl [Hh Hk]]]]]. destruct j as [| j].
      * right. split; [lia | exact Hk].
      * left. destruct rs as [| c rs']; [simpl in Hj; lia |].
        cbn [firstn forallb] in Hall. apply andb_true_iff in Hall as [Hp Hall].
        exists c, rs'. repeat split; try assumption; try lia.
        apply IH; [simpl in Hf; lia | lia |].
        exists j. simpl in Hj. repeat split; try lia; try assumption.
        unfold advance in *. cbn [firstn skipn rev] in Hk. rewrite <- app_assoc in Hk.
        exact Hk.
Qed.

Lemma is_some_true : forall (A : Type) (o : option A),
  Invoice.is_some o = true <-> o <> None.
Proof. intros A [a |]; simpl; split; congruence. Qed.

Lemma match_here_is_some : forall r sn rs,
  Invoice.is_some (match_here r sn rs) = true <->
  run r (MState sn rs None) Some <> None.
Proof.
  intros r sn rs. rewrite is_some_true. unfold match_here.
  destruct (run r (MState sn rs None) Some); split; congruence.
Qed.

Lemma ci_class : forall c,
  ci Invoice.alnum_dash_underscore c = SpecInvoice.class_char c.
Proof. intro c. each_char c. Qed.

Lemma ci_upper : forall c, ci is_upper c = is_alpha c.
Proof. intro c. each_char c. Qed.

Lemma forallb_ext : forall (A : Type) (p q : A -> bool) l,
  (forall x, p x = q x) -> forallb p l = forallb q l.
Proof. intros A p q l H. induction l as [| x l IH]; simpl; [| rewrite H, IH]; reflexivity. Qed.

Lemma existsb_ext : forall (A : Type) (p q : A -> bool) l,
  (forall x, p x = q x) -> existsb p l = existsb q l.
Proof. intros A p q l H. induction l as [| x l IH]; simpl; [| rewrite H, IH]; reflexivity. Qed.

Lemma run_class_pattern : forall s,
  run Invoice.class_pattern (MState [] s None) Some =
  iter (run (Chr (ci Invoice.alnum_dash_underscore))) true 3 (Some 20)
    (length s) 0 (MState [] s None)
    (fun st' => if at_eol st' then Some st' else None).
Proof. reflexivity. Qed.

Lemma class_pattern_match : forall s,
  Invoice.is_some (match_ Invoice.class_pattern s) = true <-> SpecInvoice.matches_class s.
Proof.
  intro s. unfold match_. rewrite match_here_is_some, run_class_pattern.
  rewrite iter_chr_greedy by lia. unfold SpecInvoice.matches_class, SpecInvoice.in_class_3_20.
  split.
  - intros [j [Hj [Hall [Hlo [Hhi Hk]]]]].
    rewrite (forallb_ext _ _ _ _ ci_class) in Hall.
    assert (Hlen : length (firstn j s) = j) by (rewrite length_firstn; lia).
    unfold advance, at_eol in Hk. cbn [rest] in Hk.
    destruct (skipn j s) as [| c [| c' t]] eqn:Hs; try congruence.
    + left. rewrite <- (firstn_skipn j s), Hs, app_nil_r, Hlen. split; [lia | assumption].
    + right. exists (firstn j s). destruct (eqb_char c newline) eqn:Hc; [| congruence].
      apply eqb_char_true in Hc. subst c.
      rewrite <- Hs, firstn_skipn, Hlen. repeat split; try lia; assumption.
  - intros [[Hlen Hall] | [body [E [Hlen Hall]]]].
    + exists (length s). rewrite firstn_all, (forallb_ext _ _ _ _ ci_class).
      repeat split; try lia; try assumption.
      unfold advance, at_eol. cbn [rest]. rewrite skipn_all. congruence.
    + exists (length body). subst s.
      rewrite firstn_app, Nat.sub_diag, firstn_all, firstn_O, app_nil_r.
      rewrite (forallb_ext _ _ _ _ ci_class), length_app.
      repeat split; try lia; try assumption.
      unfold advance, at_eol. cbn [rest].
      rewrite skipn_app, Nat.sub_diag, skipn_all, skipn_O. cbn [app].
      replace (eqb_char newline newline) with true
        by (symmetry; now apply eqb_char_true). congruence.
Qed.

Lemma remove_char_existsb_digit : forall sep s,
  is_digit sep = false ->
  existsb is_digit (remove_char sep s) = existsb is_digit s.
Proof.
  intros sep s Hsep. unfold remove_char.
  induction s as [| c s IH]; [reflexivity |]. cbn [filter existsb].
  destruct (eqb_char c sep) eqn:E; cbn [negb existsb].
  - apply eqb_char_true in E. subst c. now rewrite Hsep, IH.
  - now rewrite IH.
Qed.

Lemma strip_separators_digit : forall s,
  existsb is_digit (SpecInvoice.strip_separators s) = existsb is_digit s.
Proof.
  intro s. unfold SpecInvoice.strip_separators.
  now rewrite !remove_char_existsb_digit by reflexivity.
Qed.

Lemma is_valid_invoice_number_eq : forall c,
  Invoice._is_valid_invoice_number c =
  (3 <=? length c) && existsb is_digit c
  && Invoice.is_some (match_ Invoice.class_pattern c)
  && negb (mem (lower c) Invoice.false_positives)
  && ((existsb is_alpha c && existsb is_digit c) || (isdigit c && (4 <=? length c))).
Proof.
  intro c. unfold Invoice._is_valid_invoice_number.
  fold (SpecInvoice.strip_separators c). fold Invoice.class_pattern.
  rewrite !search_Chr, strip_separators_digit.
  unfold cls. rewrite search_Chr, (existsb_ext _ _ _ _ ci_upper).
  rewrite Nat.ltb_antisym.
  destruct (3 <=? length c); [| reflexivity]. cbn [negb andb].
  destruct (existsb is_digit c); [| reflexivity]. cbn [negb andb].
  destruct (Invoice.is_some (match_ Invoice.class_pattern c)); [| reflexivity]. cbn [negb andb].
  destruct (mem (lower c) Invoice.false_positives); [reflexivity |]. cbn [negb andb].
  destruct (existsb is_alpha c); [reflexivity |]. cbn [andb orb].
  destruct (isdigit c && (4 <=? length c)); reflexivity.
Qed.

Lemma has_letter_existsb : forall s, SpecInvoice.has_letter s <-> existsb is_alpha s = true.
Proof. intro s. unfold SpecInvoice.has_letter. now rewrite existsb_exists. Qed.

Lemma all_digits_isdigit : forall s, SpecInvoice.all_digits s <-> isdigit s = true.
Proof.
  intro s. unfold SpecInvoice.all_digits, isdigit. destruct s as [| c s].
  - split; [intros [H _]; congruence | discriminate].
  - split; [intros [_ H]; exact H | intro H; split; [discriminate | exact H]].
Qed.

Lemma is_valid_invoice_number_iff : forall c,
  Invoice._is_valid_invoice_number c = true <-> SpecInvoice.valid_invoice_number c.
Proof.
  intro c. rewrite is_valid_invoice_number_eq. unfold SpecInvoice.valid_invoice_number.
  unfold SpecInvoice.letters_and_digits_or_long_number, SpecInvoice.stopword, SpecInvoice.has_digit.
  rewrite !andb_true_iff, orb_true_iff, !andb_true_iff, negb_true_iff.
  rewrite class_pattern_match, has_digit_existsb, has_letter_existsb,
    all_digits_isdigit, !Nat.leb_le, <- mem_In, not_true_iff_false.
  tauto.
Qed.

Lemma extract_from_line_valid : forall line,
  Invoice._extract_from_line line = [] \/
  exists c, Invoice._is_valid_invoice_number c = true /\
            Invoice._extract_from_line line = upper c.
Proof.
  intro line. unfold Invoice._extract_from_line.
  destruct (first_some (Invoice.anchored_candidate (lower line)) Invoice.line_patterns)
    as [r |] eqn:H1.
  - right. apply first_some_Some in H1 as [p [_ Hp]].
    unfold Invoice.anchored_candidate in Hp.
    destruct (search p (lower line)) as [m |]; [| discriminate].
    destruct (group1 m) as [c |]; [| discriminate].
    destruct (Invoice._is_valid_invoice_number c) eqn:Hv; [| discriminate].
    injection Hp as <-. exists c. auto.
  - destruct (contains (lit "invoice") (lower line)); [| now left].
    destruct (first_some Invoice.standalone_candidate _) as [r |] eqn:H2; [| now left].
    right. apply first_some_Some in H2 as [c [_ Hc]].
    unfold Invoice.standalone_candidate in Hc.
    destruct (Invoice._is_valid_invoice_number c) eqn:Hv; [| discriminate].
    injection Hc as <-. exists c. auto.
Qed.

Lemma extract_invoice_number_valid : forall self text,
  Invoice.extract_invoice_number self text = [] \/
  exists c, Invoice._is_valid_invoice_number c = true /\
            Invoice.extract_invoice_number self text = upper c.
Proof.
  intros self text. unfold Invoice.extract_invoice_number.
  destruct (first_some Invoice.line_candidate (split_on newline text)) as [r |] eqn:H1.
  - apply first_some_Some in H1 as [line [_ Hl]].
    unfold Invoice.line_candidate in Hl.
    destruct (Invoice.has_keyword line); [| discriminate].
    destruct (extract_from_line_valid line) as [E | [c [Hv E]]].
    + rewrite E in Hl. discriminate.
    + right. exists c. split; [assumption |].
      destruct (Invoice._extract_from_line line); [discriminate |].
      injection Hl as <-. exact E.
  - destruct (first_some _ (Invoice.invoice_patterns self)) as [r |] eqn:H2; [| now left].
    right. apply first_some_Some in H2 as [p [_ Hp]].
    apply first_some_Some in Hp as [m [_ Hm]].
    unfold Invoice.full_text_candidate in Hm.
    destruct (Invoice._is_valid_invoice_number (group1_or_0 m)) eqn:Hv; [| discriminate].
    injection Hm as <-. exists (group1_or_0 m). auto.
Qed.

(** Claim C4, amended.  A candidate is accepted exactly when its own length
    (the separators counted) is at least 3, it holds a digit, it matches the
    class of letters, digits, underscore and dash 3 to 20 times (one final
    line feed after such a match is let through by the dollar anchor), it is
    no stopword in lower case, and it holds a letter and a digit or is made
    of at least 4 digits.  Every number [extract_invoice_number] returns is
    the upper case of an accepted candidate; INVOICE is rejected and
    INV-2024-001 accepted. *)
Theorem invoice_number_validity :
  (forall candidate : str,
     Invoice._is_valid_invoice_number candidate = true <->
     SpecInvoice.valid_invoice_number candidate) /\
  (forall (self : Invoice.InvoiceExtractor) (text : str),
     Invoice.extract_invoice_number self text = [] \/
     exists candidate,
       Invoice._is_valid_invoice_number candidate = true /\
       Invoice.extract_invoice_number self text = upper candidate) /\
  Invoice._is_valid_invoice_number (lit "INVOICE") = false /\
  Invoice._is_valid_invoice_number (lit "INV-2024-001") = true /\
  upper (lit "INV-2024-001") = lit "INV-2024-001" /\
  Invoice.extract_invoice_number Invoice.init (lit "Invoice No: inv-2024-001")
    = lit "INV-2024-001".
Proof.
  split; [exact is_valid_invoice_number_iff |].
  split; [exact extract_invoice_number_valid |].
  repeat split; vm_compute; reflexivity.
Qed.

(** Claim C4 as stated fails on A-1: the candidate is accepted, and only 2
    characters are left once the dash is stripped. *)
Lemma invoice_number_validity_as_stated_fails :
  ~ (Invoice._is_valid_invoice_number (lit "A-1") = true <->
     SpecInvoice.stated_valid_invoice_number (lit "A-1")).
Proof.
  intros [H _]. assert (Ht : Invoice._is_valid_invoice_number (lit "A-1") = true)
    by (vm_compute; reflexivity).
  destruct (H Ht) as [Hlen _]. vm_compute in Hlen. lia.
Qed.

(** ** Invoice numbers: the order of the search *)

Lemma first_some_app : forall (A B : Type) (f : A -> option B) pre x post v,
  (forall y, In y pre -> f y = None) -> f x = Some v ->
  first_some f (pre ++ x :: post) = Some v.
Proof.
  induction pre as [| y pre IH]; intros x post v Hpre Hx; simpl.
  - now rewrite Hx.
  - rewrite (Hpre y (or_introl eq_refl)). apply IH; [| assumption].
    intros z Hz. apply Hpre. now right.
Qed.

Lemma valid_upper_nonempty : forall c,
  Invoice._is_valid_invoice_number c = true -> upper c <> [].
Proof.
  intros c H. apply is_valid_invoice_number_iff in H as [Hlen _].
  destruct c; [simpl in Hlen; lia | discriminate].
Qed.

Lemma anchored_candidate_nonempty : forall ll p v,
  Invoice.anchored_candidate ll p = Some v -> v <> [].
Proof.
  intros ll p v H. unfold Invoice.anchored_candidate in H.
  destruct (search p ll) as [m |]; [| discriminate].
  destruct (group1 m) as [c |]; [| discriminate].
  destruct (Invoice._is_valid_invoice_number c) eqn:Hv; [| discriminate].
  injection H as <-. now apply valid_upper_nonempty.
Qed.

Lemma standalone_candidate_nonempty : forall c v,
  Invoice.standalone_candidate c = Some v -> v <> [].
Proof.
  intros c v H. unfold Invoice.standalone_candidate in H.
  destruct (Invoice._is_valid_invoice_number c) eqn:Hv; [| discriminate].
  injection H as <-. now apply valid_upper_nonempty.
Qed.

Lemma line_candidate_order : forall line,
  Invoice.line_candidate line =
  match SpecSearch.anchored_match line with
  | Some v => Some v
  | None => SpecSearch.standalone_match line
  end.
Proof.
  intro line. unfold Invoice.line_candidate, SpecSearch.anchored_match, SpecSearch.standalone_match.
  destruct (Invoice.has_keyword line); [| reflexivity]. cbn [andb].
  unfold Invoice._extract_from_line.
  destruct (first_some (Invoice.anchored_candidate (lower line)) Invoice.line_patterns)
    as [v |] eqn:H1.
  - apply first_some_Some in H1 as [p [_ Hp]].
    apply anchored_candidate_nonempty in Hp. destruct v; [congruence | reflexivity].
  - destruct (contains (lit "invoice") (lower line)); [| reflexivity].
    destruct (first_some Invoice.standalone_candidate _) as [v |] eqn:H2; [| reflexivity].
    apply first_some_Some in H2 as [c [_ Hc]].
    apply standalone_candidate_nonempty in Hc. destruct v; [congruence | reflexivity].
Qed.

(** Claim C5, amended.  On a line that holds a keyword, the candidate is the
    first valid capture of the keyword-anchored patterns and, failing that,
    the first valid standalone token of that same line when it holds the
    word invoice.  The result is the candidate of the first line that has
    one, whichever of the two it is; the search over the whole text is made
    only when no line has a candidate. *)
Theorem invoice_search_order :
  forall (self : Invoice.InvoiceExtractor) (text : str),
    (forall line, Invoice.line_candidate line =
       match SpecSearch.anchored_match line with
       | Some v => Some v
       | None => SpecSearch.standalone_match line
       end) /\
    (forall pre line post v,
       split_on newline text = pre ++ line :: post ->
       (forall l, In l pre -> Invoice.line_candidate l = None) ->
       Invoice.line_candidate line = Some v ->
       Invoice.extract_invoice_number self text = v) /\
    ((forall l, In l (split_on newline text) -> Invoice.line_candidate l = None) ->
       Invoice.extract_invoice_number self text =
       match SpecSearch.full_text_match self text with Some v => v | None => [] end).
Proof.
  intros self text. split; [exact line_candidate_order |]. split.
  - intros pre line post v Hsplit Hpre Hline. unfold Invoice.extract_invoice_number.
    rewrite Hsplit, (first_some_app _ _ Invoice.line_candidate pre line post v Hpre Hline).
    reflexivity.
  - intro H. unfold Invoice.extract_invoice_number.
    rewrite (proj2 (first_some_None _ _ _ _) H). reflexivity.
Qed.

Lemma invoice_search_order_witness :
  Invoice.extract_invoice_number Invoice.init two_invoice_lines = lit "AB123" /\
  Invoice.extract_invoice_number Invoice.init (lit "Thank you") = [].
Proof.
  split.
  - apply (proj1 (proj2 (invoice_search_order Invoice.init two_invoice_lines))
             [] (lit "Invoice for order AB123") [lit "Invoice #: INV-2024-001"]).
    + vm_compute. reflexivity.
    + intros l [].
    + vm_compute. reflexivity.
  - rewrite (proj2 (proj2 (invoice_search_order Invoice.init (lit "Thank you")))).
    + vm_compute. reflexivity.
    + intros l Hl. vm_compute in Hl. destruct Hl as [<- | []]. vm_compute. reflexivity.
Defined.

(** Claim C5 as stated fails: the second line has the keyword-anchored
    number INV-2024-001, and the result is the standalone token AB123 of the
    first line. *)
Lemma invoice_search_order_as_stated_fails :
  ~ SpecSearch.stated_search_order Invoice.init two_invoice_lines.
Proof.
  intro H. specialize (H (lit "INV-2024-001")).
  assert (E : Invoice.extract_invoice_number Invoice.init two_invoice_lines = lit "AB123")
    by (vm_compute; reflexivity).
  rewrite E in H. assert (F : lit "AB123" = lit "INV-2024-001")
    by (apply H; vm_compute; reflexivity).
  discriminate F.
Qed.

(** ** Dates: ranking and duplicates *)

Section SortByZ.
Variables (A : Type) (key : A -> Z).

Lemma insert_by_sorted : forall x l,
  StronglySorted (fun a b => (key a <= key b)%Z) l ->
  StronglySorted (fun a b => (key a <= key b)%Z) (insert_by key Z.leb x l).
Proof.
  intros x l H. induction H as [| y l Hs IH Hy]; cbn [insert_by].
  - constructor; constructor.
  - destruct (Z.leb_spec (key x) (key y)) as [Hle | Hgt].
    + constructor; [now constructor |].
      constructor; [assumption |].
      rewrite Forall_forall in *. intros z Hz. specialize (Hy z Hz). lia.
    + constructor; [assumption |].
      rewrite Forall_forall in *. intros z Hz.
      eapply Permutation_in in Hz; [| apply insert_by_perm].
      destruct Hz as [<- | Hz]; [lia | now apply Hy].
Qed.

Lemma sorted_by_sorted : forall l,
  StronglySorted (fun a b => (key a <= key b)%Z) (sorted_by key Z.leb l).
Proof.
  induction l as [| x l IH]; cbn [sorted_by fold_right].
  - constructor.
  - now apply insert_by_sorted.
Qed.

Lemma insert_by_filter : forall p x l,
  filter (fun a => Z.eqb (key a) p) (insert_by key Z.leb x l) =
  filter (fun a => Z.eqb (key a) p) (x :: l).
Proof.
  intros p x. induction l as [| y l IH]; [reflexivity |].
  cbn [insert_by]. destruct (Z.leb_spec (key x) (key y)) as [Hle | Hgt]; [reflexivity |].
  cbn [filter] in *. rewrite IH.
  destruct (Z.eqb_spec (key x) p), (Z.eqb_spec (key y) p); try reflexivity. lia.
Qed.

(** Stability: the elements of one key keep their order. *)
Lemma sorted_by_stable : forall p l,
  filter (fun a => Z.eqb (key a) p) (sorted_by key Z.leb l) =
  filter (fun a => Z.eqb (key a) p) l.
Proof.
  intros p. induction l as [| x l IH]; [reflexivity |].
  cbn [sorted_by fold_right]. rewrite insert_by_filter.
  cbn [filter]. fold (sorted_by key Z.leb l). now rewrite IH.
Qed.

Lemma sorted_by_id : forall l,
  StronglySorted (fun a b => (key a <= key b)%Z) l -> sorted_by key Z.leb l = l.
Proof.
  intros l H. induction H as [| x l Hs IH Hx]; [reflexivity |].
  cbn [sorted_by fold_right]. fold (sorted_by key Z.leb l). rewrite IH.
  destruct l as [| y l]; [reflexivity |]. cbn [insert_by].
  apply Forall_inv in Hx. now rewrite (proj2 (Z.leb_le _ _) Hx).
Qed.
End SortByZ.

Lemma eqb_sym : forall a b : str, PyStr.eqb a b = PyStr.eqb b a.
Proof.
  intros a b. destruct (PyStr.eqb a b) eqn:E1, (PyStr.eqb b a) eqn:E2; try reflexivity.
  - apply eqb_true in E1. subst. rewrite (proj2 (eqb_true b b) eq_refl) in E2. discriminate.
  - apply eqb_true in E2. subst. rewrite (proj2 (eqb_true a a) eq_refl) in E1. discriminate.
Qed.

(** A date is kept exactly when no earlier one has its formatted date. *)
Lemma keep_unseen_snoc : forall l d seen,
  Dates.keep_unseen seen (l ++ [d]) =
  Dates.keep_unseen seen l ++
  (if mem (Dates.formatted_date d) seen || existsb (SpecDates.same_date d) l
   then [] else [d]).
Proof.
  induction l as [| y l IH]; intros d seen.
  - cbn [app Dates.keep_unseen existsb]. rewrite orb_false_r.
    destruct (mem _ seen); reflexivity.
  - cbn [app Dates.keep_unseen existsb].
    destruct (mem (Dates.formatted_date y) seen) eqn:Hy.
    + rewrite IH. f_equal. unfold SpecDates.same_date at 2.
      destruct (PyStr.eqb (Dates.formatted_date y) (Dates.formatted_date d)) eqn:E;
        [| reflexivity].
      apply eqb_true in E. rewrite <- E, Hy. reflexivity.
    + rewrite IH. cbn [app]. f_equal. f_equal.
      assert (E : mem (Dates.formatted_date d) (Dates.formatted_date y :: seen) =
                  SpecDates.same_date d y || mem (Dates.formatted_date d) seen).
      { unfold mem, SpecDates.same_date. cbn [existsb]. now rewrite eqb_sym. }
      rewrite E.
      destruct (SpecDates.same_date d y), (mem (Dates.formatted_date d) seen),
        (existsb (SpecDates.same_date d) l); reflexivity.
Qed.

Lemma keep_unseen_incl : forall l seen d,
  In d (Dates.keep_unseen seen l) -> In d l.
Proof.
  induction l as [| y l IH]; intros seen d H; [destruct H |].
  cbn [Dates.keep_unseen] in H. destruct (mem _ seen).
  - right. eapply IH, H.
  - destruct H as [<- | H]; [now left | right; eapply IH, H].
Qed.

Lemma keep_unseen_sorted : forall (R : Dates.DateFinding -> Dates.DateFinding -> Prop) l seen,
  StronglySorted R l -> StronglySorted R (Dates.keep_unseen seen l).
Proof.
  intros R l. induction l as [| y l IH]; intros seen H; [constructor |].
  apply StronglySorted_inv in H as [Hs Hy]. cbn [Dates.keep_unseen].
  destruct (mem _ seen); [now apply IH |].
  constructor; [now apply IH |].
  rewrite Forall_forall in *. intros z Hz. eapply Hy, keep_unseen_incl, Hz.
Qed.

Lemma keep_unseen_NoDup : forall l seen,
  NoDup (map Dates.formatted_date (Dates.keep_unseen seen l)) /\
  forall d, In d (Dates.keep_unseen seen l) -> ~ In (Dates.formatted_date d) seen.
Proof.
  induction l as [| y l IH]; intros seen.
  - split; [constructor | intros d []].
  - cbn [Dates.keep_unseen]. destruct (mem _ seen) eqn:Hy; [apply IH |].
    destruct (IH (Dates.formatted_date y :: seen)) as [Hn Hs]. split.
    + cbn [map]. constructor; [| assumption].
      intro H. apply in_map_iff in H as [d [Hd Hin]].
      apply (Hs d Hin). left. congruence.
    + intros d [<- | Hd].
      * intro H. apply mem_In in H. congruence.
      * intro H. apply (Hs d Hd). now right.
Qed.

Lemma firstn_sorted : forall (A : Type) (R : A -> A -> Prop) n l,
  StronglySorted R l -> StronglySorted R (firstn n l).
Proof.
  intros A R n. induction n as [| n IH]; intros l H; [constructor |].
  destruct l as [| x l]; [constructor |].
  apply StronglySorted_inv in H as [Hs Hx]. cbn [firstn].
  constructor; [now apply IH |].
  rewrite Forall_forall in *. intros z Hz. apply Hx.
  rewrite <- (firstn_skipn n l). apply in_or_app. now left.
Qed.

Lemma format_dates_primary : forall ds,
  StronglySorted SpecDates.by_priority ds ->
  match ds with
  | first :: _ =>
      Main.dict_get (Main._format_dates ds) "date_primary_mmddyyyy"
        = Some (Main.VStr (Dates.formatted_date first)) /\
      Main.dict_get (Main._format_dates ds) "date1_mmddyyyy"
        = Some (Main.VStr (Dates.formatted_date first))
  | [] =>
      Main.dict_get (Main._format_dates ds) "date_primary_mmddyyyy"
        = Some (Main.VStr [])
  end.
Proof.
  intros ds H. destruct ds as [| first rest]; [reflexivity |].
  unfold Main._format_dates.
  rewrite (sorted_by_id _ (fun d => Dates.priority (Dates.label d)) _ H).
  destruct rest as [| d2 [| d3 rest]]; split; reflexivity.
Qed.

(** Claim C3.  The dates found are sorted by the priority of their label
    (invoice 1, due 2, order 3, ship 4, unknown 5) by a stable sort: a
    permutation, in the order of the priorities, the dates of one label in
    the order they were found.  Of the sorted dates, one is kept exactly when
    no date before it has its formatted date, whatever the labels; no
    formatted date is kept twice.  The result is the first 3 of the kept
    dates, and the primary date of the record is the first of them. *)
Theorem date_deduplication_and_ranking :
  forall (dateutil_parse : str -> option Dates.datetime)
         (self : Dates.DateExtractor) (text : str),
    let found := Dates.found_dates dateutil_parse self text in
    let sorted := sorted_by SpecDates.prio Z.leb found in
    let unique := Dates._remove_duplicates found in
    let result := Dates.extract_dates dateutil_parse self text in
    (Dates.priority Dates.invoice = 1 /\ Dates.priority Dates.due = 2 /\
     Dates.priority Dates.order = 3 /\ Dates.priority Dates.ship = 4 /\
     Dates.priority Dates.unknown = 5)%Z /\
    Permutation sorted found /\
    StronglySorted SpecDates.by_priority sorted /\
    (forall l, filter (SpecDates.has_label l) sorted = filter (SpecDates.has_label l) found) /\
    unique = Dates.keep_unseen [] sorted /\
    (forall l d,
       Dates.keep_unseen [] (l ++ [d]) =
       Dates.keep_unseen [] l ++ (if existsb (SpecDates.same_date d) l then [] else [d])) /\
    NoDup (map Dates.formatted_date unique) /\
    result = firstn 3 unique /\
    length result <= 3 /\
    match result with
    | first :: _ =>
        Main.dict_get (Main._format_dates result) "date_primary_mmddyyyy"
          = Some (Main.VStr (Dates.formatted_date first))
    | [] =>
        Main.dict_get (Main._format_dates result) "date_primary_mmddyyyy"
          = Some (Main.VStr [])
    end.
Proof.
  intros parse self text found sorted unique result.
  assert (Hsorted : StronglySorted SpecDates.by_priority sorted)
    by apply sorted_by_sorted.
  split; [repeat split; reflexivity |].
  split; [apply sorted_by_perm |].
  split; [exact Hsorted |].
  split; [intro l; apply sorted_by_stable |].
  split; [reflexivity |].
  split; [intros l d; now rewrite keep_unseen_snoc |].
  split; [apply keep_unseen_NoDup |].
  split; [reflexivity |].
  split; [apply firstn_le_length |].
  pose proof (format_dates_primary result) as H.
  assert (Hres : StronglySorted SpecDates.by_priority result)
    by (apply firstn_sorted, keep_unseen_sorted, Hsorted).
  specialize (H Hres). destruct result; [exact H | apply H].
Qed.

Lemma date_ranking_example :
  map (fun d => (Dates.label d, string_of_list_ascii (Dates.formatted_date d)))
      (Dates.extract_dates SpecParser.numeric_mdy Dates.init SpecParser.invoice_and_due)
  = [(Dates.invoice, "01/15/2024"%string); (Dates.due, "02/15/2024"%string)].
Proof. vm_compute. reflexivity. Qed.

(** ** The matcher accepts only words of its pattern *)

Lemma after_refl : forall st, after [] st st.
Proof. intro st. split; reflexivity. Qed.

Lemma after_trans : forall u v st1 st2 st3,
  after u st1 st2 -> after v st2 st3 -> after (u ++ v) st1 st3.
Proof.
  intros u v st1 st2 st3 [H1 H2] [H3 H4]. split.
  - rewrite H1, H3. now rewrite app_assoc.
  - rewrite H4, H2, rev_app_distr. now rewrite app_assoc.
Qed.

Lemma iter_sound : forall a step greedy lo hi,
  sound_step a step ->
  forall fuel cnt st k out,
    iter step greedy lo hi fuel cnt st k = Some out ->
    exists ws st', Forall (matches a) ws /\ lo <= cnt + length ws /\
                   after (concat ws) st st' /\ k st' = Some out.
Proof.
  intros a step greedy lo hi Hstep.
  assert (Hstop : forall cnt st (k : cont) out,
            (if lo <=? cnt then k st else None) = Some out ->
            exists ws st', Forall (matches a) ws /\ lo <= cnt + length ws /\
                           after (concat ws) st st' /\ k st' = Some out).
  { intros cnt st k out H. destruct (Nat.leb_spec lo cnt); [| discriminate].
    exists [], st.
    split; [constructor |]. split; [cbn [length]; lia |].
    split; [apply after_refl | assumption]. }
  induction fuel as [| f IH]; intros cnt st k out H; cbn [iter] in H.
  - now apply Hstop.
  - cbv zeta in H.
    assert (Hmore : forall o,
      (if below cnt hi
       then step st (fun st' => if length (rest st') <? length (rest st)
                                then iter step greedy lo hi f (S cnt) st' k else None)
       else None) = Some o ->
      exists ws st', Forall (matches a) ws /\ lo <= cnt + length ws /\
                     after (concat ws) st st' /\ k st' = Some o).
    { intros o Ho. destruct (below cnt hi); [| discriminate].
      apply Hstep in Ho as [w [st1 [Hw [Ha Hk]]]].
      destruct (length (rest st1) <? length (rest st)); [| discriminate].
      apply IH in Hk as [ws [st2 [Hws [Hlo [Ha2 Hk]]]]].
      exists (w :: ws), st2.
      split; [now constructor |]. split; [cbn [length]; lia |].
      split; [cbn [concat]; eapply after_trans; eassumption | exact Hk]. }
    destruct greedy.
    + destruct (if below cnt hi then _ else None) as [o |] eqn:E.
      * injection H as <-. now apply Hmore.
      * now apply Hstop.
    + destruct (if lo <=? cnt then k st else None) as [o |] eqn:E.
      * injection H as <-. now apply Hstop.
      * now apply Hmore.
Qed.

Lemma run_sound : forall r, sound_step r (run r).
Proof.
  induction r as [| p | a IHa b IHb | a IHa b IHb | g lo hi a IHa | a IHa | | |];
    intros st k out H; cbn [run] in H.
  - exists [], st. repeat split; auto.
  - destruct (rest st) as [| c s'] eqn:E; [discriminate |].
    destruct (p c) eqn:Hp; [| discriminate].
    exists [c]. eexists. split; [exists c; auto |]. split; [| exact H].
    split; cbn [rest seen]; [exact E | reflexivity].
  - apply IHa in H as [u [st1 [Hu [Ha H]]]].
    apply IHb in H as [v [st2 [Hv [Hb H]]]].
    exists (u ++ v), st2. split; [exists u, v; auto |].
    split; [eapply after_trans; eassumption | exact H].
  - destruct (run a st k) as [o |] eqn:E.
    + injection H as <-. apply IHa in E as [w [st' [Hw [Ha Hk]]]].
      exists w, st'. cbn [matches]. auto.
    + apply IHb in H as [w [st' [Hw [Ha Hk]]]].
      exists w, st'. cbn [matches]. auto.
  - apply (iter_sound a (run a) g lo hi IHa) in H as [ws [st' [Hws [Hlo [Ha Hk]]]]].
    exists (concat ws), st'. split; [| auto].
    exists ws. repeat split; auto.
  - apply IHa in H as [w [st' [Hw [Ha Hk]]]].
    exists w. eexists. split; [exact Hw |]. split; [| exact Hk].
    destruct Ha as [H1 H2]. split; cbn [rest seen]; assumption.
  - destruct (xorb _ _); [| discriminate]. exists [], st. repeat split; auto.
  - destruct (seen st); [| discriminate]. exists [], st. repeat split; auto.
  - destruct (at_eol st); [| discriminate]. exists [], st. repeat split; auto.
Qed.

Lemma in_all_chars : forall c, In c all_chars.
Proof.
  intro c. unfold all_chars. rewrite <- (ascii_nat_embedding c).
  apply in_map, in_seq. pose proof (nat_ascii_bounded c). lia.
Qed.

Lemma no_space_class_sound : forall p c,
  no_space_class p = true -> p c = true -> is_space c = false.
Proof.
  intros p c H Hp. unfold no_space_class in H. rewrite forallb_forall in H.
  specialize (H c (in_all_chars c)). rewrite Hp in H. now apply negb_true_iff in H.
Qed.

Lemma first_char_ok_app : forall u v,
  first_char_ok u -> (u = [] -> first_char_ok v) -> first_char_ok (u ++ v).
Proof.
  intros [| c u] v Hu Hv x w' E.
  - eapply Hv; [reflexivity | exact E].
  - injection E as <- _. eapply Hu. reflexivity.
Qed.

Lemma last_char_ok_app : forall u v,
  last_char_ok v -> (v = [] -> last_char_ok u) -> last_char_ok (u ++ v).
Proof.
  intros u v Hv Hu x w' E. rewrite rev_app_distr in E.
  destruct (rev v) as [| c rv] eqn:Erv.
  - assert (v = []) by (rewrite <- (rev_involutive v), Erv; reflexivity).
    eapply Hu; [assumption | exact E].
  - injection E as <- _. eapply Hv. exact Erv.
Qed.

Lemma first_char_ok_nil : first_char_ok [].
Proof. intros c w' E. discriminate. Qed.

Lemma last_char_ok_nil : last_char_ok [].
Proof. intros c w' E. discriminate. Qed.

Lemma first_char_ok_concat : forall ws,
  Forall first_char_ok ws -> first_char_ok (concat ws).
Proof.
  induction 1 as [| w ws Hw Hws IH]; cbn [concat].
  - apply first_char_ok_nil.
  - apply first_char_ok_app; auto.
Qed.

Lemma last_char_ok_concat : forall ws,
  Forall last_char_ok ws -> last_char_ok (concat ws).
Proof.
  induction 1 as [| w ws Hw Hws IH]; cbn [concat].
  - apply last_char_ok_nil.
  - apply last_char_ok_app; auto.
Qed.

Lemma matches_shape : forall r w,
  matches r w ->
  (w = [] -> may_be_empty r = true) /\
  (first_no_space r = true -> first_char_ok w) /\
  (last_no_space r = true -> last_char_ok w).
Proof.
  induction r as [| p | a IHa b IHb | a IHa b IHb | g lo hi a IHa | a IHa | | |];
    intros w H; cbn [matches] in H;
    cbn [may_be_empty first_no_space last_no_space];
    try (subst w; repeat split; intros;
         try reflexivity; try apply first_char_ok_nil; apply last_char_ok_nil).
  - destruct H as [c [-> Hp]]. split; [discriminate |]. split; intro Hc.
    + intros x w' E. injection E as <- _. eapply no_space_class_sound; eassumption.
    + intros x w' E. injection E as <- _. eapply no_space_class_sound; eassumption.
  - destruct H as [u [v [-> [Hu Hv]]]].
    destruct (IHa u Hu) as [Ea [Fa La]]. destruct (IHb v Hv) as [Eb [Fb Lb]].
    split; [| split].
    + intro E. apply app_eq_nil in E as [-> ->]. now rewrite Ea, Eb.
    + intro H. apply andb_true_iff in H as [H1 H2].
      apply first_char_ok_app; [auto |]. intro E. apply Fb.
      rewrite (Ea E) in H2. exact H2.
    + intro H. apply andb_true_iff in H as [H1 H2].
      apply last_char_ok_app; [auto |]. intro E. apply La.
      rewrite (Eb E) in H2. exact H2.
  - split; [| split].
    + intro E. apply orb_true_iff.
      destruct H as [H | H]; [left; now apply (IHa w H) | right; now apply (IHb w H)].
    + intro Hf. apply andb_true_iff in Hf as [H1 H2].
      destruct H as [H | H]; [now apply (IHa w H) | now apply (IHb w H)].
    + intro Hf. apply andb_true_iff in Hf as [H1 H2].
      destruct H as [H | H]; [now apply (IHa w H) | now apply (IHb w H)].
  - destruct H as [ws [-> [Hws Hlo]]]. split; [| split].
    + intro E. apply orb_true_iff. destruct ws as [| w ws].
      * left. apply Nat.eqb_eq. cbn [length] in Hlo. lia.
      * right. cbn [concat] in E. apply app_eq_nil in E as [-> _].
        apply Forall_inv in Hws. now apply (IHa [] Hws).
    + intro Hf. apply first_char_ok_concat.
      eapply Forall_impl; [| exact Hws]. intros w Hw. now apply (IHa w Hw).
    + intro Hf. apply last_char_ok_concat.
      eapply Forall_impl; [| exact Hws]. intros w Hw. now apply (IHa w Hw).
  - exact (IHa w H).
Qed.

(** The word between two states of the matcher. *)
Lemma after_word : forall w sn rs st',
  after w (MState sn rs None) st' ->
  rev (firstn (pos st' - length sn) (seen st')) = w.
Proof.
  intros w sn rs st' [_ H]. cbn [seen] in H. unfold pos. rewrite H.
  rewrite length_app, length_rev, Nat.add_sub.
  rewrite <- (length_rev w), firstn_app, Nat.sub_diag, firstn_all, firstn_O, app_nil_r.
  apply rev_involutive.
Qed.

Lemma match_here_sound : forall r sn rs m,
  match_here r sn rs = Some m -> matches r (group0 m).
Proof.
  intros r sn rs m H. unfold match_here in H.
  destruct (run r (MState sn rs None) Some) as [st' |] eqn:E; [| discriminate].
  injection H as <-. cbn [group0].
  apply run_sound in E as [w [st1 [Hw [Ha Hk]]]]. injection Hk as ->.
  now rewrite (after_word w sn rs st' Ha).
Qed.

Lemma finditer_aux_sound : forall r rs sn skip m,
  In m (finditer_aux r sn rs skip) -> matches r (group0 m).
Proof.
  intros r. induction rs as [| c rs IH]; intros sn skip m H.
  - destruct skip; cbn [finditer_aux] in H; [| destruct H].
    destruct (match_here r sn []) as [m' |] eqn:E; [| destruct H].
    destruct H as [<- | []]. eapply match_here_sound, E.
  - destruct skip; cbn [finditer_aux] in H.
    + destruct (match_here r sn (c :: rs)) as [m' |] eqn:E.
      * destruct H as [<- | H]; [eapply match_here_sound, E | eapply IH, H].
      * eapply IH, H.
    + eapply IH, H.
Qed.

Lemma finditer_sound : forall r s m, In m (finditer r s) -> matches r (group0 m).
Proof. intros r s m. apply finditer_aux_sound. Qed.

Lemma findall_strip : forall r s w,
  strip_proof r = true -> In w (findall r s) -> w <> [] /\ strip w = w.
Proof.
  intros r s w Hr Hw. unfold strip_proof in Hr.
  apply andb_true_iff in Hr as [Hr Hg]. apply andb_true_iff in Hr as [Hr Hl].
  apply andb_true_iff in Hr as [He Hf].
  unfold findall in Hw. apply negb_true_iff in Hg. rewrite Hg in Hw.
  apply in_map_iff in Hw as [m [<- Hm]].
  apply finditer_sound, matches_shape in Hm as [E [F L]].
  split.
  - intro H. apply E in H. rewrite H in He. discriminate.
  - apply strip_id; [now apply F | now apply L].
Qed.

(** ** Vendors: the best candidate *)

Lemma vendor_patterns_strip_proof :
  strip_proof Vendor.cap_words_pattern = true /\
  strip_proof Vendor.title_case_pattern = true /\
  strip_proof Vendor.all_caps_pattern = true /\
  forallb strip_proof Vendor.suffix_patterns = true.
Proof. repeat split; vm_compute; reflexivity. Qed.

Lemma findall_strip_id : forall r s w,
  strip_proof r = true -> In w (findall r s) -> strip w = w.
Proof. intros r s w Hr Hw. now apply (findall_strip r s w Hr Hw). Qed.

Lemma candidates_strip : forall self text c,
  In c (Vendor.candidates_of self text) -> strip c = c.
Proof.
  intros self text c H. unfold Vendor.candidates_of in H.
  destruct vendor_patterns_strip_proof as [H1 [H2 [H3 H4]]].
  apply in_app_or in H as [H | H];
    [| apply in_app_or in H as [H | H]; [| apply in_app_or in H as [H | H]]].
  - unfold Vendor._find_near_keywords in H.
    apply in_flat_map in H as [kw [_ H]]. apply in_flat_map in H as [m [_ H]].
    exact (findall_strip_id _ _ _ H1 H).
  - unfold Vendor._find_title_case_names in H. apply filter_In in H as [H _].
    exact (findall_strip_id _ _ _ H2 H).
  - unfold Vendor._find_all_caps_names in H. apply filter_In in H as [H _].
    exact (findall_strip_id _ _ _ H3 H).
  - unfold Vendor._find_company_suffixes in H.
    apply in_flat_map in H as [p [Hp H]].
    rewrite forallb_forall in H4. exact (findall_strip_id _ _ _ (H4 p Hp) H).
Qed.

Section Best.
Variables (A : Type) (key : A -> Z).

End Best.


Lemma score_is_table_score : forall self c,
  Vendor._score_candidate self c = SpecVendor.table_score self c.
Proof.
  intros self c. unfold Vendor._score_candidate, SpecVendor.table_score,
    SpecVendor.length_points, SpecVendor.word_points, SpecVendor.suffix_points, SpecVendor.title_points,
    SpecVendor.excluded_points, SpecVendor.caps_points, SpecVendor.digit_points, SpecVendor.len.
  rewrite search_Chr.
  repeat match goal with
         | |- context [if ?b then _ else _] => destruct b
         end; reflexivity.
Qed.



Lemma vendor_examples :
  Vendor.extract_vendor Vendor.init widget_text = lit "Widget Works LLC" /\
  Vendor.extract_vendor Vendor.init (lit "Alpha Beta; Gamma Delta") = lit "Alpha Beta" /\
  Vendor._score_candidate Vendor.init (lit "Alpha Beta")
    = Vendor._score_candidate Vendor.init (lit "Gamma Delta").
Proof. repeat split; vm_compute; reflexivity. Qed.

(** ** Records: the shape of the result *)

Import Main.

Lemma keys_dict_set : forall d k v, keys (dict_set d k v) = keys_set (keys d) k.
Proof.
  induction d as [| [k' v'] d IH]; intros k v; [reflexivity |].
  unfold keys_set in *. cbn [dict_set keys map fst existsb].
  rewrite (String.eqb_sym k k'). destruct (String.eqb k' k) eqn:E.
  - cbn [map fst orb]. apply String.eqb_eq in E. now subst.
  - cbn [map fst orb]. fold (keys d). fold (keys (dict_set d k v)). rewrite IH.
    destruct (existsb (String.eqb k) (keys d)); reflexivity.
Qed.

Lemma keys_dict_update : forall other d,
  keys (dict_update d other) = fold_left keys_set (keys other) (keys d).
Proof.
  unfold dict_update. induction other as [| [k v] other IH]; intro d; [reflexivity |].
  cbn [fold_left keys map fst snd]. rewrite IH, keys_dict_set. reflexivity.
Qed.

Lemma keys_format_dates : forall dates, keys (_format_dates dates) = date_columns.
Proof.
  intro dates. unfold _format_dates. destruct dates as [| d ds]; [reflexivity |].
  destruct (sorted_by _ Z.leb (d :: ds)) as [| a [| b [| c s]]]; reflexivity.
Qed.

Lemma keys_create_empty_result : forall filename error,
  keys (_create_empty_result filename error) = columns.
Proof. reflexivity. Qed.

Lemma empty_result_fields : forall filename error,
  SpecRecord.extraction_fields_empty (_create_empty_result filename error) /\
  dict_get (_create_empty_result filename error) "filename" = Some (VStr filename) /\
  dict_get (_create_empty_result filename error) "errors" = Some (VStr error).
Proof.
  intros filename error. split; [| split; reflexivity].
  intros k Hk Hf He. unfold columns in Hk. cbn [In] in Hk.
  repeat (destruct Hk as [<- | Hk]; [try congruence; reflexivity |]).
  destruct Hk.
Qed.

Section Files.
Variable read_text_file : Path -> outcome (option str).

Lemma try_process_file_keys : forall self file_path result,
  try_process_file read_text_file self file_path = Ok result ->
  keys result = columns.
Proof.
  intros self file_path result H. unfold try_process_file, bind in H.
  destruct (read_text_file file_path) as [[[| c text] |] | msg]; try discriminate;
    try (injection H as <-; reflexivity).
  destruct (date_extractor self (c :: text)) as [dates | msg]; [| discriminate].
  destruct (vendor_extractor self (c :: text)) as [vendor | msg]; [| discriminate].
  destruct (invoice_extractor self (c :: text)) as [inv | msg]; [| discriminate].
  destruct (currency_extractor self (c :: text)) as [amounts | msg]; [| discriminate].
  injection H as <-.
  rewrite !keys_dict_set, keys_dict_update, keys_format_dates. reflexivity.
Qed.

Lemma try_process_file_errors : forall self file_path result,
  try_process_file read_text_file self file_path = Ok result ->
  (exists c text, read_text_file file_path = Ok (Some (c :: text)) /\
                  dict_get result "errors" = Some (VStr [])) \/
  ((read_text_file file_path = Ok None \/ read_text_file file_path = Ok (Some [])) /\
   result = _create_empty_result (name file_path) (lit "Empty file")).
Proof.
  intros self file_path result H. unfold try_process_file, bind in H.
  destruct (read_text_file file_path) as [[[| c text] |] | msg]; try discriminate;
    try (injection H as <-; right; split; [auto | reflexivity]).
  left. exists c, text. split; [reflexivity |].
  destruct (date_extractor self (c :: text)) as [dates | msg]; [| discriminate].
  destruct (vendor_extractor self (c :: text)) as [vendor | msg]; [| discriminate].
  destruct (invoice_extractor self (c :: text)) as [inv | msg]; [| discriminate].
  destruct (currency_extractor self (c :: text)) as [amounts | msg]; [| discriminate].
  injection H as <-.
  assert (G : forall d v, dict_get (dict_set d "errors" v) "errors" = Some v).
  { clear. induction d as [| [k' v'] d IH]; intro v; cbn [dict_set].
    - reflexivity.
    - destruct (String.eqb k' "errors") eqn:E; cbn [dict_get]; rewrite ?String.eqb_refl, ?E;
        [reflexivity | apply IH]. }
  apply G.
Qed.

(** The cases of [process_file], for any reader and any extractors: the
    record always has the 18 columns, in their order; an exception gives the
    empty record with its message, an empty or unreadable file gives the
    empty record with the text Empty file, and a success leaves the error
    field empty. *)
Lemma record_cases :
  forall (self : TextProcessor) (file_path : Path) (lg : log),
    let result := fst (process_file read_text_file self file_path lg) in
    keys result = columns /\ length columns = 18 /\ NoDup columns /\
    (forall message,
       try_process_file read_text_file self file_path = Raise message ->
       result = _create_empty_result (name file_path) message /\
       SpecRecord.extraction_fields_empty result /\
       dict_get result "errors" = Some (VStr message)) /\
    (read_text_file file_path = Ok None \/ read_text_file file_path = Ok (Some []) ->
       result = _create_empty_result (name file_path) (lit "Empty file") /\
       SpecRecord.extraction_fields_empty result /\
       dict_get result "errors" = Some (VStr (lit "Empty file"))) /\
    (forall r, try_process_file read_text_file self file_path = Ok r ->
       result = r /\
       (dict_get r "errors" = Some (VStr []) \/
        dict_get r "errors" = Some (VStr (lit "Empty file")))).
Proof.
  intros self file_path lg result. unfold result, process_file.
  split; [| split; [reflexivity | split]].
  - destruct (try_process_file read_text_file self file_path) as [r | msg] eqn:E.
    + cbn [fst]. eapply try_process_file_keys, E.
    + reflexivity.
  - unfold columns. repeat constructor; cbn [In]; intuition discriminate.
  - split; [| split].
    + intros message E. rewrite E. cbn [fst]. split; [reflexivity |].
      destruct (empty_result_fields (name file_path) message) as [H1 [_ H2]]. auto.
    + intro H. assert (E : try_process_file read_text_file self file_path =
                           Ok (_create_empty_result (name file_path) (lit "Empty file")))
        by (unfold try_process_file, bind; destruct H as [-> | ->]; reflexivity).
      rewrite E. cbn [fst]. split; [reflexivity |].
      destruct (empty_result_fields (name file_path) (lit "Empty file")) as [H1 [_ H2]]. auto.
    + intros r E. rewrite E. cbn [fst]. split; [reflexivity |].
      destruct (try_process_file_errors self file_path r E) as [[c [t [_ H]]] | [_ ->]];
        [now left | now right].
Qed.
End Files.

(** ** Runs: what the record of a document depends on *)

Section Runs.
Variable read_text_file : Path -> outcome (option str).

Lemma process_file_record : forall self file_path lg,
  fst (process_file read_text_file self file_path lg) =
  match try_process_file read_text_file self file_path with
  | Ok result => result
  | Raise message => _create_empty_result (name file_path) message
  end.
Proof.
  intros self file_path lg. unfold process_file.
  destruct (try_process_file read_text_file self file_path); reflexivity.
Qed.

Lemma process_files_records : forall self txt_files lg,
  fst (process_files read_text_file self txt_files lg) =
  map (fun file_path => fst (process_file read_text_file self file_path [])) txt_files.
Proof.
  intros self txt_files. induction txt_files as [| p ps IH]; intro lg; [reflexivity |].
  cbn [process_files map].
  destruct (process_file read_text_file self p lg) as [r lg1] eqn:E1.
  destruct (process_files read_text_file self ps lg1) as [rs lg2] eqn:E2.
  cbn [fst]. f_equal.
  - change r with (fst (r, lg1)). rewrite <- E1. now rewrite !process_file_record.
  - change rs with (fst (rs, lg2)). rewrite <- E2. apply IH.
Qed.

End Runs.

(** *** The date library *)


Section TwoParsers.
Variables parse1 parse2 : str -> option Dates.datetime.




End TwoParsers.







Lemma sample_record :
  map (fun k => match dict_get (fst (process_file (SpecRecord.every_file SpecRuns.sample_text)
                                       (Main.init SpecParser.numeric_mdy) SpecRuns.first_copy [])) k with
                | Some (VStr s) => string_of_list_ascii s
                | _ => EmptyString
                end)
      ["date_primary_mmddyyyy"; "date1_label"; "possible_vendor"; "invoice_no"; "total";
       "other_amounts"; "errors"]%string
  = ["01/15/2024"; "invoice"; "Acme Tools Inc"; "2024"; "$120.00"; EmptyString;
     EmptyString]%string.
Proof. vm_compute. reflexivity. Qed.

(** * Further properties of the code *)

(** ** White space: [split] and [join] *)

Lemma split_ws_aux_words : forall s cur,
  forallb (fun c => negb (is_space c)) cur = true ->
  Forall is_word_of_text (split_ws_aux cur s).
Proof.
  induction s as [| c s IH]; intros cur Hcur; cbn [split_ws_aux].
  - destruct cur as [| x cur]; constructor; [| constructor].
    split.
    + intro E. apply (f_equal (@length _)) in E. rewrite length_rev in E. discriminate.
    + rewrite forallb_forall in *. intros y Hy. apply Hcur. now apply in_rev.
  - destruct (is_space c) eqn:Hc.
    + destruct cur as [| x cur].
      * apply IH. reflexivity.
      * constructor; [| apply IH; reflexivity].
        split.
        -- intro E. apply (f_equal (@length _)) in E. rewrite length_rev in E. discriminate.
        -- rewrite forallb_forall in *. intros y Hy. apply Hcur. now apply in_rev.
    + apply IH. cbn [forallb]. rewrite Hc. exact Hcur.
Qed.

Lemma split_ws_words : forall s, Forall is_word_of_text (split_ws s).
Proof. intro s. apply split_ws_aux_words. reflexivity. Qed.

Lemma split_ws_aux_app_word : forall w cur rest,
  forallb (fun c => negb (is_space c)) w = true ->
  split_ws_aux cur (w ++ rest) = split_ws_aux (rev w ++ cur) rest.
Proof.
  induction w as [| c w IH]; intros cur rest H; [reflexivity |].
  cbn [forallb] in H. apply andb_true_iff in H as [Hc Hw].
  apply negb_true_iff in Hc. cbn [app split_ws_aux]. rewrite Hc.
  rewrite IH by assumption. cbn [rev]. now rewrite <- app_assoc.
Qed.

Lemma split_ws_join : forall ws,
  Forall is_word_of_text ws -> split_ws (join (lit " ") ws) = ws.
Proof.
  unfold split_ws. induction 1 as [| w ws [Hne Hw] Hws IH]; [reflexivity |].
  destruct ws as [| w2 ws].
  - cbn [join]. rewrite <- (app_nil_r w) at 1.
    rewrite split_ws_aux_app_word by assumption.
    cbn [split_ws_aux]. rewrite app_nil_r.
    destruct (rev w) eqn:E.
    + exfalso. apply Hne. rewrite <- (rev_involutive w), E. reflexivity.
    + rewrite <- E, rev_involutive. reflexivity.
  - change (join (lit " ") (w :: w2 :: ws)) with (w ++ lit " " ++ join (lit " ") (w2 :: ws)).
    rewrite split_ws_aux_app_word by assumption. rewrite app_nil_r.
    change (lit " " ++ join (lit " ") (w2 :: ws)) with (" "%char :: join (lit " ") (w2 :: ws)).
    cbn [split_ws_aux]. change (is_space " ") with true. cbv iota.
    destruct (rev w) eqn:E.
    + exfalso. apply Hne. rewrite <- (rev_involutive w), E. reflexivity.
    + rewrite <- E, rev_involutive. f_equal. exact IH.
Qed.

Lemma collapsed_idem : forall s, collapsed (collapsed s) = collapsed s.
Proof.
  intro s. unfold collapsed. now rewrite split_ws_join by apply split_ws_words.
Qed.

Lemma join_cons : forall sep (w : str) ws,
  join sep (w :: ws) = match ws with [] => w | _ => w ++ sep ++ join sep ws end.
Proof. intros sep w [| w2 ws]; reflexivity. Qed.

Lemma space_is_space : is_space " " = true.
Proof. reflexivity. Qed.

Lemma plain_spaces_app : forall a b,
  plain_spaces (a ++ b) = plain_spaces a && plain_spaces b.
Proof. intros a b. unfold plain_spaces. apply forallb_app. Qed.

Lemma word_plain_spaces : forall w,
  forallb (fun c => negb (is_space c)) w = true -> plain_spaces w = true.
Proof.
  intros w H. unfold plain_spaces. rewrite forallb_forall in *.
  intros c Hc. specialize (H c Hc). apply negb_true_iff in H. now rewrite H.
Qed.

Lemma join_plain_spaces : forall ws,
  Forall is_word_of_text ws -> plain_spaces (join (lit " ") ws) = true.
Proof.
  induction 1 as [| w ws [Hne Hw] Hws IH]; [reflexivity |].
  rewrite join_cons. destruct ws as [| w2 ws]; [now apply word_plain_spaces |].
  rewrite !plain_spaces_app, IH, word_plain_spaces by assumption. reflexivity.
Qed.

Lemma single_spaced_cons : forall c s,
  single_spaced (c :: s) =
  match s with
  | d :: _ => negb (is_space c && is_space d) && single_spaced s
  | [] => true
  end.
Proof. intros c [| d s]; reflexivity. Qed.

(** A word, then a text that is single-spaced. *)
Lemma single_spaced_word_app : forall w s,
  forallb (fun c => negb (is_space c)) w = true ->
  single_spaced s = true -> single_spaced (w ++ s) = true.
Proof.
  induction w as [| c w IH]; intros s Hw Hs; [exact Hs |].
  cbn [forallb] in Hw. apply andb_true_iff in Hw as [Hc Hw].
  apply negb_true_iff in Hc.
  cbn [app]. rewrite single_spaced_cons.
  destruct (w ++ s) as [| d t] eqn:E; [reflexivity |].
  rewrite Hc. cbn [andb negb]. rewrite <- E. now apply IH.
Qed.

Lemma join_first_char : forall ws c s,
  Forall is_word_of_text ws -> join (lit " ") ws = c :: s -> is_space c = false.
Proof.
  intros ws c s H E. destruct H as [| w ws [Hne Hw] Hws]; [discriminate |].
  rewrite join_cons in E. destruct w as [| x w]; [congruence |].
  assert (x = c) by (destruct ws; cbn [app] in E; congruence). subst x.
  cbn [forallb] in Hw. apply andb_true_iff in Hw as [Hc _]. now apply negb_true_iff in Hc.
Qed.

Lemma join_single_spaced : forall ws,
  Forall is_word_of_text ws -> single_spaced (join (lit " ") ws) = true.
Proof.
  induction 1 as [| w ws [Hne Hw] Hws IH]; [reflexivity |].
  rewrite join_cons. destruct ws as [| w2 ws].
  - rewrite <- (app_nil_r w). now apply single_spaced_word_app.
  - apply single_spaced_word_app; [assumption |].
    change (lit " " ++ join (lit " ") (w2 :: ws)) with (" "%char :: join (lit " ") (w2 :: ws)).
    rewrite single_spaced_cons.
    destruct (join (lit " ") (w2 :: ws)) as [| d t] eqn:E; [reflexivity |].
    rewrite IH. rewrite (join_first_char (w2 :: ws) d t Hws E). reflexivity.
Qed.

Lemma join_nil : forall ws,
  Forall is_word_of_text ws -> join (lit " ") ws = [] -> ws = [].
Proof.
  intros ws H E. destruct H as [| w ws [Hne Hw] Hws]; [reflexivity |].
  rewrite join_cons in E. destruct ws.
  - contradiction.
  - apply app_eq_nil in E as [E _]. contradiction.
Qed.

Lemma join_last_char : forall ws,
  Forall is_word_of_text ws ->
  forall c s, rev (join (lit " ") ws) = c :: s -> is_space c = false.
Proof.
  induction 1 as [| w ws [Hne Hw] Hws IH]; intros c s E; [discriminate |].
  rewrite join_cons in E. destruct ws as [| w2 ws].
  - rewrite forallb_forall in Hw.
    assert (Hin : In c w) by (apply in_rev; rewrite E; now left).
    specialize (Hw c Hin). now apply negb_true_iff in Hw.
  - rewrite !rev_app_distr in E.
    destruct (rev (join (lit " ") (w2 :: ws))) as [| d t] eqn:E2.
    + exfalso. assert (E3 : join (lit " ") (w2 :: ws) = [])
        by (rewrite <- (rev_involutive (join _ _)), E2; reflexivity).
      apply (join_nil _ Hws) in E3. discriminate.
    + cbn [app] in E. injection E as -> _. eapply IH. reflexivity.
Qed.

Lemma join_split_length : forall s cur,
  length (join (lit " ") (split_ws_aux cur s)) <= length cur + length s.
Proof.
  induction s as [| c s IH]; intro cur; cbn [split_ws_aux].
  - destruct cur; cbn [join length]; [lia |].
    rewrite length_rev. cbn [length]. lia.
  - destruct (is_space c).
    + destruct cur as [| x cur].
      * specialize (IH []). cbn [length] in *. lia.
      * rewrite join_cons. specialize (IH []).
        destruct (split_ws_aux [] s).
        -- rewrite length_rev. cbn [length]. lia.
        -- rewrite !length_app, length_rev. change (length (lit " ")) with 1.
           cbn [length] in *. lia.
    + specialize (IH (c :: cur)). cbn [length] in *. lia.
Qed.

Lemma collapsed_length : forall s, length (collapsed s) <= length s.
Proof. intro s. apply (join_split_length s []). Qed.

Lemma lstrip_split : forall s cur,
  cur = [] -> split_ws_aux cur (lstrip s) = split_ws_aux cur s.
Proof.
  intros s cur ->. induction s as [| c s IH]; [reflexivity |].
  cbn [lstrip]. destruct (is_space c) eqn:Hc; [| reflexivity].
  cbn [split_ws_aux]. now rewrite Hc.
Qed.

Lemma lstrip_spaces : forall s,
  exists sp, s = sp ++ lstrip s /\ forallb is_space sp = true.
Proof.
  induction s as [| c s [sp [E H]]].
  - exists []. auto.
  - cbn [lstrip]. destruct (is_space c) eqn:Hc.
    + exists (c :: sp). cbn [app forallb]. rewrite Hc, H. split; [now f_equal | reflexivity].
    + exists []. auto.
Qed.

Lemma rstrip_spaces : forall s,
  exists sp, s = rstrip s ++ sp /\ forallb is_space sp = true.
Proof.
  intro s. unfold rstrip. destruct (lstrip_spaces (rev s)) as [sp [E H]].
  exists (rev sp). split.
  - rewrite <- rev_app_distr, <- E. now rewrite rev_involutive.
  - rewrite forallb_forall in *. intros c Hc. apply H. now apply in_rev.
Qed.

Lemma split_ws_aux_spaces : forall sp cur,
  forallb is_space sp = true ->
  split_ws_aux cur sp = match cur with [] => [] | _ => [rev cur] end.
Proof.
  induction sp as [| c sp IH]; intros cur H; [reflexivity |].
  cbn [forallb] in H. apply andb_true_iff in H as [Hc H].
  cbn [split_ws_aux]. rewrite Hc. rewrite (IH [] H).
  destruct cur; reflexivity.
Qed.

Lemma split_ws_aux_app_spaces : forall a sp cur,
  forallb is_space sp = true ->
  split_ws_aux cur (a ++ sp) = split_ws_aux cur a.
Proof.
  induction a as [| c a IH]; intros sp cur H.
  - cbn [app split_ws_aux]. now apply split_ws_aux_spaces.
  - cbn [app split_ws_aux]. destruct (is_space c); [destruct cur |]; now rewrite IH.
Qed.

Lemma split_ws_strip : forall s, split_ws (strip s) = split_ws s.
Proof.
  intro s. unfold strip, split_ws.
  destruct (rstrip_spaces (lstrip s)) as [sp [E H]].
  rewrite <- (lstrip_split s []) by reflexivity.
  rewrite E at 2. now rewrite split_ws_aux_app_spaces.
Qed.

Lemma plain_spaces_firstn : forall n s,
  plain_spaces s = true -> plain_spaces (firstn n s) = true.
Proof.
  intros n s H. unfold plain_spaces in *. rewrite forallb_forall in *.
  intros c Hc. apply H. rewrite <- (firstn_skipn n s). apply in_or_app. now left.
Qed.

Lemma single_spaced_firstn : forall n s,
  single_spaced s = true -> single_spaced (firstn n s) = true.
Proof.
  induction n as [| n IH]; intros s H; [reflexivity |].
  destruct s as [| c s]; [reflexivity |].
  cbn [firstn]. rewrite single_spaced_cons in *.
  destruct s as [| d s].
  - now rewrite firstn_nil.
  - apply andb_true_iff in H as [H1 H2]. specialize (IH (d :: s) H2).
    destruct n as [| n]; [reflexivity |].
    cbn [firstn] in *. now rewrite H1, IH.
Qed.

Lemma single_spaced_app_word : forall a w,
  single_spaced a = true ->
  forallb (fun c => negb (is_space c)) w = true ->
  single_spaced (a ++ w) = true.
Proof.
  induction a as [| c a IH]; intros w Ha Hw.
  - cbn [app]. rewrite <- (app_nil_r w). now apply single_spaced_word_app.
  - cbn [app]. rewrite single_spaced_cons in *.
    destruct a as [| d a].
    + cbn [app]. destruct w as [| x w]; [reflexivity |].
      cbn [forallb] in Hw. apply andb_true_iff in Hw as [Hx Hw].
      apply negb_true_iff in Hx. rewrite Hx, andb_false_r. cbn [negb andb].
      rewrite <- (app_nil_r (x :: w)). apply single_spaced_word_app; [| reflexivity].
      cbn [forallb]. now rewrite Hx, Hw.
    + apply andb_true_iff in Ha as [H1 H2].
      cbn [app]. rewrite H1. cbn [andb]. now apply (IH w).
Qed.

Lemma split_ws_aux_nil : forall s cur,
  split_ws_aux cur s = [] <-> cur = [] /\ forallb is_space s = true.
Proof.
  induction s as [| c s IH]; intro cur; cbn [split_ws_aux forallb].
  - destruct cur; split; intro H; try discriminate; auto. destruct H. discriminate.
  - destruct (is_space c).
    + destruct cur.
      * rewrite IH. cbn [andb]. tauto.
      * split; intro H; [discriminate | destruct H; discriminate].
    + rewrite IH. split; intro H; destruct H; discriminate.
Qed.

Lemma collapsed_nil : forall s, collapsed s = [] <-> forallb is_space s = true.
Proof.
  intro s. unfold collapsed. split.
  - intro H. apply (join_nil _ (split_ws_words s)) in H.
    now apply split_ws_aux_nil in H.
  - intro H. unfold split_ws.
    assert (E : split_ws_aux [] s = []) by (apply split_ws_aux_nil; auto).
    now rewrite E.
Qed.

(** Property X1.  The text excerpt is a single line: it has at most
    503 characters, its only white space is the plain space, no two spaces
    follow each other and it does not begin with one; it is empty exactly
    when the text holds nothing but white space. *)
Theorem excerpt_is_one_line : forall text : str,
  let e := Main._create_text_excerpt text in
  length e <= 503 /\
  plain_spaces e = true /\ single_spaced e = true /\
  (forall c e', e = c :: e' -> is_space c = false) /\
  (e = [] <-> forallb is_space text = true).
Proof.
  intro text. cbv zeta. unfold Main._create_text_excerpt.
  fold (collapsed text).
  pose proof (split_ws_words text) as Hw.
  assert (Hp : plain_spaces (collapsed text) = true) by now apply join_plain_spaces.
  assert (Hs : single_spaced (collapsed text) = true) by now apply join_single_spaced.
  assert (Hf : forall c e', collapsed text = c :: e' -> is_space c = false)
    by (intros c e'; now apply join_first_char).
  destruct (Nat.leb_spec (length (collapsed text)) 500) as [Hle | Hgt].
  - split; [lia |]. split; [exact Hp |]. split; [exact Hs |]. split; [exact Hf |].
    apply collapsed_nil.
  - unfold slice. cbn [skipn].
    split; [| split; [| split; [| split]]].
    + rewrite length_app, length_firstn. change (length (lit "...")) with 3. lia.
    + rewrite plain_spaces_app, plain_spaces_firstn by assumption. reflexivity.
    + apply single_spaced_app_word; [now apply single_spaced_firstn | reflexivity].
    + intros c e' E. destruct (collapsed text) as [| x t] eqn:Ec; [cbn in Hgt; lia |].
      cbn [firstn app] in E. injection E as <- _. eapply Hf. reflexivity.
    + split.
      * intro E. apply app_eq_nil in E as [_ E]. discriminate.
      * intro H. apply collapsed_nil in H. rewrite H in Hgt. cbn in Hgt. lia.
Qed.

(** Property X24.  The snippet of a date is the window of 50
    characters before the match and 50 after it, its white space collapsed:
    it has the words of the window with single spaces between them, no white
    space at its ends (the call of strip is redundant) and at most 100
    characters more than the match. *)
Theorem snippet_is_normalised : forall (text : str) (start end_ : nat),
  let window := slice (start - 50) (Nat.min (length text) (end_ + 50)) text in
  let s := Dates._get_context_snippet text start end_ in
  s = collapsed window /\
  split_ws s = split_ws window /\
  collapsed s = s /\
  plain_spaces s = true /\ single_spaced s = true /\
  strip s = s /\
  length s <= (end_ - start) + 100.
Proof.
  intros text start end_. cbv zeta. unfold Dates._get_context_snippet. cbv zeta.
  set (window := slice (start - 50) (Nat.min (length text) (end_ + 50)) text).
  rewrite split_ws_strip. fold (collapsed window).
  pose proof (split_ws_words window) as Hw.
  split; [reflexivity |].
  split; [unfold collapsed; now apply split_ws_join |].
  split; [apply collapsed_idem |].
  split; [now apply join_plain_spaces |].
  split; [now apply join_single_spaced |].
  split.
  - apply strip_id.
    + intros c s'. now apply join_first_char.
    + intros c s'. now apply join_last_char.
  - pose proof (collapsed_length window) as H.
    assert (length window <= (end_ - start) + 100); [| lia].
    unfold window, slice. rewrite length_skipn, length_firstn. lia.
Qed.

(** ** The matcher: where a match and its group stand in the text *)

Lemma segment_refl : forall s, segment s s.
Proof. intro s. exists [], []. now rewrite app_nil_r. Qed.

Lemma segment_trans : forall a b c, segment a b -> segment b c -> segment a c.
Proof.
  intros a b c [x [y ->]] [u [v ->]]. exists (u ++ x), (y ++ v).
  now rewrite <- !app_assoc.
Qed.

Lemma segment_app_l : forall g u v, segment g u -> segment g (u ++ v).
Proof.
  intros g u v [a [b ->]]. exists a, (b ++ v). now rewrite <- !app_assoc.
Qed.

Lemma segment_app_r : forall g u v, segment g v -> segment g (u ++ v).
Proof.
  intros g u v [a [b ->]]. exists (u ++ a), b. now rewrite <- !app_assoc.
Qed.

Lemma segment_In : forall g s c, segment g s -> In c g -> In c s.
Proof.
  intros g s c [a [b ->]] H. apply in_or_app. right. apply in_or_app. now left.
Qed.

Lemma segment_map : forall (f : ascii -> ascii) g s,
  segment g s -> segment (map f g) (map f s).
Proof. intros f g s [a [b ->]]. exists (map f a), (map f b). now rewrite !map_app. Qed.

Lemma group_within_refl : forall st, group_within [] st st.
Proof. intro st. now left. Qed.

Lemma group_within_trans : forall u v st1 st2 st3,
  group_within u st1 st2 -> group_within v st2 st3 -> group_within (u ++ v) st1 st3.
Proof.
  intros u v st1 st2 st3 H1 [H2 | [g [H2 Hg]]].
  - destruct H1 as [H1 | [g [H1 Hg]]].
    + left. congruence.
    + right. exists g. split; [congruence | now apply segment_app_l].
  - right. exists g. split; [exact H2 | now apply segment_app_r].
Qed.

Lemma iter_capture : forall a step greedy lo hi,
  capture_step a step ->
  forall fuel cnt st k out,
    iter step greedy lo hi fuel cnt st k = Some out ->
    exists ws st', Forall (matches a) ws /\ lo <= cnt + length ws /\
                   after (concat ws) st st' /\ group_within (concat ws) st st' /\
                   k st' = Some out.
Proof.
  intros a step greedy lo hi Hstep.
  assert (Hstop : forall cnt st (k : cont) out,
            (if lo <=? cnt then k st else None) = Some out ->
            exists ws st', Forall (matches a) ws /\ lo <= cnt + length ws /\
                           after (concat ws) st st' /\ group_within (concat ws) st st' /\
                           k st' = Some out).
  { intros cnt st k out H. destruct (Nat.leb_spec lo cnt); [| discriminate].
    exists [], st.
    split; [constructor |]. split; [cbn [length]; lia |].
    split; [apply after_refl |]. split; [apply group_within_refl | assumption]. }
  induction fuel as [| f IH]; intros cnt st k out H; cbn [iter] in H.
  - now apply Hstop.
  - cbv zeta in H.
    assert (Hmore : forall o,
      (if below cnt hi
       then step st (fun st' => if length (rest st') <? length (rest st)
                                then iter step greedy lo hi f (S cnt) st' k else None)
       else None) = Some o ->
      exists ws st', Forall (matches a) ws /\ lo <= cnt + length ws /\
                     after (concat ws) st st' /\ group_within (concat ws) st st' /\
                     k st' = Some o).
    { intros o Ho. destruct (below cnt hi); [| discriminate].
      apply Hstep in Ho as [w [st1 [Hw [Ha [Hg Hk]]]]].
      destruct (length (rest st1) <? length (rest st)); [| discriminate].
      apply IH in Hk as [ws [st2 [Hws [Hlo [Ha2 [Hg2 Hk]]]]]].
      exists (w :: ws), st2.
      split; [now constructor |]. split; [cbn [length]; lia |].
      split; [cbn [concat]; eapply after_trans; eassumption |].
      split; [cbn [concat]; eapply group_within_trans; eassumption | exact Hk]. }
    destruct greedy.
    + destruct (if below cnt hi then _ else None) as [o |] eqn:E.
      * injection H as <-. now apply Hmore.
      * now apply Hstop.
    + destruct (if lo <=? cnt then k st else None) as [o |] eqn:E.
      * injection H as <-. now apply Hstop.
      * now apply Hmore.
Qed.

Lemma after_seen_word : forall w st st',
  after w st st' -> rev (firstn (pos st' - pos st) (seen st')) = w.
Proof.
  intros w st st' [_ H]. unfold pos. rewrite H.
  rewrite length_app, length_rev, Nat.add_sub.
  rewrite <- (length_rev w), firstn_app, Nat.sub_diag, firstn_all, firstn_O, app_nil_r.
  apply rev_involutive.
Qed.

Lemma run_capture : forall r, capture_step r (run r).
Proof.
  induction r as [| p | a IHa b IHb | a IHa b IHb | g lo hi a IHa | a IHa | | |];
    intros st k out H; cbn [run] in H.
  - exists [], st. repeat split; auto. apply group_within_refl.
  - destruct (rest st) as [| c s'] eqn:E; [discriminate |].
    destruct (p c) eqn:Hp; [| discriminate].
    exists [c], (MState (c :: seen st) s' (grp st)). split; [exists c; auto |].
    split; [split; cbn [rest seen]; [exact E | reflexivity] |].
    split; [now left | exact H].
  - apply IHa in H as [u [st1 [Hu [Ha [Hg H]]]]].
    apply IHb in H as [v [st2 [Hv [Hb [Hg2 H]]]]].
    exists (u ++ v), st2. split; [exists u, v; auto |].
    split; [eapply after_trans; eassumption |].
    split; [eapply group_within_trans; eassumption | exact H].
  - destruct (run a st k) as [o |] eqn:E.
    + injection H as <-. apply IHa in E as [w [st' [Hw [Ha [Hg Hk]]]]].
      exists w, st'. cbn [matches]. auto.
    + apply IHb in H as [w [st' [Hw [Ha [Hg Hk]]]]].
      exists w, st'. cbn [matches]. auto.
  - apply (iter_capture a (run a) g lo hi IHa) in H as [ws [st' [Hws [Hlo [Ha [Hg Hk]]]]]].
    exists (concat ws), st'. split; [| auto].
    exists ws. repeat split; auto.
  - apply IHa in H as [w [st' [Hw [Ha [Hg Hk]]]]].
    exists w. eexists. split; [exact Hw |]. split; [| split; [| exact Hk]].
    + destruct Ha as [H1 H2]. split; cbn [rest seen]; assumption.
    + right. cbn [grp]. rewrite (after_seen_word w st st' Ha).
      exists w. split; [reflexivity | apply segment_refl].
  - destruct (xorb _ _); [| discriminate]. exists [], st. repeat split; auto.
    apply group_within_refl.
  - destruct (seen st); [| discriminate]. exists [], st. repeat split; auto.
    apply group_within_refl.
  - destruct (at_eol st); [| discriminate]. exists [], st. repeat split; auto.
    apply group_within_refl.
Qed.

Lemma match_here_in : forall r sn rs m,
  match_here r sn rs = Some m -> match_in r (rev sn ++ rs) m.
Proof.
  intros r sn rs m H. unfold match_here in H.
  destruct (run r (MState sn rs None) Some) as [st' |] eqn:E; [| discriminate].
  injection H as <-.
  apply run_capture in E as [w [st1 [Hw [Ha [Hg Hk]]]]]. injection Hk as ->.
  pose proof (after_seen_word w _ _ Ha) as Hword.
  change (pos (MState sn rs None)) with (length sn) in Hword.
  destruct Ha as [H1 H2]. cbn [rest seen] in H1, H2.
  exists (rev sn), (rest st'). cbn [group0 m_start m_end group1].
  rewrite Hword. repeat split.
  - now rewrite H1.
  - now rewrite length_rev.
  - unfold pos. rewrite H2, length_app, !length_rev. lia.
  - exact Hw.
  - intros g Eg. destruct Hg as [Hg | [g' [Hg Hs]]]; cbn [grp] in Hg.
    + congruence.
    + rewrite Hg in Eg. now injection Eg as <-.
Qed.

Lemma finditer_aux_in : forall r rs sn skip m,
  In m (finditer_aux r sn rs skip) -> match_in r (rev sn ++ rs) m.
Proof.
  intros r. induction rs as [| c rs IH]; intros sn skip m H.
  - destruct skip; cbn [finditer_aux] in H; [| destruct H].
    destruct (match_here r sn []) as [m' |] eqn:E; [| destruct H].
    destruct H as [<- | []]. eapply match_here_in, E.
  - assert (Hrec : forall n, In m (finditer_aux r (c :: sn) rs n) ->
                             match_in r (rev sn ++ c :: rs) m).
    { intros n Hn. apply IH in Hn. cbn [rev] in Hn. now rewrite <- app_assoc in Hn. }
    destruct skip; cbn [finditer_aux] in H.
    + destruct (match_here r sn (c :: rs)) as [m' |] eqn:E.
      * destruct H as [<- | H]; [eapply match_here_in, E | eapply Hrec, H].
      * eapply Hrec, H.
    + eapply Hrec, H.
Qed.

Lemma finditer_in : forall r s m, In m (finditer r s) -> match_in r s m.
Proof. intros r s m H. apply (finditer_aux_in r s [] 0 m H). Qed.

Lemma search_aux_in : forall r rs sn m,
  search_aux r sn rs = Some m -> match_in r (rev sn ++ rs) m.
Proof.
  intros r. induction rs as [| c rs IH]; intros sn m H; cbn [search_aux] in H.
  - destruct (match_here r sn []) as [m' |] eqn:E; [| discriminate].
    injection H as <-. eapply match_here_in, E.
  - destruct (match_here r sn (c :: rs)) as [m' |] eqn:E.
    + injection H as <-. eapply match_here_in, E.
    + apply IH in H. cbn [rev] in H. now rewrite <- app_assoc in H.
Qed.

Lemma search_in : forall r s m, search r s = Some m -> match_in r s m.
Proof. intros r s m H. apply (search_aux_in r s [] m H). Qed.

Lemma match_in_group0 : forall r s m, match_in r s m -> segment (group0 m) s.
Proof. intros r s m [pre [post [E _]]]. now exists pre, post. Qed.

Lemma match_in_group1_or_0 : forall r s m, match_in r s m -> segment (group1_or_0 m) s.
Proof.
  intros r s m H. pose proof (match_in_group0 r s m H) as H0.
  destruct H as [pre [post [E [_ [_ [_ Hg]]]]]].
  unfold group1_or_0. destruct (group1 m) as [g |]; [| exact H0].
  eapply segment_trans; [apply Hg; reflexivity | exact H0].
Qed.

Lemma findall_segment : forall r s w, In w (findall r s) -> segment w s.
Proof.
  intros r s w H. unfold findall in H.
  destruct (has_group r); apply in_map_iff in H as [m [<- Hm]];
    apply finditer_in in Hm.
  - pose proof (match_in_group0 r s m Hm) as H0.
    destruct Hm as [pre [post [E [_ [_ [_ Hg]]]]]].
    destruct (group1 m) as [g |].
    + eapply segment_trans; [apply Hg; reflexivity | exact H0].
    + exists [], s. reflexivity.
  - eapply match_in_group0, Hm.
Qed.

(** ** What is returned stands in the text *)

Lemma starts_with_prefix : forall p s,
  starts_with p s = true <-> exists t, s = p ++ t.
Proof.
  induction p as [| x p IH]; intro s; cbn [starts_with].
  - split; [intros _; now exists s | reflexivity].
  - destruct s as [| y s].
    + split; [discriminate | intros [t E]; discriminate].
    + rewrite andb_true_iff, eqb_char_true, IH. split.
      * intros [-> [t ->]]. now exists t.
      * intros [t E]. injection E as -> ->. split; [reflexivity | now exists t].
Qed.

Lemma contains_segment : forall sub s, contains sub s = true <-> segment sub s.
Proof.
  intros sub. induction s as [| c s IH]; cbn [contains].
  - rewrite orb_false_r, starts_with_prefix. split.
    + intros [t E]. now exists [], t.
    + intros [a [b E]]. symmetry in E. apply app_eq_nil in E as [-> E].
      apply app_eq_nil in E as [-> ->]. now exists [].
  - rewrite orb_true_iff, starts_with_prefix, IH. split.
    + intros [[t E] | [a [b E]]].
      * now exists [], t.
      * exists (c :: a), b. cbn [app]. now f_equal.
    + intros [[| x a] [b E]].
      * left. now exists b.
      * right. cbn [app] in E. injection E as _ E. now exists a, b.
Qed.

Lemma contains_mono : forall sub s s',
  segment s s' -> contains sub s = true -> contains sub s' = true.
Proof.
  intros sub s s' Hs H. apply contains_segment. apply contains_segment in H.
  eapply segment_trans; eassumption.
Qed.

Lemma contains_false_mono : forall sub s s',
  segment s s' -> contains sub s' = false -> contains sub s = false.
Proof.
  intros sub s s' Hs H. destruct (contains sub s) eqn:E; [| reflexivity].
  rewrite (contains_mono sub s s' Hs E) in H. discriminate.
Qed.

Lemma lstrip_segment : forall s, segment (lstrip s) s.
Proof.
  intro s. destruct (lstrip_spaces s) as [sp [E _]].
  exists sp, []. now rewrite app_nil_r.
Qed.

Lemma rstrip_segment : forall s, segment (rstrip s) s.
Proof.
  intro s. destruct (rstrip_spaces s) as [sp [E _]].
  exists [], sp. exact E.
Qed.

Lemma strip_segment : forall s, segment (strip s) s.
Proof.
  intro s. unfold strip. eapply segment_trans; [apply rstrip_segment | apply lstrip_segment].
Qed.

Lemma split_on_aux_segment : forall sep s cur line,
  In line (split_on_aux sep cur s) -> segment line (rev cur ++ s).
Proof.
  intros sep. induction s as [| c s IH]; intros cur line H; cbn [split_on_aux] in H.
  - destruct H as [<- | []]. rewrite app_nil_r. apply segment_refl.
  - destruct (eqb_char c sep).
    + destruct H as [<- | H].
      * exists [], (c :: s). reflexivity.
      * apply IH in H. cbn [rev app] in H. apply segment_app_r.
        change (c :: s) with ([c] ++ s). now apply segment_app_r.
    + apply IH in H. cbn [rev] in H. now rewrite <- app_assoc in H.
Qed.

Lemma split_on_segment : forall sep s line,
  In line (split_on sep s) -> segment line s.
Proof. intros sep s line H. apply (split_on_aux_segment sep s [] line H). Qed.

Lemma upper_lower_char : forall c, upper_char (lower_char c) = upper_char c.
Proof. intro c. each_char c. Qed.

Lemma lower_upper_char : forall c, lower_char (upper_char c) = lower_char c.
Proof. intro c. each_char c. Qed.

Lemma lower_lower_char : forall c, lower_char (lower_char c) = lower_char c.
Proof. intro c. each_char c. Qed.

Lemma upper_lower : forall s, upper (lower s) = upper s.
Proof.
  intro s. unfold upper, lower. rewrite map_map. apply map_ext, upper_lower_char.
Qed.

Lemma lower_lower : forall s, lower (lower s) = lower s.
Proof.
  intro s. unfold lower. rewrite map_map. apply map_ext, lower_lower_char.
Qed.

Lemma segment_upper : forall g s, segment g s -> segment (upper g) (upper s).
Proof. intros g s. apply segment_map. Qed.

Lemma segment_lower : forall g s, segment g s -> segment (lower g) (lower s).
Proof. intros g s. apply segment_map. Qed.

(** ** Invoice provenance *)

Lemma anchored_candidate_segment : forall line_lower p r,
  Invoice.anchored_candidate line_lower p = Some r ->
  exists g, segment g line_lower /\ r = upper g.
Proof.
  intros line_lower p r H. unfold Invoice.anchored_candidate in H.
  destruct (search p line_lower) as [m |] eqn:E; [| discriminate].
  destruct (group1 m) as [g |] eqn:Eg; [| discriminate].
  destruct (Invoice._is_valid_invoice_number g); [| discriminate].
  injection H as <-. exists g. split; [| reflexivity].
  apply search_in in E. pose proof (match_in_group1_or_0 _ _ _ E) as H.
  unfold group1_or_0 in H. now rewrite Eg in H.
Qed.

Lemma extract_from_line_segment : forall line,
  segment (Invoice._extract_from_line line) (upper line).
Proof.
  intro line. unfold Invoice._extract_from_line. cbv zeta.
  destruct (first_some _ Invoice.line_patterns) as [r |] eqn:E.
  - apply first_some_Some in E as [p [_ Hp]].
    apply anchored_candidate_segment in Hp as [g [Hg ->]].
    rewrite <- (upper_lower line). now apply segment_upper.
  - destruct (contains _ _); [| exists [], (upper line); reflexivity].
    destruct (first_some _ (findall _ _)) as [r |] eqn:E2;
      [| exists [], (upper line); reflexivity].
    apply first_some_Some in E2 as [w [Hw Hr]].
    unfold Invoice.standalone_candidate in Hr.
    destruct (Invoice._is_valid_invoice_number w); [| discriminate].
    injection Hr as <-. apply segment_upper. eapply findall_segment, Hw.
Qed.

(** Property X14.  The invoice number returned for an ASCII text stands
    in the text, letter case apart: it is a run of consecutive characters of
    the text put in upper case. *)
Theorem invoice_number_comes_from_text :
  forall (self : Invoice.InvoiceExtractor) (text : str),
    ascii_text text ->
    segment (Invoice.extract_invoice_number self text) (upper text).
Proof.
  intros self text _. unfold Invoice.extract_invoice_number. cbv zeta.
  destruct (first_some Invoice.line_candidate _) as [r |] eqn:E.
  - apply first_some_Some in E as [line [Hl Hr]].
    unfold Invoice.line_candidate in Hr.
    destruct (Invoice.has_keyword line); [| discriminate].
    pose proof (extract_from_line_segment line) as Hs.
    destruct (Invoice._extract_from_line line) as [| c r'] eqn:Er; [discriminate |].
    injection Hr as <-.
    eapply segment_trans; [exact Hs |]. apply segment_upper.
    eapply split_on_segment, Hl.
  - destruct (first_some _ (Invoice.invoice_patterns self)) as [r |] eqn:E2;
      [| exists [], (upper text); reflexivity].
    apply first_some_Some in E2 as [p [_ Hp]].
    apply first_some_Some in Hp as [m [Hm Hr]].
    unfold Invoice.full_text_candidate in Hr. cbv zeta in Hr.
    destruct (Invoice._is_valid_invoice_number _); [| discriminate].
    injection Hr as <-. rewrite <- (upper_lower text). apply segment_upper.
    eapply match_in_group1_or_0, finditer_in, Hm.
Qed.

Lemma invoice_number_comes_from_text_witness :
  segment (Invoice.extract_invoice_number Invoice.init (lit "Invoice #: inv-2024-001"))
          (upper (lit "Invoice #: inv-2024-001")).
Proof.
  apply (invoice_number_comes_from_text Invoice.init (lit "Invoice #: inv-2024-001")).
  reflexivity.
Defined.

(** ** Keywords of a pattern *)

Lemma matches_seqs_cons : forall r rs w,
  matches (seqs (r :: rs)) w ->
  exists u v, w = u ++ v /\ matches r u /\ matches (seqs rs) v.
Proof.
  intros r [| r2 rs] w H.
  - exists w, []. rewrite app_nil_r. repeat split; auto.
  - exact H.
Qed.

Lemma ci_eqb_lower : forall c x,
  ci (eqb_char c) x = true -> lower_char x = lower_char c.
Proof.
  intros c x H. unfold ci in H. apply orb_true_iff in H as [H | H];
    apply eqb_char_true in H; subst c.
  - now rewrite lower_lower_char.
  - now rewrite lower_upper_char.
Qed.

Lemma matches_chars_ci : forall cs w,
  matches (seqs (map (chr true) cs)) w -> lower w = lower cs.
Proof.
  induction cs as [| c cs IH]; intros w H.
  - cbn in H. now subst w.
  - cbn [map] in H. apply matches_seqs_cons in H as [u [v [-> [Hu Hv]]]].
    destruct Hu as [x [-> Hx]]. apply ci_eqb_lower in Hx.
    cbn [app lower map]. rewrite Hx. f_equal. apply IH, Hv.
Qed.

Lemma matches_chars : forall cs w,
  matches (seqs (map (chr false) cs)) w -> w = cs.
Proof.
  induction cs as [| c cs IH]; intros w H.
  - cbn in H. now subst w.
  - cbn [map] in H. apply matches_seqs_cons in H as [u [v [-> [Hu Hv]]]].
    destruct Hu as [x [-> Hx]]. apply eqb_char_true in Hx. subst x.
    cbn [app]. f_equal. apply IH, Hv.
Qed.

Lemma matches_word_ci : forall k w, matches (word true k) w -> lower w = lower (lit k).
Proof. intros k w. apply matches_chars_ci. Qed.

Lemma matches_word : forall k w, matches (word false k) w -> w = lit k.
Proof. intros k w. apply matches_chars. Qed.

Lemma keyword_prefix_ci : forall k rs w,
  matches (seqs (word true k :: rs)) w -> segment (lower (lit k)) (lower w).
Proof.
  intros k rs w H. apply matches_seqs_cons in H as [u [v [-> [Hu _]]]].
  apply matches_word_ci in Hu. exists [], (lower v).
  unfold lower in *. rewrite map_app, Hu. reflexivity.
Qed.

Lemma invoice_or_inv_prefix : forall rs w,
  matches (seqs (Invoice.invoice_or_inv :: rs)) w -> segment (lit "inv") (lower w).
Proof.
  intros rs w H. apply matches_seqs_cons in H as [u [v [-> [Hu _]]]].
  unfold lower. rewrite map_app. apply segment_app_l. fold (lower u).
  destruct Hu as [Hu | Hu]; apply matches_word_ci in Hu; rewrite Hu.
  - exists [], (lit "oice"). reflexivity.
  - apply segment_refl.
Qed.

Lemma invoice_patterns_keyword : forall p w,
  In p (Invoice.invoice_patterns Invoice.init) -> matches p w ->
  segment (lit "inv") (lower w) \/ segment (lit "bill") (lower w).
Proof.
  intros p w Hp Hw.
  assert (Hinvoice : segment (lit "inv") (lower (lit "invoice")))
    by (exists [], (lit "oice"); reflexivity).
  cbn [Invoice.invoice_patterns Invoice.init In] in Hp.
  unfold Invoice.keyword_code, Invoice.keyword_number_code, Invoice.keyword_mark_code, py in Hp.
  repeat (destruct Hp as [<- | Hp];
          [first [ left; eapply segment_trans;
                     [exact Hinvoice | eapply keyword_prefix_ci, Hw]
                 | left; eapply (keyword_prefix_ci "inv"), Hw
                 | left; eapply invoice_or_inv_prefix, Hw
                 | right; eapply (keyword_prefix_ci "bill"), Hw ] |]).
  destruct Hp.
Qed.

Lemma has_keyword_false : forall text line,
  contains (lit "inv") (lower text) = false ->
  contains (lit "bill") (lower text) = false ->
  In line (split_on newline text) -> Invoice.has_keyword line = false.
Proof.
  intros text line H1 H2 Hl. unfold Invoice.has_keyword. cbv zeta.
  assert (Hs : segment (strip (lower line)) (lower text)).
  { eapply segment_trans; [apply strip_segment |].
    apply segment_lower. eapply split_on_segment, Hl. }
  rewrite (contains_false_mono _ _ _ Hs H1), (contains_false_mono _ _ _ Hs H2).
  rewrite !orb_false_r.
  destruct (contains (lit "invoice") _) eqn:E; [| reflexivity].
  apply contains_segment in E.
  assert (Hinv : contains (lit "inv") (lower text) = true).
  { apply contains_segment. eapply segment_trans; [| exact Hs].
    eapply segment_trans; [| exact E]. exists [], (lit "oice"). reflexivity. }
  congruence.
Qed.

(** Property X13.  An ASCII text that holds neither inv nor
    bill, letter case apart, has no invoice number. *)
Theorem no_keyword_no_invoice_number : forall text : str,
  ascii_text text ->
  contains (lit "inv") (lower text) = false ->
  contains (lit "bill") (lower text) = false ->
  Invoice.extract_invoice_number Invoice.init text = [].
Proof.
  intros text _ H1 H2. unfold Invoice.extract_invoice_number. cbv zeta.
  assert (E1 : first_some Invoice.line_candidate (split_on newline text) = None).
  { apply first_some_None. intros line Hl. unfold Invoice.line_candidate.
    now rewrite (has_keyword_false text line H1 H2 Hl). }
  rewrite E1.
  assert (E2 : first_some
                 (fun pattern => first_some Invoice.full_text_candidate
                                   (finditer pattern (lower text)))
                 (Invoice.invoice_patterns Invoice.init) = None).
  { apply first_some_None. intros p Hp. apply first_some_None. intros m Hm.
    exfalso. apply finditer_in in Hm.
    pose proof (match_in_group0 _ _ _ Hm) as Hs.
    destruct Hm as [_ [_ [_ [_ [_ [Hw _]]]]]].
    apply segment_lower in Hs. rewrite lower_lower in Hs.
    destruct (invoice_patterns_keyword p _ Hp Hw) as [H | H].
    - assert (contains (lit "inv") (lower text) = true)
        by (apply contains_segment; eapply segment_trans; eassumption).
      congruence.
    - assert (contains (lit "bill") (lower text) = true)
        by (apply contains_segment; eapply segment_trans; eassumption).
      congruence. }
  now rewrite E2.
Qed.

Lemma no_keyword_no_invoice_number_witness :
  Invoice.extract_invoice_number Invoice.init (lit "Order AB-1234 paid in full: 12345") = [].
Proof.
  apply no_keyword_no_invoice_number; reflexivity.
Defined.

(** ** Amounts come from digits of the text *)

Lemma clean_amount_chars : forall raw c x,
  Currency._clean_amount raw = Some c -> In x c -> In x raw.
Proof.
  intros raw c x H Hx. unfold Currency._clean_amount in H.
  destruct raw as [| r0 raw']; [discriminate |]. cbv zeta in H.
  destruct (filter _ _) as [| c0 c'] eqn:E; [discriminate |].
  injection H as <-. rewrite <- E in Hx. apply filter_In in Hx as [Hx _].
  apply (segment_In _ _ _ (strip_segment _)) in Hx.
  unfold Currency.remove_symbols in Hx. now apply filter_In in Hx as [Hx _].
Qed.

Lemma lower_char_digit : forall c, is_digit (lower_char c) = is_digit c.
Proof. intro c. each_char c. Qed.

Lemma validated_digit : forall self text m c,
  In m (SpecTotal.amount_matches self text) -> SpecTotal.validated m = Some c ->
  existsb is_digit text = true.
Proof.
  intros self text m c Hm Hv. unfold SpecTotal.amount_matches in Hm.
  apply in_flat_map in Hm as [p [_ Hm]]. apply finditer_in in Hm.
  apply match_in_group1_or_0 in Hm.
  unfold SpecTotal.validated in Hv.
  destruct (Currency._clean_amount (group1_or_0 m)) as [c' |] eqn:Ec; [| discriminate].
  destruct (Currency._is_valid_amount c') eqn:Ev; [| discriminate].
  injection Hv as ->.
  rewrite is_valid_amount_eq in Ev.
  apply andb_true_iff in Ev as [Ev _]. apply andb_true_iff in Ev as [Ev _].
  apply andb_true_iff in Ev as [Ev _].
  apply existsb_exists in Ev as [x [Hx Hd]].
  apply (clean_amount_chars _ _ _ Ec) in Hx.
  apply (segment_In _ _ _ Hm) in Hx.
  unfold lower in Hx. apply in_map_iff in Hx as [y [<- Hy]].
  rewrite lower_char_digit in Hd.
  apply existsb_exists. now exists y.
Qed.

(** Property X12.  A text without any digit has no total and no
    other amount. *)
Theorem no_digit_no_amount :
  forall (self : Currency.CurrencyExtractor) (text : str),
    existsb is_digit text = false ->
    Currency.extract_amounts self text
      = {| Currency.total := []; Currency.other_amounts := [] |}.
Proof.
  intros self text H.
  assert (E : Currency._find_all_amounts self text = []).
  { destruct (Currency._find_all_amounts self text) as [| a l] eqn:E; [reflexivity |].
    assert (Ha : In a (Currency._find_all_amounts self text)) by (rewrite E; now left).
    apply find_all_amounts_In in Ha as [m [c [Hm [Hv _]]]].
    rewrite (validated_digit self text m c Hm Hv) in H. discriminate. }
  unfold Currency.extract_amounts. cbv zeta. now rewrite E.
Qed.

Lemma no_digit_no_amount_witness :
  Currency.extract_amounts Currency.init (lit "Total due: $ ,. USD")
    = {| Currency.total := []; Currency.other_amounts := [] |}.
Proof. apply no_digit_no_amount. reflexivity. Defined.

(** ** Vendor provenance *)

Lemma candidates_segment : forall self text c,
  In c (Vendor.candidates_of self text) -> segment c text /\ c <> [].
Proof.
  intros self text c H. unfold Vendor.candidates_of in H.
  destruct vendor_patterns_strip_proof as [H1 [H2 [H3 H4]]].
  apply in_app_or in H as [H | H];
    [| apply in_app_or in H as [H | H]; [| apply in_app_or in H as [H | H]]].
  - unfold Vendor._find_near_keywords in H.
    apply in_flat_map in H as [kw [_ H]]. apply in_flat_map in H as [m [Hm H]].
    split; [| now apply (findall_strip _ _ _ H1 H)].
    eapply segment_trans; [eapply findall_segment, H |].
    eapply match_in_group0, finditer_in, Hm.
  - unfold Vendor._find_title_case_names in H. apply filter_In in H as [H _].
    split; [eapply findall_segment, H | now apply (findall_strip _ _ _ H2 H)].
  - unfold Vendor._find_all_caps_names in H. apply filter_In in H as [H _].
    split; [eapply findall_segment, H | now apply (findall_strip _ _ _ H3 H)].
  - unfold Vendor._find_company_suffixes in H.
    apply in_flat_map in H as [p [Hp H]].
    rewrite forallb_forall in H4.
    split; [eapply findall_segment, H | now apply (findall_strip _ _ _ (H4 p Hp) H)].
Qed.

Lemma extract_vendor_In : forall self text,
  Vendor.candidates_of self text <> [] ->
  In (Vendor.extract_vendor self text) (Vendor.candidates_of self text).
Proof.
  intros self text Hne. unfold Vendor.extract_vendor. cbv zeta.
  remember (Vendor.candidates_of self text) as cands eqn:Ec.
  destruct cands as [| c0 cs]; [congruence |].
  unfold Vendor._select_best_candidate.
  remember (c0 :: cs) as L eqn:EL.
  assert (HP := sorted_desc_by_perm (str * Z) Z snd Z.leb
                  (map (fun c => (c, Vendor._score_candidate self c)) L)).
  destruct (sorted_desc_by snd Z.leb _) as [| [b sc] t] eqn:Es.
  - apply Permutation_nil in HP. rewrite EL in HP. discriminate.
  - assert (Hin : In (b, sc) (map (fun c => (c, Vendor._score_candidate self c)) L))
      by (eapply Permutation_in; [exact HP | now left]).
    apply in_map_iff in Hin as [c [Hc Hin]]. injection Hc as -> _.
    assert (Hb : strip b = b) by (apply (candidates_strip self text); now rewrite <- Ec).
    now rewrite Hb.
Qed.

(** Property X15.  The vendor name returned stands in the text
    as it is written, it has no white space at its ends, and it is empty
    exactly when the four methods find no candidate. *)
Theorem vendor_comes_from_text :
  forall (self : Vendor.VendorExtractor) (text : str),
    segment (Vendor.extract_vendor self text) text /\
    (Vendor.extract_vendor self text = [] <-> Vendor.candidates_of self text = []) /\
    strip (Vendor.extract_vendor self text) = Vendor.extract_vendor self text.
Proof.
  intros self text.
  destruct (Vendor.candidates_of self text) as [| c0 cs] eqn:Ec.
  - unfold Vendor.extract_vendor. cbv zeta. rewrite Ec.
    split; [exists [], text; reflexivity |]. split; [tauto | reflexivity].
  - assert (Hin : In (Vendor.extract_vendor self text) (Vendor.candidates_of self text))
      by (apply extract_vendor_In; rewrite Ec; discriminate).
    destruct (candidates_segment self text _ Hin) as [Hs Hne].
    split; [exact Hs |]. split.
    + split; [intro E; contradiction | discriminate].
    + now apply (candidates_strip self text).
Qed.

(** ** Dates: the findings *)

Lemma fold_left_invariant : forall (A B : Type) (P : A -> Prop) (f : A -> B -> A) l init,
  P init -> (forall acc x, In x l -> P acc -> P (f acc x)) -> P (fold_left f l init).
Proof.
  intros A B P f. induction l as [| x l IH]; intros init H0 Hstep; [exact H0 |].
  cbn [fold_left]. apply IH.
  - apply Hstep; [now left | exact H0].
  - intros acc y Hy. apply Hstep. now right.
Qed.

Lemma parse_date_Some : forall parse s dt,
  Dates._parse_date parse s = Some dt ->
  parse (strip s) = Some dt /\ (1900 <= Dates.year dt <= 2100)%Z.
Proof.
  intros parse s dt H. unfold Dates._parse_date in H. cbv zeta in H.
  destruct (parse (strip s)) as [p |]; [| discriminate].
  destruct (andb _ _) eqn:E; [| discriminate].
  injection H as <-. apply andb_true_iff in E as [E1 E2].
  split; [reflexivity | lia].
Qed.

Lemma match_in_bounds : forall r s m,
  match_in r s m -> m_start m <= m_end m <= length s.
Proof.
  intros r s m [pre [post [E [H1 [H2 _]]]]].
  rewrite E, H1, H2, !length_app. lia.
Qed.

Lemma length_lower : forall s, length (lower s) = length s.
Proof. intro s. apply length_map. Qed.

Section DateFacts.
Variable dateutil_parse : str -> option Dates.datetime.
Variable self : Dates.DateExtractor.
Variable text : str.

Lemma add_labelled_parsed : forall entry p m dates,
  In entry (Dates.date_patterns self) ->
  In m (finditer p (lower text)) ->
  Forall (SpecFinding.from_label dateutil_parse self text) dates ->
  Forall (SpecFinding.from_label dateutil_parse self text)
         (Dates.add_labelled dateutil_parse text (fst entry) dates m).
Proof.
  intros entry p m dates He Hm H. unfold Dates.add_labelled. cbv zeta.
  destruct (Dates._parse_date dateutil_parse (group1_or_0 m)) as [dt |] eqn:E; [| exact H].
  apply Forall_app. split; [exact H |]. constructor; [| constructor].
  apply parse_date_Some in E as [E1 E2]. apply finditer_in in Hm.
  split.
  - exists dt, (m_start m), (m_end m). cbn [Dates.raw_date Dates.formatted_date Dates.snippet].
    split; [exact E1 |]. split; [exact E2 |]. split; [reflexivity |].
    split; [| split; [| reflexivity]].
    + rewrite <- (lower_lower text). apply segment_lower.
      eapply match_in_group1_or_0, Hm.
    + rewrite <- (length_lower text). eapply match_in_bounds, Hm.
  - split; [reflexivity |]. exists entry. auto.
Qed.

Lemma labelled_dates_parsed :
  Forall (SpecFinding.from_label dateutil_parse self text)
         (SpecFinding.labelled_dates dateutil_parse self text).
Proof.
  unfold SpecFinding.labelled_dates.
  apply fold_left_invariant; [constructor |].
  intros acc entry He Hacc.
  apply fold_left_invariant; [exact Hacc |].
  intros acc2 p Hp Hacc2.
  apply fold_left_invariant; [exact Hacc2 |].
  intros acc3 m Hm Hacc3. eapply add_labelled_parsed; eassumption.
Qed.

Lemma app_snoc_cases : forall (A : Type) (l1 l2 acc : list A) (d0 d : A),
  l1 ++ d0 :: l2 = acc ++ [d] ->
  (l2 = [] /\ l1 = acc /\ d0 = d) \/
  (exists l2', l2 = l2' ++ [d] /\ acc = l1 ++ d0 :: l2').
Proof.
  intros A l1 l2 acc d0 d E.
  destruct l2 as [| x l2] using rev_ind.
  - left. apply app_inj_tail in E as [E1 E2]. auto.
  - clear IHl2. right. exists l2.
    change (l1 ++ d0 :: l2 ++ [x]) with (l1 ++ (d0 :: l2) ++ [x]) in E.
    rewrite app_assoc in E. apply app_inj_tail in E as [E1 E2]. subst. auto.
Qed.

Lemma add_generic_grown : forall dates p m acc,
  In m (finditer p text) ->
  SpecFinding.generic_grown dateutil_parse text dates acc ->
  SpecFinding.generic_grown dateutil_parse text dates
    (Dates.add_generic dateutil_parse text acc m).
Proof.
  intros dates p m acc Hm [extra [-> [Hex Hnew]]]. unfold Dates.add_generic. cbv zeta.
  destruct (existsb _ _) eqn:Eb; [exists extra; auto |].
  destruct (Dates._parse_date dateutil_parse (group0 m)) as [dt |] eqn:E;
    [| exists extra; auto].
  apply parse_date_Some in E as [E1 E2]. apply finditer_in in Hm.
  eexists (extra ++ [_]). split; [now rewrite app_assoc |]. split.
  - apply Forall_app. split; [exact Hex |]. constructor; [| constructor].
    split; [| split; reflexivity].
    exists dt, (m_start m), (m_end m). cbn [Dates.raw_date Dates.formatted_date Dates.snippet].
    split; [exact E1 |]. split; [exact E2 |]. split; [reflexivity |].
    split; [| split; [| reflexivity]].
    + apply segment_lower. eapply match_in_group0, Hm.
    + eapply match_in_bounds, Hm.
  - intro Hd. specialize (Hnew Hd). intros l1 d l2 El Hg d' Hd'.
    symmetry in El.
    apply app_snoc_cases in El as [[-> [-> ->]] | [l2' [-> El]]].
    + unfold SpecFinding.same_raw. cbn [Dates.raw_date]. intro Hsame.
      assert (Hex' : existsb (fun d0 => PyStr.eqb (lower (Dates.raw_date d0)) (lower (group0 m)))
                       (dates ++ extra) = true).
      { apply existsb_exists. exists d'. split; [exact Hd' |]. now apply eqb_true. }
      congruence.
    + eapply Hnew; eassumption.
Qed.

Lemma generic_fold_grown : forall dates,
  SpecFinding.generic_grown dateutil_parse text dates
    (fold_left
       (fun dates pattern => fold_left (Dates.add_generic dateutil_parse text)
                               (finditer pattern text) dates)
       (Dates.generic_patterns self) dates).
Proof.
  intro dates.
  apply (fold_left_invariant _ _ (SpecFinding.generic_grown dateutil_parse text dates)).
  - exists []. rewrite app_nil_r. auto.
  - intros acc p Hp Hacc.
    apply (fold_left_invariant _ _ (SpecFinding.generic_grown dateutil_parse text dates));
      [exact Hacc |].
    intros acc2 m Hm Hacc2. eapply add_generic_grown; eassumption.
Qed.

Lemma labelled_is_new : forall dates,
  Forall (SpecFinding.from_label dateutil_parse self text) dates ->
  SpecFinding.generic_is_new dates.
Proof.
  intros dates H l1 d l2 E [Hg _]. exfalso.
  rewrite Forall_forall in H.
  assert (Hin : In d dates) by (rewrite E; apply in_or_app; right; now left).
  destruct (H d Hin) as [_ [Hc _]]. congruence.
Qed.

Lemma found_dates_structure :
  let found := SpecFinding.labelled_dates dateutil_parse self text in
  exists extra,
    Dates.found_dates dateutil_parse self text = found ++ extra /\
    Forall (SpecFinding.from_label dateutil_parse self text) found /\
    Forall (SpecFinding.from_generic dateutil_parse text) extra /\
    (extra <> [] -> length found < 3) /\
    SpecFinding.generic_is_new (found ++ extra).
Proof.
  pose proof labelled_dates_parsed as HL.
  unfold Dates.found_dates. cbv zeta.
  fold (SpecFinding.labelled_dates dateutil_parse self text).
  set (found := SpecFinding.labelled_dates dateutil_parse self text) in *.
  destruct (Nat.ltb_spec (length found) 3) as [Hlt | Hge].
  - destruct (generic_fold_grown found) as [extra [E [Hex Hnew]]].
    exists extra. rewrite E. split; [reflexivity |]. split; [exact HL |].
    split; [exact Hex |]. split; [intros _; exact Hlt |].
    rewrite <- E. apply Hnew. now apply labelled_is_new.
  - exists []. rewrite app_nil_r. split; [reflexivity |]. split; [exact HL |].
    split; [constructor |]. split; [congruence |]. now apply labelled_is_new.
Qed.

End DateFacts.

Lemma extract_dates_found : forall parse self text d,
  In d (Dates.extract_dates parse self text) -> In d (Dates.found_dates parse self text).
Proof.
  intros parse self text d H. unfold Dates.extract_dates in H. cbv zeta in H.
  assert (Hu : In d (Dates._remove_duplicates (Dates.found_dates parse self text))).
  { rewrite <- (firstn_skipn 3 (Dates._remove_duplicates _)). apply in_or_app. now left. }
  unfold Dates._remove_duplicates in Hu. cbv zeta in Hu.
  apply keep_unseen_incl in Hu.
  eapply Permutation_in; [apply sorted_by_perm | exact Hu].
Qed.

(** Property X20.  Every date [extract_dates] returns for an ASCII text was
    parsed by the date library from its raw text, with a year between 1900 and
    2100; its raw text stands in the text, letter case apart; its formatted
    date is the month, the day and the year of the parsed date; its snippet is
    cut around a place inside the text.  It comes either from a labelled
    pattern, with the label of that pattern and a high confidence, or from a
    generic pattern, with the label unknown and a medium confidence. *)
Theorem date_findings_are_parsed :
  forall (dateutil_parse : str -> option Dates.datetime)
         (self : Dates.DateExtractor) (text : str),
    ascii_text text ->
    Forall (fun d => SpecFinding.parsed dateutil_parse text d /\
                     (SpecFinding.labelled self d \/ SpecFinding.generic d))
           (Dates.extract_dates dateutil_parse self text).
Proof.
  intros parse self text _. apply Forall_forall. intros d Hd.
  apply extract_dates_found in Hd.
  destruct (found_dates_structure parse self text) as [extra [E [HL [HG _]]]].
  rewrite E in Hd. rewrite Forall_forall in HL, HG.
  apply in_app_or in Hd as [Hd | Hd].
  - destruct (HL d Hd). auto.
  - destruct (HG d Hd). auto.
Qed.

Lemma date_findings_are_parsed_witness :
  Forall (fun d => SpecFinding.parsed SpecParser.numeric_mdy SpecParser.invoice_and_due d /\
                   (SpecFinding.labelled Dates.init d \/ SpecFinding.generic d))
         (Dates.extract_dates SpecParser.numeric_mdy Dates.init SpecParser.invoice_and_due).
Proof.
  apply (date_findings_are_parsed SpecParser.numeric_mdy Dates.init SpecParser.invoice_and_due).
  reflexivity.
Defined.

(** Property X21.  The dates found are those of the labelled
    patterns followed by those of the generic patterns, and the generic
    patterns are consulted only when fewer than 3 labelled dates were found:
    with 3 labelled dates or more, every date returned is a labelled one. *)
Theorem generic_dates_fill_up :
  forall (dateutil_parse : str -> option Dates.datetime)
         (self : Dates.DateExtractor) (text : str),
    exists labelled generic,
      Dates.found_dates dateutil_parse self text = labelled ++ generic /\
      Forall (SpecFinding.labelled self) labelled /\
      Forall SpecFinding.generic generic /\
      (generic = [] \/ length labelled < 3) /\
      (3 <= length labelled ->
       Forall (SpecFinding.labelled self) (Dates.extract_dates dateutil_parse self text)).
Proof.
  intros parse self text.
  destruct (found_dates_structure parse self text) as [extra [E [HL [HG [Hlt _]]]]].
  exists (SpecFinding.labelled_dates parse self text), extra.
  assert (HL' : Forall (SpecFinding.labelled self) (SpecFinding.labelled_dates parse self text))
    by (eapply Forall_impl; [| exact HL]; now intros d [_ H]).
  split; [exact E |]. split; [exact HL' |].
  split; [eapply Forall_impl; [| exact HG]; now intros d [_ H] |].
  split.
  - destruct extra; [now left | right; apply Hlt; discriminate].
  - intro H3.
    assert (extra = []).
    { destruct extra; [reflexivity | exfalso].
      assert (length (SpecFinding.labelled_dates parse self text) < 3)
        by (apply Hlt; discriminate).
      lia. }
    subst extra. rewrite app_nil_r in E.
    apply Forall_forall. intros d Hd. apply extract_dates_found in Hd.
    rewrite E in Hd. rewrite Forall_forall in HL'. now apply HL'.
Qed.

(** Property X22.  A date of a generic pattern is kept only
    when its raw text, letter case apart, is the raw text of no date found
    before it. *)
Theorem generic_dates_are_new :
  forall (dateutil_parse : str -> option Dates.datetime)
         (self : Dates.DateExtractor) (text : str),
    SpecFinding.generic_is_new (Dates.found_dates dateutil_parse self text).
Proof.
  intros parse self text.
  destruct (found_dates_structure parse self text) as [extra [E [_ [_ [_ H]]]]].
  now rewrite E.
Qed.

(** ** Duplicates *)

Lemma keep_unseen_best : forall l seen,
  StronglySorted SpecDates.by_priority l ->
  forall d, In d l -> mem (Dates.formatted_date d) seen = false ->
    exists k, In k (Dates.keep_unseen seen l) /\
              Dates.formatted_date k = Dates.formatted_date d /\
              (SpecDates.prio k <= SpecDates.prio d)%Z.
Proof.
  induction l as [| x l IH]; intros seen Hs d Hd Hm; [destruct Hd |].
  apply StronglySorted_inv in Hs as [Hs Hx]. rewrite Forall_forall in Hx.
  cbn [Dates.keep_unseen].
  destruct Hd as [<- | Hd].
  - rewrite Hm. exists x. split; [now left |]. split; [reflexivity | lia].
  - destruct (mem (Dates.formatted_date x) seen) eqn:Ex.
    + now apply IH.
    + destruct (PyStr.eqb (Dates.formatted_date d) (Dates.formatted_date x)) eqn:Ed.
      * apply eqb_true in Ed. exists x. split; [now left |]. split; [now symmetry |].
        apply (Hx d Hd).
      * destruct (IH (Dates.formatted_date x :: seen) Hs d Hd) as [k [Hk [Hf Hp]]].
        { unfold mem in *. cbn [existsb]. now rewrite Ed, Hm. }
        exists k. split; [now right | auto].
Qed.

Lemma keep_unseen_id : forall l seen,
  NoDup (map Dates.formatted_date l) ->
  (forall d, In d l -> mem (Dates.formatted_date d) seen = false) ->
  Dates.keep_unseen seen l = l.
Proof.
  induction l as [| x l IH]; intros seen Hn Hs; [reflexivity |].
  cbn [Dates.keep_unseen]. rewrite (Hs x (or_introl eq_refl)).
  cbn [map] in Hn. apply NoDup_cons_iff in Hn as [Hx Hn].
  f_equal. apply IH; [exact Hn |].
  intros d Hd. unfold mem in *. cbn [existsb].
  rewrite (Hs d (or_intror Hd)), orb_false_r.
  destruct (PyStr.eqb _ _) eqn:E; [| reflexivity].
  apply eqb_true in E. exfalso. apply Hx. rewrite <- E. now apply in_map.
Qed.

(** Property X23.  [_remove_duplicates] loses no date:
    every formatted date of its argument is in its result, under a label of
    the same priority or a better one.  It returns dates of its argument only,
    and removing the duplicates of its result changes nothing. *)
Theorem remove_duplicates_keeps_best :
  forall dates : list Dates.DateFinding,
    let unique := Dates._remove_duplicates dates in
    Dates._remove_duplicates unique = unique /\
    (forall k, In k unique -> In k dates) /\
    Forall (fun d => exists k, In k unique /\
                       Dates.formatted_date k = Dates.formatted_date d /\
                       (Dates.priority (Dates.label k) <= Dates.priority (Dates.label d))%Z)
           dates.
Proof.
  intro dates. cbv zeta. unfold Dates._remove_duplicates. cbv zeta.
  set (sorted := sorted_by (fun d => Dates.priority (Dates.label d)) Z.leb dates).
  assert (Hs : StronglySorted SpecDates.by_priority sorted) by apply sorted_by_sorted.
  split; [| split].
  - rewrite sorted_by_id by (apply keep_unseen_sorted, Hs).
    apply keep_unseen_id; [apply keep_unseen_NoDup | reflexivity].
  - intros k Hk. apply keep_unseen_incl in Hk.
    eapply Permutation_in; [apply sorted_by_perm | exact Hk].
  - apply Forall_forall. intros d Hd.
    apply (keep_unseen_best sorted [] Hs d); [| reflexivity].
    eapply Permutation_in; [apply Permutation_sym, sorted_by_perm | exact Hd].
Qed.

(** ** Amounts: cleaning, writing and order *)

(** ** Cleaning *)

Lemma filter_spaces : forall sp,
  forallb is_space sp = true -> filter Currency.digit_comma_point sp = [].
Proof.
  induction sp as [| c sp IH]; intro H; [reflexivity |].
  cbn [forallb] in H. apply andb_true_iff in H as [Hc H]. cbn [filter].
  destruct (Currency.digit_comma_point c) eqn:E.
  - apply digit_comma_point_plain in E as [_ E]. congruence.
  - now apply IH.
Qed.

Lemma filter_strip : forall s,
  filter Currency.digit_comma_point (strip s) = filter Currency.digit_comma_point s.
Proof.
  intro s. unfold strip.
  destruct (lstrip_spaces s) as [sp1 [E1 H1]].
  destruct (rstrip_spaces (lstrip s)) as [sp2 [E2 H2]].
  rewrite E1 at 2. rewrite E2 at 2.
  rewrite !filter_app, (filter_spaces sp1 H1), (filter_spaces sp2 H2).
  now rewrite app_nil_r.
Qed.

Lemma filter_remove_symbols : forall s,
  filter Currency.digit_comma_point (Currency.remove_symbols s)
  = filter Currency.digit_comma_point s.
Proof.
  intro s. unfold Currency.remove_symbols. apply DecimalFacts.filter_filter_sub.
  intros c H. apply digit_comma_point_plain in H as [H _]. now rewrite H.
Qed.

Lemma clean_amount_filter : forall s,
  Currency._clean_amount s =
  match filter Currency.digit_comma_point s with
  | [] => None
  | kept => Some kept
  end.
Proof.
  intro s. unfold Currency._clean_amount.
  destruct s as [| c s]; [reflexivity |]. cbv zeta.
  rewrite filter_strip, filter_remove_symbols.
  destruct (filter Currency.digit_comma_point (c :: s)); reflexivity.
Qed.

Lemma filter_idem : forall (A : Type) (p : A -> bool) l, filter p (filter p l) = filter p l.
Proof. intros A p l. apply DecimalFacts.filter_filter_sub. auto. Qed.

(** Property X7.  [_clean_amount] keeps the
    digits, the commas and the points of its argument, in their order, and
    nothing else: the call of strip and the removal of the currency symbols
    add nothing to that.  It returns [None] exactly when there is none of
    them, and cleaning a cleaned string gives it back. *)
Theorem clean_amount_keeps_digits_commas_points : forall s : str,
  Currency._clean_amount s =
    match filter Currency.digit_comma_point s with
    | [] => None
    | kept => Some kept
    end /\
  match Currency._clean_amount s with
  | Some cleaned =>
      cleaned <> [] /\ forallb Currency.digit_comma_point cleaned = true /\
      Currency._clean_amount cleaned = Some cleaned
  | None => forall c, In c s -> Currency.digit_comma_point c = false
  end.
Proof.
  intro s. split; [apply clean_amount_filter |].
  rewrite clean_amount_filter.
  destruct (filter Currency.digit_comma_point s) as [| c kept] eqn:E.
  - intros c Hc. destruct (Currency.digit_comma_point c) eqn:Ec; [| reflexivity].
    assert (In c (filter Currency.digit_comma_point s)) by (apply filter_In; auto).
    rewrite E in H. destruct H.
  - split; [discriminate |]. split.
    + rewrite <- E. apply DecimalFacts.forallb_filter.
    + rewrite clean_amount_filter, <- E, filter_idem. now rewrite E.
Qed.

(** ** The float of an amount and its two decimals *)

Module FormatFacts.

Import Float64 RoundingFacts.

Local Open Scope Z_scope.

Lemma rne_scale : forall k num den,
  0 < k -> 0 < den -> rne (k * num) (k * den) = rne num den.
Proof.
  intros k num den Hk Hd. unfold rne.
  rewrite Z.div_mul_cancel_l by lia.
  rewrite Z.mul_mod_distr_l by lia.
  destruct (Z.compare_spec (2 * (k * (num mod den))) (k * den));
    destruct (Z.compare_spec (2 * (num mod den)) den); try reflexivity; nia.
Qed.

Lemma ge_pow2_scale : forall k n d j,
  0 < k -> ge_pow2 (k * n) (k * d) j = ge_pow2 n d j.
Proof.
  intros k n d j Hk. unfold ge_pow2. destruct (0 <=? j).
  - apply Bool.eq_true_iff_eq. rewrite !Z.leb_le.
    replace (k * d * 2 ^ j) with (k * (d * 2 ^ j)) by ring.
    split; intro H; [apply Z.mul_le_mono_pos_l in H | apply Z.mul_le_mono_pos_l]; lia.
  - apply Bool.eq_true_iff_eq. rewrite !Z.leb_le.
    replace (k * n * 2 ^ (- j)) with (k * (n * 2 ^ (- j))) by ring.
    split; intro H; [apply Z.mul_le_mono_pos_l in H | apply Z.mul_le_mono_pos_l]; lia.
Qed.

Lemma ilog2_scale : forall k n d,
  0 < k -> 0 < n -> 0 < d -> ilog2 (k * n) (k * d) = ilog2 n d.
Proof.
  intros k n d Hk Hn Hd.
  assert (Hkn : 0 < k * n) by lia. assert (Hkd : 0 < k * d) by lia.
  destruct (ilog2_spec (k * n) (k * d) Hkn Hkd) as [H1 H2].
  rewrite ge_pow2_scale in H1, H2 by assumption.
  pose proof (ilog2_ge n d _ Hn Hd H1). pose proof (ilog2_lt n d _ Hn Hd H2). lia.
Qed.

Lemma round_scale : forall k n d,
  0 < k -> 0 <= n -> 0 < d -> round (k * n) (k * d) = round n d.
Proof.
  intros k n d Hk Hn Hd. unfold round.
  destruct (Z.eqb_spec n 0) as [-> | Hn0].
  - now rewrite Z.mul_0_r.
  - destruct (Z.eqb_spec (k * n) 0) as [E | _]; [nia |].
    rewrite ilog2_scale by lia. cbv zeta.
    replace (k * d * 2 ^ Z.max (ilog2 n d - 52) (-1074))
      with (k * (d * 2 ^ Z.max (ilog2 n d - 52) (-1074))) by ring.
    replace (k * n * 2 ^ (- Z.max (ilog2 n d - 52) (-1074)))
      with (k * (n * 2 ^ (- Z.max (ilog2 n d - 52) (-1074)))) by ring.
    destruct (0 <=? Z.max (ilog2 n d - 52) (-1074)) eqn:E.
    + rewrite rne_scale; [reflexivity | lia |].
      apply Z.leb_le in E. apply Z.mul_pos_pos; [lia | now apply Z.pow_pos_nonneg].
    + rewrite rne_scale by lia. reflexivity.
Qed.

(** The float of an amount is the float of its hundredths over 100. *)
Lemma round_cents : forall n d c,
  0 <= n -> decimal_scale d -> c * d = 100 * n -> round n d = round c 100.
Proof.
  intros n d c Hn [-> | [-> | ->]] E.
  - replace c with (100 * n) by lia. change 100 with (100 * 1) at 2.
    now rewrite round_scale by lia.
  - replace c with (10 * n) by lia. change 100 with (10 * 10).
    now rewrite round_scale by lia.
  - now replace c with n by lia.
Qed.

Lemma rne_error : forall num den,
  0 < den -> 2 * Z.abs (rne num den * den - num) <= den.
Proof.
  intros num den Hd. unfold rne.
  pose proof (Z.div_mod num den ltac:(lia)) as E.
  pose proof (Z.mod_pos_bound num den Hd) as Hr.
  destruct (Z.compare_spec (2 * (num mod den)) den) as [Hc | Hc | Hc];
    [destruct (Z.even (num / den)) | |]; nia.
Qed.

Lemma rne_near : forall num den t,
  0 < den -> 2 * Z.abs (num - t * den) < den -> rne num den = t.
Proof.
  intros num den t Hd H. unfold rne.
  pose proof (Z.div_mod num den ltac:(lia)) as E.
  pose proof (Z.mod_pos_bound num den Hd) as Hr.
  destruct (Z_le_gt_dec (t * den) num) as [Hle | Hgt].
  - assert (Hq : num / den = t) by (symmetry; apply (Z.div_unique num den t (num - t * den)); lia).
    rewrite Hq in *.
    destruct (Z.compare_spec (2 * (num mod den)) den) as [Hc | Hc | Hc]; lia.
  - assert (Hq : num / den = t - 1)
      by (symmetry; apply (Z.div_unique num den (t - 1) (num - (t - 1) * den)); lia).
    rewrite Hq in *.
    destruct (Z.compare_spec (2 * (num mod den)) den) as [Hc | Hc | Hc]; lia.
Qed.

Lemma ilog2_cents : forall c,
  1 <= c <= 99999999999 -> -7 <= ilog2 c 100 <= 29.
Proof.
  intros c Hc. split.
  - apply ilog2_ge; try lia. apply ge_pow2_true. right. split; [lia |].
    change (2 ^ (- -7)) with 128. lia.
  - assert (ilog2 c 100 < 30); [| lia].
    apply ilog2_lt; try lia. destruct (ge_pow2 c 100 30) eqn:E; [| reflexivity].
    apply ge_pow2_true in E as [[_ E] | [E _]]; [| lia].
    change (2 ^ 30) with 1073741824 in E. lia.
Qed.

(** Rounding an amount to a float keeps its hundredths. *)
Lemma hundredths_round : forall c,
  1 <= c <= 99999999999 ->
  exists m e, round c 100 = Fin m e /\ hundredths m e = c.
Proof.
  intros c Hc. pose proof (ilog2_cents c Hc) as Hl.
  rewrite round_normal by lia. cbv zeta.
  set (e := ilog2 c 100 - 52).
  assert (He : -59 <= e <= -23) by (unfold e; lia).
  destruct (Z.ltb_spec 971 e); [lia |]. destruct (Z.eqb_spec e 971); [lia |].
  cbn [orb andb]. eexists. exists e. split; [reflexivity |].
  unfold hundredths, mantissa.
  destruct (Z.leb_spec 0 e); [lia |].
  set (p := 2 ^ (- e)).
  assert (Hp : 2 ^ 23 <= p) by (unfold p; apply Z.pow_le_mono_r; lia).
  change (2 ^ 23) with 8388608 in Hp.
  pose proof (rne_error (c * p) 100 ltac:(lia)) as Herr.
  apply rne_near; [lia |]. lia.
Qed.

End FormatFacts.

Module DigitFacts.

Import Float64.

Local Open Scope Z_scope.

Lemma digit_char_value : forall d,
  0 <= d <= 9 -> digit_value (digit_char d) = d /\ is_digit (digit_char d) = true.
Proof.
  intros d H.
  assert (E : d = 0 \/ d = 1 \/ d = 2 \/ d = 3 \/ d = 4 \/ d = 5 \/ d = 6 \/ d = 7
              \/ d = 8 \/ d = 9) by lia.
  repeat (destruct E as [-> | E]; [split; reflexivity |]). subst d. split; reflexivity.
Qed.

Lemma digits_value_acc : forall ds acc,
  fold_left (fun acc c => 10 * acc + digit_value c) ds acc
  = acc * 10 ^ Z.of_nat (length ds) + digits_value ds.
Proof.
  unfold digits_value. induction ds as [| c ds IH]; intro acc.
  - cbn. lia.
  - cbn [fold_left length]. rewrite IH, (IH (10 * 0 + digit_value c)).
    rewrite Nat2Z.inj_succ, Z.pow_succ_r by lia. ring.
Qed.

Lemma digits_value_app : forall a b,
  digits_value (a ++ b) = digits_value a * 10 ^ Z.of_nat (length b) + digits_value b.
Proof.
  intros a b. unfold digits_value at 1. rewrite fold_left_app.
  fold (digits_value a). apply digits_value_acc.
Qed.

Lemma digits_rev_value : forall fuel n,
  0 <= n < 2 ^ Z.of_nat fuel ->
  digits_value (rev (digits_rev fuel n)) = n /\
  forallb is_digit (digits_rev fuel n) = true.
Proof.
  induction fuel as [| f IH]; intros n Hn.
  - change (2 ^ Z.of_nat 0) with 1 in Hn. assert (n = 0) by lia. subst n. split; reflexivity.
  - cbn [digits_rev]. destruct (Z.ltb_spec n 10) as [Hlt | Hge].
    + destruct (digit_char_value n ltac:(lia)) as [H1 H2].
      split; [| cbn [forallb]; now rewrite H2].
      cbn [rev app]. unfold digits_value. cbn [fold_left]. lia.
    + rewrite Nat2Z.inj_succ, Z.pow_succ_r in Hn by lia.
      assert (Hq : 0 <= n / 10 < 2 ^ Z.of_nat f).
      { split; [apply Z.div_pos; lia |]. apply Z.div_lt_upper_bound; lia. }
      destruct (IH (n / 10) Hq) as [H1 H2].
      pose proof (Z.mod_pos_bound n 10 ltac:(lia)) as Hm.
      destruct (digit_char_value (n mod 10) ltac:(lia)) as [H3 H4].
      split; [| cbn [forallb]; now rewrite H4, H2].
      cbn [rev]. rewrite digits_value_app, H1.
      unfold digits_value at 1. cbn [fold_left length].
      rewrite H3. change (10 ^ Z.of_nat 1) with 10.
      pose proof (Z.div_mod n 10 ltac:(lia)). lia.
Qed.

(** Reading the decimal digits of a number gives the number back. *)
Lemma decimal_value : forall n,
  0 <= n ->
  digits_value (decimal n) = n /\ forallb is_digit (decimal n) = true /\ decimal n <> [].
Proof.
  intros n Hn. unfold decimal.
  assert (Hb : 0 <= n < 2 ^ Z.of_nat (S (Z.to_nat (Z.log2 n)))).
  { rewrite Nat2Z.inj_succ, Z2Nat.id by apply Z.log2_nonneg.
    split; [exact Hn |].
    destruct (Z.eq_dec n 0) as [-> | Hn0]; [reflexivity |].
    apply Z.log2_spec. lia. }
  destruct (digits_rev_value _ n Hb) as [H1 H2].
  split; [exact H1 |]. split.
  - rewrite forallb_forall in *. intros c Hc. apply H2. now apply in_rev.
  - cbn [digits_rev]. destruct (n <? 10); cbn [rev]; intro E;
      apply app_eq_nil in E as [_ E]; discriminate.
Qed.

Lemma group3_rev_In : forall l n c,
  In c (group3_rev l n) -> c = ","%char \/ In c l.
Proof.
  induction l as [| x l IH]; intros n c H; [destruct H |].
  cbn [group3_rev] in H. destruct n as [| n].
  - destruct H as [<- | [<- | H]]; [now left | right; now left |].
    apply IH in H as [H | H]; [now left | right; now right].
  - destruct H as [<- | H]; [right; now left |].
    apply IH in H as [H | H]; [now left | right; now right].
Qed.

Lemma group3_In : forall ds c, In c (group3 ds) -> c = ","%char \/ In c ds.
Proof.
  intros ds c H. unfold group3 in H. apply in_rev in H.
  apply group3_rev_In in H as [H | H]; [now left | right; now apply in_rev].
Qed.

Lemma remove_comma_group3_rev : forall l n,
  forallb is_digit l = true -> remove_char "," (group3_rev l n) = l.
Proof.
  induction l as [| x l IH]; intros n H; [reflexivity |].
  cbn [forallb] in H. apply andb_true_iff in H as [Hx H].
  assert (Ex : negb (eqb_char x ",") = true).
  { destruct (eqb_char x ",") eqn:E; [| reflexivity].
    apply eqb_char_true in E. subst x. discriminate. }
  cbn [group3_rev]. unfold remove_char in *.
  destruct n; cbn [filter]; [change (negb (eqb_char "," ",")) with false; cbv iota |];
    rewrite Ex; f_equal; now apply IH.
Qed.

Lemma filter_rev_eq : forall (A : Type) (p : A -> bool) l,
  filter p (rev l) = rev (filter p l).
Proof.
  intros A p. induction l as [| x l IH]; [reflexivity |].
  cbn [rev filter]. rewrite filter_app, IH. cbn [filter].
  destruct (p x); [reflexivity | now rewrite app_nil_r].
Qed.

Lemma remove_comma_group3 : forall ds,
  forallb is_digit ds = true -> remove_char "," (group3 ds) = ds.
Proof.
  intros ds H. unfold group3, remove_char. rewrite filter_rev_eq.
  fold (remove_char "," (group3_rev (rev ds) 3)).
  rewrite remove_comma_group3_rev; [apply rev_involutive |].
  rewrite forallb_forall in *. intros c Hc. apply H. now apply in_rev.
Qed.

End DigitFacts.

Module CanonicalFacts.

Import Float64 RoundingFacts DecimalFacts FormatFacts DigitFacts.

Lemma digit_not_point : forall c, is_digit c = true -> eqb_char c "." = false.
Proof. intro c. each_char c. Qed.

Lemma digit_not_symbol : forall c,
  is_digit c = true -> Currency.is_currency_symbol c = false.
Proof. intro c. each_char c. Qed.

Lemma split_on_aux_digits : forall ds cur,
  forallb is_digit ds = true -> split_on_aux "." cur ds = [rev cur ++ ds].
Proof.
  induction ds as [| c ds IH]; intros cur H.
  - cbn [split_on_aux]. now rewrite app_nil_r.
  - cbn [forallb] in H. apply andb_true_iff in H as [Hc H].
    cbn [split_on_aux]. rewrite (digit_not_point c Hc), IH by assumption.
    cbn [rev]. now rewrite <- app_assoc.
Qed.

Lemma split_on_aux_digits_point : forall ds fs cur,
  forallb is_digit ds = true -> forallb is_digit fs = true ->
  split_on_aux "." cur (ds ++ "."%char :: fs) = [rev cur ++ ds; fs].
Proof.
  induction ds as [| c ds IH]; intros fs cur Hd Hf.
  - cbn [app split_on_aux]. change (eqb_char "." ".") with true. cbv iota.
    rewrite split_on_aux_digits by assumption. now rewrite app_nil_r.
  - cbn [forallb] in Hd. apply andb_true_iff in Hd as [Hc Hd].
    cbn [app split_on_aux]. rewrite (digit_not_point c Hc), IH by assumption.
    cbn [rev]. now rewrite <- app_assoc.
Qed.

Local Open Scope Z_scope.

Lemma cents_digits : forall c,
  0 <= c ->
  0 <= c / 100 /\ 0 <= c mod 100 / 10 <= 9 /\ 0 <= c mod 10 <= 9 /\
  c / 100 * 100 + (10 * (c mod 100 / 10) + c mod 10) = c.
Proof.
  intros c Hc.
  pose proof (Z.div_mod c 100 ltac:(lia)) as E1.
  pose proof (Z.mod_pos_bound c 100 ltac:(lia)) as B1.
  pose proof (Z.div_mod (c mod 100) 10 ltac:(lia)) as E2.
  pose proof (Z.mod_pos_bound (c mod 100) 10 ltac:(lia)) as B2.
  pose proof (Z.mod_pos_bound c 10 ltac:(lia)) as B3.
  assert (E3 : (c mod 100) mod 10 = c mod 10).
  { rewrite E1 at 2. replace (100 * (c / 100) + c mod 100)
      with (c mod 100 + (10 * (c / 100)) * 10) by ring.
    now rewrite Z.mod_add by lia. }
  assert (0 <= c / 100) by (apply Z.div_pos; lia).
  assert (0 <= c mod 100 / 10 <= 9).
  { split; [apply Z.div_pos; lia |]. apply Z.lt_succ_r. apply Z.div_lt_upper_bound; lia. }
  repeat split; try lia.
Qed.

Lemma amount_to_float_nonempty : forall s,
  s <> [] ->
  Currency._amount_to_float s = of_string (remove_char "," (Currency.remove_symbols s)).
Proof. intros [| c s] H; [congruence | reflexivity]. Qed.

(** The float of a written amount is the float of its hundredths. *)
Lemma amount_to_float_canonical : forall c,
  0 <= c -> Currency._amount_to_float (SpecFormat.canonical c) = Some (round c 100).
Proof.
  intros c Hc. destruct (cents_digits c Hc) as [Hq [H1 [H2 E]]].
  destruct (decimal_value (c / 100) Hq) as [Hv [Hd Hne]].
  destruct (digit_char_value _ H1) as [V1 D1]. destruct (digit_char_value _ H2) as [V2 D2].
  set (ds := decimal (c / 100)) in *.
  set (d1 := digit_char (c mod 100 / 10)) in *. set (d2 := digit_char (c mod 10)) in *.
  assert (Hsym : Currency.remove_symbols (SpecFormat.canonical c)
                 = group3 ds ++ "."%char :: [d1; d2]).
  { unfold SpecFormat.canonical, Currency.remove_symbols. fold ds d1 d2.
    cbn [lit list_ascii_of_string app filter].
    change (negb (Currency.is_currency_symbol "$")) with false. cbv iota.
    apply filter_all. rewrite forallb_forall. intros x Hx.
    apply in_app_or in Hx as [Hx | Hx].
    - apply group3_In in Hx as [-> | Hx]; [reflexivity |].
      rewrite forallb_forall in Hd. now rewrite (digit_not_symbol x (Hd x Hx)).
    - destruct Hx as [<- | [<- | [<- | []]]]; [reflexivity | |];
        now rewrite digit_not_symbol. }
  assert (Hcomma : remove_char "," (group3 ds ++ "."%char :: [d1; d2])
                   = ds ++ "."%char :: [d1; d2]).
  { unfold remove_char. rewrite filter_app.
    fold (remove_char "," (group3 ds)). rewrite remove_comma_group3 by assumption.
    f_equal. apply filter_all. cbn [forallb].
    assert (forall x, is_digit x = true -> negb (eqb_char x ",") = true).
    { intros x Hx. destruct (eqb_char x ",") eqn:Ex; [| reflexivity].
      apply eqb_char_true in Ex. subst x. discriminate. }
    rewrite (H d1 D1), (H d2 D2). reflexivity. }
  rewrite amount_to_float_nonempty by (unfold SpecFormat.canonical; discriminate).
  rewrite Hsym, Hcomma.
  unfold of_string, split_on.
  rewrite split_on_aux_digits_point; [| assumption | cbn [forallb]; now rewrite D1, D2].
  cbn [rev app]. rewrite forallb_app, Hd. cbn [forallb]. rewrite D1, D2.
  cbn [andb]. rewrite length_app. cbn [length].
  replace (length ds + 2 =? 0)%nat with false by (symmetry; apply Nat.eqb_neq; lia).
  cbn [negb]. rewrite digits_value_app, Hv.
  unfold digits_value at 1. cbn [fold_left length]. rewrite V1, V2.
  change (10 ^ Z.of_nat 2) with 100. f_equal. f_equal. lia.
Qed.

Lemma valid_amount_parts : forall s,
  forallb Currency.digit_comma_point s = true ->
  Currency._is_valid_amount s = true ->
  existsb is_digit s = true /\ (SpecAmount.decimal_points s <= 1)%nat /\
  (length (SpecAmount.fractional_part s) <= 2)%nat /\
  1 <= SpecAmount.cents s <= 99999999999.
Proof.
  intros s Hs Hv. apply is_valid_amount_decimal in Hv; [| exact Hs].
  destruct Hv as [H1 [H2 [H3 H4]]]. apply has_digit_existsb in H1. auto.
Qed.

(** A valid amount is written as its hundredths are. *)
Lemma format_amount_canonical : forall s,
  forallb Currency.digit_comma_point s = true ->
  Currency._is_valid_amount s = true ->
  Currency._format_amount s = SpecFormat.canonical (SpecAmount.cents s) /\
  Currency._amount_to_float s = Some (round (SpecAmount.cents s) 100).
Proof.
  intros s Hs Hv. destruct (valid_amount_parts s Hs Hv) as [H1 [H2 [H3 H4]]].
  destruct (amount_to_float_value s Hs H1 H2 H3) as [n [d [E [Hn [Hd Hc]]]]].
  rewrite (round_cents n d _ Hn Hd Hc) in E.
  split; [| exact E].
  unfold Currency._format_amount. rewrite E.
  destruct (hundredths_round _ H4) as [m [e [Er Eh]]]. rewrite Er.
  unfold format_2f, SpecFormat.canonical. now rewrite Eh.
Qed.

Lemma canonical_chars : forall c,
  0 <= c ->
  existsb is_digit (SpecFormat.canonical c) = true /\
  SpecAmount.decimal_points (SpecFormat.canonical c) = 1%nat /\
  length (SpecAmount.fractional_part (SpecFormat.canonical c)) = 2%nat.
Proof.
  intros c Hc. destruct (cents_digits c Hc) as [Hq [H1 [H2 E]]].
  destruct (decimal_value (c / 100) Hq) as [Hv [Hd Hne]].
  destruct (digit_char_value _ H1) as [V1 D1]. destruct (digit_char_value _ H2) as [V2 D2].
  unfold SpecFormat.canonical.
  set (ds := decimal (c / 100)) in *.
  set (d1 := digit_char (c mod 100 / 10)) in *. set (d2 := digit_char (c mod 10)) in *.
  assert (Hg : forall x, In x (group3 ds) -> SpecAmount.is_point x = false).
  { intros x Hx. apply group3_In in Hx as [-> | Hx]; [reflexivity |].
    rewrite forallb_forall in Hd. apply digit_not_point. auto. }
  assert (Hfilter : filter SpecAmount.is_point (group3 ds) = []).
  { induction (group3 ds) as [| x g IH]; [reflexivity |].
    cbn [filter]. rewrite (Hg x (or_introl eq_refl)). apply IH.
    intros y Hy. apply Hg. now right. }
  assert (Hfrac : forall g, (forall x, In x g -> SpecAmount.is_point x = false) ->
            SpecAmount.fractional_part (g ++ lit "." ++ [d1; d2]) = [d1; d2]).
  { induction g as [| x g IH]; intro H; [reflexivity |].
    cbn [app SpecAmount.fractional_part]. rewrite (H x (or_introl eq_refl)).
    apply IH. intros y Hy. apply H. now right. }
  split; [| split].
  - apply existsb_exists. exists d1. split; [| exact D1].
    apply in_or_app. right. apply in_or_app. right. apply in_or_app. right. now left.
  - unfold SpecAmount.decimal_points. rewrite !filter_app, Hfilter.
    cbn [lit list_ascii_of_string filter app].
    change (SpecAmount.is_point "$") with false. change (SpecAmount.is_point ".") with true.
    unfold SpecAmount.is_point. rewrite (digit_not_point d1 D1), (digit_not_point d2 D2).
    reflexivity.
  - change (lit "$" ++ group3 ds ++ lit "." ++ [d1; d2])
      with ("$"%char :: (group3 ds ++ lit "." ++ [d1; d2])).
    cbn [SpecAmount.fractional_part]. change (SpecAmount.is_point "$") with false.
    cbv iota. now rewrite Hfrac.
Qed.

End CanonicalFacts.

Module OrderFacts.

Import Float64 RoundingFacts DecimalFacts FormatFacts DigitFacts CanonicalFacts.

Local Open Scope Z_scope.

(** The float of an amount: its exponent and how far its mantissa is from
    the amount. *)
Lemma round_cents_form : forall c,
  1 <= c <= 99999999999 ->
  exists m e, round c 100 = Fin m e /\ -59 <= e <= -23 /\
              2 * Z.abs (m * 100 - c * 2 ^ (- e)) <= 100.
Proof.
  intros c Hc. pose proof (ilog2_cents c Hc) as Hl.
  rewrite round_normal by lia. cbv zeta.
  set (e := ilog2 c 100 - 52).
  assert (He : -59 <= e <= -23) by (unfold e; lia).
  destruct (Z.ltb_spec 971 e); [lia |]. destruct (Z.eqb_spec e 971); [lia |].
  cbn [orb andb]. eexists. exists e. split; [reflexivity |]. split; [exact He |].
  unfold mantissa. destruct (Z.leb_spec 0 e); [lia |].
  apply rne_error. lia.
Qed.

Lemma scaled_error : forall m c e lo,
  -59 <= e <= -23 -> lo <= e ->
  2 * Z.abs (m * 100 - c * 2 ^ (- e)) <= 100 ->
  2 * Z.abs (100 * (m * 2 ^ (e - lo)) - c * 2 ^ (- lo)) < 2 ^ (- lo).
Proof.
  intros m c e lo He Hlo H.
  set (A := 2 ^ (e - lo)). set (p := 2 ^ (- e)).
  assert (HA : 0 < A) by (apply Z.pow_pos_nonneg; lia).
  assert (HP : 2 ^ (- lo) = p * A)
    by (unfold p, A; rewrite <- Z.pow_add_r by lia; f_equal; lia).
  assert (Hp : 2 ^ 23 <= p) by (unfold p; apply Z.pow_le_mono_r; lia).
  change (2 ^ 23) with 8388608 in Hp.
  rewrite HP. fold p in H.
  replace (100 * (m * A) - c * (p * A)) with ((m * 100 - c * p) * A) by ring.
  rewrite Z.abs_mul, (Z.abs_eq A) by lia.
  assert (2 * Z.abs (m * 100 - c * p) * A <= 100 * A) by nia.
  nia.
Qed.

Lemma leb_round_le : forall c1 c2,
  1 <= c1 <= 99999999999 -> 1 <= c2 <= 99999999999 ->
  leb (round c1 100) (round c2 100) = true -> c1 <= c2.
Proof.
  intros c1 c2 H1 H2 H.
  destruct (round_cents_form c1 H1) as [m1 [e1 [E1 [B1 R1]]]].
  destruct (round_cents_form c2 H2) as [m2 [e2 [E2 [B2 R2]]]].
  rewrite E1, E2 in H. unfold leb in H. apply Z.leb_le in H.
  set (lo := Z.min e1 e2) in *.
  pose proof (scaled_error m1 c1 e1 lo B1 ltac:(unfold lo; lia) R1) as S1.
  pose proof (scaled_error m2 c2 e2 lo B2 ltac:(unfold lo; lia) R2) as S2.
  set (P := 2 ^ (- lo)) in *.
  assert (HP : 0 < P) by (apply Z.pow_pos_nonneg; unfold lo; lia).
  set (M1 := m1 * 2 ^ (e1 - lo)) in *. set (M2 := m2 * 2 ^ (e2 - lo)) in *.
  assert ((c1 - c2) * P < P) by lia.
  nia.
Qed.

Lemma leb_total : forall a b, leb a b = false -> leb b a = true.
Proof.
  intros [m1 e1 |] [m2 e2 |] H; try reflexivity; try discriminate.
  unfold leb in *. rewrite Z.min_comm. apply Z.leb_gt in H. apply Z.leb_le. lia.
Qed.

(** The floats of two amounts are in the order of the amounts. *)
Lemma leb_round_cents : forall c1 c2,
  1 <= c1 <= 99999999999 -> 1 <= c2 <= 99999999999 ->
  leb (round c1 100) (round c2 100) = (c1 <=? c2).
Proof.
  intros c1 c2 H1 H2. destruct (Z.leb_spec c1 c2) as [Hle | Hgt].
  - destruct (leb (round c1 100) (round c2 100)) eqn:E; [reflexivity |].
    pose proof (leb_total _ _ E) as E'.
    destruct (Z.eq_dec c1 c2) as [-> | Hne]; [congruence |].
    apply leb_round_le in E'; try assumption. lia.
  - destruct (leb (round c1 100) (round c2 100)) eqn:E; [| reflexivity].
    apply leb_round_le in E; try assumption. lia.
Qed.

(** The hundredths read from a written amount. *)
Lemma cents_canonical : forall c, 0 <= c -> SpecAmount.cents (SpecFormat.canonical c) = c.
Proof.
  intros c Hc. destruct (cents_digits c Hc) as [Hq [H1 [H2 E]]].
  destruct (decimal_value (c / 100) Hq) as [Hv [Hd Hne]].
  destruct (digit_char_value _ H1) as [V1 D1]. destruct (digit_char_value _ H2) as [V2 D2].
  destruct (canonical_chars c Hc) as [_ [_ Hlen]].
  unfold SpecAmount.cents.
  assert (Hfrac : SpecAmount.fractional_part (SpecFormat.canonical c)
                  = [digit_char (c mod 100 / 10); digit_char (c mod 10)]).
  { unfold SpecFormat.canonical.
    set (ds := decimal (c / 100)) in *.
    assert (Hg : forall g, (forall x, In x g -> SpecAmount.is_point x = false) ->
              forall t, SpecAmount.fractional_part (g ++ lit "." ++ t) = t).
    { induction g as [| x g IH]; intros H t; [reflexivity |].
      cbn [app SpecAmount.fractional_part]. rewrite (H x (or_introl eq_refl)).
      apply IH. intros y Hy. apply H. now right. }
    change (lit "$" ++ group3 ds ++ lit "." ++ ?t)
      with ("$"%char :: (group3 ds ++ lit "." ++ t)).
    cbn [SpecAmount.fractional_part]. change (SpecAmount.is_point "$") with false.
    cbv iota. apply Hg. intros x Hx.
    apply group3_In in Hx as [-> | Hx]; [reflexivity |].
    rewrite forallb_forall in Hd. apply digit_not_point. auto. }
  rewrite Hfrac. cbn [filter]. rewrite D1, D2. cbn [length].
  change (10 ^ (2 - Z.of_nat 2)) with 1. rewrite Z.mul_1_r.
  assert (Hdig : filter is_digit (SpecFormat.canonical c)
                 = decimal (c / 100) ++ [digit_char (c mod 100 / 10); digit_char (c mod 10)]).
  { unfold SpecFormat.canonical. rewrite !filter_app.
    cbn [lit list_ascii_of_string filter]. change (is_digit "$") with false.
    change (is_digit ".") with false. cbv iota. rewrite D1, D2. cbn [app].
    f_equal.
    transitivity (filter is_digit (remove_char "," (group3 (decimal (c / 100))))).
    - unfold remove_char. symmetry. apply filter_filter_sub.
      intros x Hx. destruct (eqb_char x ",") eqn:Ex; [| reflexivity].
      apply eqb_char_true in Ex. subst x. discriminate.
    - rewrite remove_comma_group3 by assumption. now apply filter_all. }
  rewrite Hdig, digits_value_app, Hv.
  unfold digits_value at 1. cbn [fold_left length]. rewrite V1, V2.
  change (10 ^ Z.of_nat 2) with 100. lia.
Qed.

End OrderFacts.

Section AmountFacts.

Import Float64 RoundingFacts DecimalFacts FormatFacts DigitFacts CanonicalFacts OrderFacts.

Lemma canonical_fixed : forall c,
  (1 <= c <= 99999999999)%Z ->
  Currency._amount_to_float (SpecFormat.canonical c) = Some (round c 100) /\
  Currency._format_amount (SpecFormat.canonical c) = SpecFormat.canonical c /\
  Currency._is_valid_amount (SpecFormat.canonical c) = true.
Proof.
  intros c Hc.
  pose proof (amount_to_float_canonical c ltac:(lia)) as Ef.
  destruct (canonical_chars c ltac:(lia)) as [H1 [H2 H3]].
  split; [exact Ef |]. split.
  - unfold Currency._format_amount. rewrite Ef.
    destruct (hundredths_round c Hc) as [m [e [Er Eh]]]. rewrite Er.
    unfold format_2f, SpecFormat.canonical. now rewrite Eh.
  - rewrite is_valid_amount_eq, H1, H2, H3. cbn [Nat.leb andb].
    unfold float_in_range. rewrite Ef.
    apply (round_in_range c 100); [lia | right; now right | lia].
Qed.

Lemma validated_canonical : forall m cleaned,
  SpecTotal.validated m = Some cleaned ->
  (1 <= SpecAmount.cents cleaned <= 99999999999)%Z /\
  Currency._format_amount cleaned = SpecFormat.canonical (SpecAmount.cents cleaned).
Proof.
  intros m cleaned H. unfold SpecTotal.validated in H.
  destruct (Currency._clean_amount (group1_or_0 m)) as [c |] eqn:Ec; [| discriminate].
  destruct (Currency._is_valid_amount c) eqn:Ev; [| discriminate].
  injection H as <-.
  pose proof (clean_amount_kept _ _ Ec) as Hk.
  destruct (valid_amount_parts c Hk Ev) as [_ [_ [_ H4]]].
  split; [exact H4 |]. now apply format_amount_canonical.
Qed.

Lemma found_amount_canonical : forall self text a,
  In a (Currency._find_all_amounts self text) ->
  (1 <= SpecAmount.cents a <= 99999999999)%Z /\ a = SpecFormat.canonical (SpecAmount.cents a).
Proof.
  intros self text a H. apply find_all_amounts_In in H as [m [c [_ [Hv ->]]]].
  destruct (validated_canonical m c Hv) as [Hc E].
  rewrite E, cents_canonical by lia. auto.
Qed.

(** The key of the sort in [_find_all_amounts], the one conversion to a
    float that no [try] guards, is taken of written amounts only and never
    fails. *)
Lemma sort_key_never_fails : forall self text a,
  In a (Currency._find_all_amounts self text) -> Currency._amount_to_float a <> None.
Proof.
  intros self text a H. destruct (found_amount_canonical self text a H) as [Hc E].
  rewrite E. destruct (canonical_fixed _ Hc) as [Hf _]. rewrite Hf. discriminate.
Qed.

(** Property X8.  For a cleaned amount that is valid,
    [_format_amount] writes the amount in hundredths: a dollar sign, the units
    with a comma before every group of three digits, a point and two digits.
    The float of the written amount is the float of the cleaned one and its
    hundredths are the same, so that writing the written amount again changes
    nothing; the written amount is valid. *)
Theorem format_amount_round_trip : forall raw cleaned : str,
  Currency._clean_amount raw = Some cleaned ->
  Currency._is_valid_amount cleaned = true ->
  let formatted := Currency._format_amount cleaned in
  formatted = SpecFormat.canonical (SpecAmount.cents cleaned) /\
  Currency._amount_to_float formatted = Currency._amount_to_float cleaned /\
  SpecAmount.cents formatted = SpecAmount.cents cleaned /\
  Currency._format_amount formatted = formatted /\
  Currency._is_valid_amount formatted = true.
Proof.
  intros raw cleaned Hc Hv. cbv zeta.
  pose proof (clean_amount_kept _ _ Hc) as Hk.
  destruct (valid_amount_parts cleaned Hk Hv) as [_ [_ [_ H4]]].
  destruct (format_amount_canonical cleaned Hk Hv) as [E Ef].
  destruct (canonical_fixed _ H4) as [F1 [F2 F3]].
  rewrite E. split; [reflexivity |]. split; [now rewrite F1, Ef |].
  split; [apply cents_canonical; lia |]. split; assumption.
Qed.

Lemma format_amount_round_trip_witness :
  Currency._format_amount (lit "1,234.5") = lit "$1,234.50" /\
  Currency._amount_to_float (lit "$1,234.50") = Currency._amount_to_float (lit "1,234.5") /\
  Currency._format_amount (lit "$1,234.50") = lit "$1,234.50".
Proof.
  destruct (format_amount_round_trip (lit "$ 1,234.5") (lit "1,234.5")) as [H1 [H2 [_ [H3 _]]]];
    [reflexivity | reflexivity |].
  assert (E : Currency._format_amount (lit "1,234.5") = lit "$1,234.50") by reflexivity.
  rewrite E in H2, H3. auto.
Defined.

(** Property X9.  Every amount of the list that
    [_find_all_amounts] returns is a written amount between 0.01 and
    999999999.99: [_format_amount] leaves it as it is and [_is_valid_amount]
    accepts it. *)
Theorem found_amounts_are_canonical :
  forall (self : Currency.CurrencyExtractor) (text : str),
    Forall (fun a =>
              (1 <= SpecAmount.cents a <= 99999999999)%Z /\
              a = SpecFormat.canonical (SpecAmount.cents a) /\
              Currency._format_amount a = a /\
              Currency._is_valid_amount a = true)
           (Currency._find_all_amounts self text).
Proof.
  intros self text. apply Forall_forall. intros a Ha.
  destruct (found_amount_canonical self text a Ha) as [Hc E].
  destruct (canonical_fixed _ Hc) as [_ [F2 F3]]. rewrite <- E in F2, F3. auto.
Qed.

(** ** The order of the amounts *)

Section SortAgree.
Variables (A K : Type) (key : A -> K) (leb : K -> K -> bool) (f : A -> Z).

Lemma insert_by_agree : forall x s,
  (forall y, In y s -> leb (key x) (key y) = Z.leb (f x) (f y)) ->
  insert_by key leb x s = insert_by f Z.leb x s.
Proof.
  induction s as [| y s IH]; intro H; [reflexivity |].
  cbn [insert_by]. rewrite (H y (or_introl eq_refl)).
  destruct (Z.leb (f x) (f y)); [reflexivity |].
  f_equal. apply IH. intros z Hz. apply H. now right.
Qed.

Lemma sorted_by_agree : forall l,
  (forall x y, In x l -> In y l -> leb (key x) (key y) = Z.leb (f x) (f y)) ->
  sorted_by key leb l = sorted_by f Z.leb l.
Proof.
  induction l as [| x l IH]; intro H; [reflexivity |].
  cbn [sorted_by fold_right]. fold (sorted_by key leb l). fold (sorted_by f Z.leb l).
  rewrite IH by (intros a b Ha Hb; apply H; now right).
  apply insert_by_agree. intros y Hy. apply H; [now left | right].
  eapply Permutation_in; [apply sorted_by_perm | exact Hy].
Qed.
End SortAgree.

Lemma sort_key_canonical : forall c,
  (1 <= c <= 99999999999)%Z -> Currency.sort_key (SpecFormat.canonical c) = round c 100.
Proof.
  intros c Hc. unfold Currency.sort_key.
  now rewrite (proj1 (canonical_fixed c Hc)).
Qed.

Lemma strict_order : forall l : list str,
  StronglySorted (fun a b => (- SpecAmount.cents a <= - SpecAmount.cents b)%Z) l ->
  NoDup l ->
  (forall a, In a l -> a = SpecFormat.canonical (SpecAmount.cents a)) ->
  StronglySorted (fun a b => (SpecAmount.cents b < SpecAmount.cents a)%Z) l.
Proof.
  induction 1 as [| a l Hs IH Ha]; intros Hn Hc; constructor.
  - apply IH; [now apply NoDup_cons_iff in Hn | intros b Hb; apply Hc; now right].
  - apply NoDup_cons_iff in Hn as [Hnot _]. rewrite Forall_forall in *.
    intros b Hb. specialize (Ha b Hb).
    assert (SpecAmount.cents a <> SpecAmount.cents b); [| lia].
    intro E. apply Hnot.
    rewrite (Hc a (or_introl eq_refl)), E, <- (Hc b (or_intror Hb)). exact Hb.
Qed.

Lemma filter_sorted : forall (A : Type) (R : A -> A -> Prop) (p : A -> bool) l,
  StronglySorted R l -> StronglySorted R (filter p l).
Proof.
  intros A R p. induction 1 as [| a l Hs IH Ha]; [constructor |].
  cbn [filter]. destruct (p a); [| exact IH].
  constructor; [exact IH |]. rewrite Forall_forall in *.
  intros b Hb. apply Ha. now apply filter_In in Hb.
Qed.

Lemma find_all_amounts_sorted : forall self text,
  StronglySorted (fun a b => (SpecAmount.cents b < SpecAmount.cents a)%Z)
                 (Currency._find_all_amounts self text).
Proof.
  intros self text.
  pose proof (find_all_amounts_NoDup self text) as Hn.
  assert (Hc : forall a, In a (Currency._find_all_amounts self text) ->
                 (1 <= SpecAmount.cents a <= 99999999999)%Z /\
                 a = SpecFormat.canonical (SpecAmount.cents a))
    by apply found_amount_canonical.
  apply strict_order; [| exact Hn | intros a Ha; now apply Hc].
  unfold Currency._find_all_amounts in *. cbv zeta in *.
  set (amounts := fold_left _ (Currency.currency_patterns self) []) in *.
  unfold sorted_desc_by in *.
  rewrite (sorted_by_agree _ _ Currency.sort_key (fun a b => leb b a)
             (fun a => (- SpecAmount.cents a)%Z)).
  - apply (sorted_by_sorted _ (fun a => (- SpecAmount.cents a)%Z)).
  - intros x y Hx Hy.
    assert (Hx' : In x (sorted_by Currency.sort_key (fun a b => leb b a) amounts))
      by (eapply Permutation_in; [apply Permutation_sym, sorted_by_perm | exact Hx]).
    assert (Hy' : In y (sorted_by Currency.sort_key (fun a b => leb b a) amounts))
      by (eapply Permutation_in; [apply Permutation_sym, sorted_by_perm | exact Hy]).
    destruct (Hc x Hx') as [Bx Ex]. destruct (Hc y Hy') as [By Ey].
    rewrite Ex, Ey at 1. rewrite !sort_key_canonical by assumption.
    rewrite leb_round_cents by assumption.
    destruct (Z.leb_spec (SpecAmount.cents y) (SpecAmount.cents x));
      destruct (Z.leb_spec (- SpecAmount.cents x) (- SpecAmount.cents y)); lia || reflexivity.
Qed.

(** Property X10.  The list of [_find_all_amounts] is in
    strictly descending order of the amounts, which is the order of the
    floats the code sorts by; the other amounts are listed in that order
    too. *)
Theorem amounts_in_descending_order :
  forall (self : Currency.CurrencyExtractor) (text : str),
    let all_amounts := Currency._find_all_amounts self text in
    let larger a b := (SpecAmount.cents b < SpecAmount.cents a)%Z in
    StronglySorted larger all_amounts /\
    StronglySorted (fun a b => Float64.leb (Currency.sort_key b) (Currency.sort_key a) = true)
                   all_amounts /\
    StronglySorted larger
      (Currency.other_amounts_list all_amounts
         (Currency.total (Currency.extract_amounts self text))).
Proof.
  intros self text. cbv zeta.
  pose proof (find_all_amounts_sorted self text) as H.
  split; [exact H |]. split; [| now apply filter_sorted].
  assert (Hc := found_amount_canonical self text).
  induction H as [| a l Hs IH Ha]; constructor.
  - apply IH. intros b Hb. apply Hc. now right.
  - rewrite Forall_forall in *. intros b Hb.
    destruct (Hc a (or_introl eq_refl)) as [Ba Ea]. destruct (Hc b (or_intror Hb)) as [Bb Eb].
    rewrite Ea, Eb. rewrite !sort_key_canonical by assumption.
    rewrite leb_round_cents by assumption. apply Z.leb_le. specialize (Ha b Hb). lia.
Qed.

(** ** The total when the text names no keyword *)

Lemma keyword_then_amount_contains : forall k w,
  matches (Currency.keyword_then_amount k) w -> segment (lit k) w.
Proof.
  intros k w H. unfold Currency.keyword_then_amount, py in H.
  apply matches_seqs_cons in H as [u [v [-> [Hu _]]]].
  apply matches_word in Hu. subst u. exists [], v. reflexivity.
Qed.

Lemma amount_then_keyword_contains : forall k w,
  matches (Currency.amount_then_keyword k) w -> segment (lit k) w.
Proof.
  intros k w H. unfold Currency.amount_then_keyword, py in H.
  apply matches_seqs_cons in H as [u [v [-> [_ H]]]].
  apply matches_seqs_cons in H as [u2 [v2 [-> [_ H]]]].
  apply matches_seqs_cons in H as [u3 [v3 [-> [Hu H]]]].
  apply matches_word in Hu. subst u3. cbn in H. subst v3.
  exists (u ++ u2), []. now rewrite <- !app_assoc.
Qed.

Lemma near_keyword_None : forall all text_lower k,
  contains (lit k) text_lower = false ->
  Currency.near_keyword all text_lower k = None.
Proof.
  intros all tl k H. unfold Currency.near_keyword.
  assert (E1 : first_some (Currency.total_candidate all)
                 (finditer (Currency.keyword_then_amount k) tl) = None).
  { apply first_some_None. intros m Hm. exfalso. apply finditer_in in Hm.
    pose proof (match_in_group0 _ _ _ Hm) as Hs.
    destruct Hm as [_ [_ [_ [_ [_ [Hw _]]]]]].
    apply keyword_then_amount_contains in Hw.
    assert (contains (lit k) tl = true)
      by (apply contains_segment; eapply segment_trans; eassumption).
    congruence. }
  rewrite E1.
  apply first_some_None. intros m Hm. exfalso. apply finditer_in in Hm.
  pose proof (match_in_group0 _ _ _ Hm) as Hs.
  destruct Hm as [_ [_ [_ [_ [_ [Hw _]]]]]].
  apply amount_then_keyword_contains in Hw.
  assert (contains (lit k) tl = true)
    by (apply contains_segment; eapply segment_trans; eassumption).
  congruence.
Qed.

(** Property X11.  When no total keyword occurs in
    the text, letter case apart, the total is the first amount of the list,
    and no amount of the list is larger. *)
Theorem total_is_largest_without_keyword :
  forall (self : Currency.CurrencyExtractor) (text : str),
    (forall k, In k (Currency.total_keywords self) ->
               contains (lit k) (lower text) = false) ->
    let all_amounts := Currency._find_all_amounts self text in
    let total := Currency.total (Currency.extract_amounts self text) in
    total = hd [] all_amounts /\
    Forall (fun a => (SpecAmount.cents a <= SpecAmount.cents total)%Z) all_amounts.
Proof.
  intros self text H. cbv zeta.
  unfold Currency.extract_amounts. cbv zeta. cbn [Currency.total].
  pose proof (find_all_amounts_sorted self text) as Hs.
  destruct (Currency._find_all_amounts self text) as [| a l] eqn:E.
  - split; [reflexivity | constructor].
  - assert (Et : Currency._find_total_amount self text (a :: l) = a).
    { unfold Currency._find_total_amount. cbv zeta.
      assert (En : first_some (Currency.near_keyword (a :: l) (lower text))
                     (Currency.total_keywords self) = None).
      { apply first_some_None. intros k Hk. apply near_keyword_None. now apply H. }
      now rewrite En. }
    rewrite Et. split; [reflexivity |].
    apply StronglySorted_inv in Hs as [_ Ha].
    constructor; [lia |]. eapply Forall_impl; [| exact Ha]. intros b Hb. cbv beta in Hb. lia.
Qed.

Lemma total_is_largest_without_keyword_witness :
  Currency.total (Currency.extract_amounts Currency.init (lit "Widgets $5.00, gadgets 7.50 USD"))
  = hd [] (Currency._find_all_amounts Currency.init (lit "Widgets $5.00, gadgets 7.50 USD")).
Proof.
  apply (total_is_largest_without_keyword Currency.init (lit "Widgets $5.00, gadgets 7.50 USD")).
  intros k Hk. cbn [Currency.total_keywords Currency.init In] in Hk.
  repeat (destruct Hk as [<- | Hk]; [reflexivity |]). destruct Hk.
Defined.

Lemma total_without_keyword_example :
  Currency.extract_amounts Currency.init (lit "Widgets $5.00, gadgets 7.50 USD")
  = {| Currency.total := lit "$7.50"; Currency.other_amounts := lit "$5.00" |}.
Proof. vm_compute. reflexivity. Qed.

End AmountFacts.

(** ** Vendors: the shape of the candidates *)

Lemma matches_chars_within : forall q r w,
  chars_within q r = true -> matches r w -> forallb q w = true.
Proof.
  intros q. induction r as [| p | a IHa b IHb | a IHa b IHb | g lo hi a IHa | a IHa | | |];
    intros w Hc H; cbn [matches chars_within] in *;
    try (subst w; reflexivity).
  - destruct H as [c [-> Hp]]. rewrite forallb_forall in Hc.
    specialize (Hc c (in_all_chars c)). rewrite Hp in Hc. cbn in *. now rewrite Hc.
  - apply andb_true_iff in Hc as [H1 H2]. destruct H as [u [v [-> [Hu Hv]]]].
    rewrite forallb_app, (IHa u H1 Hu), (IHb v H2 Hv). reflexivity.
  - apply andb_true_iff in Hc as [H1 H2]. destruct H as [H | H]; auto.
  - destruct H as [ws [-> [Hws _]]]. induction Hws as [| x ws Hx Hws IH]; [reflexivity |].
    cbn [concat]. rewrite forallb_app, (IHa x Hc Hx), IH. reflexivity.
  - auto.
Qed.

Lemma matches_nonempty : forall r w,
  may_be_empty r = false -> matches r w -> w <> [].
Proof.
  intros r w He H E. apply matches_shape in H as [H _]. rewrite (H E) in He. discriminate.
Qed.

Lemma matches_rep_chr : forall g lo hi p w,
  matches (Rep g lo hi (Chr p)) w -> forallb p w = true /\ lo <= length w.
Proof.
  intros g lo hi p w [ws [-> [Hws Hlo]]].
  assert (H : forallb p (concat ws) = true /\ length (concat ws) = length ws).
  { clear Hlo. induction Hws as [| x ws [c [-> Hp]] Hws [IH1 IH2]]; [split; reflexivity |].
    cbn [concat app forallb length]. rewrite Hp, IH1, IH2. split; reflexivity. }
  destruct H as [H1 H2]. split; [exact H1 | lia].
Qed.

(** ** Title case names have two words *)

Lemma cap_word_shape : forall w,
  matches Vendor.cap_word w -> w <> [] /\ forallb no_space w = true.
Proof.
  intros w H. split.
  - eapply matches_nonempty; [| exact H]. reflexivity.
  - eapply matches_chars_within; [| exact H]. vm_compute. reflexivity.
Qed.

Lemma ws1_shape : forall w,
  matches Vendor.ws1 w -> w <> [] /\ forallb is_space w = true.
Proof.
  intros w H. split.
  - eapply matches_nonempty; [| exact H]. reflexivity.
  - eapply matches_chars_within; [| exact H]. vm_compute. reflexivity.
Qed.

Lemma split_ws_two_words : forall u sp v t,
  u <> [] -> forallb no_space u = true ->
  sp <> [] -> forallb is_space sp = true ->
  v <> [] -> forallb no_space v = true ->
  2 <= length (split_ws (u ++ sp ++ v ++ t)).
Proof.
  intros u sp v t Hu Hun Hsp Hsps Hv Hvn. unfold split_ws.
  rewrite split_ws_aux_app_word by exact Hun. rewrite app_nil_r.
  destruct sp as [| c sp]; [congruence |].
  cbn [forallb] in Hsps. apply andb_true_iff in Hsps as [Hc Hsps].
  cbn [app split_ws_aux]. rewrite Hc.
  destruct (rev u) eqn:Er.
  { exfalso. apply Hu. rewrite <- (rev_involutive u), Er. reflexivity. }
  cbn [length].
  destruct (split_ws_aux [] (sp ++ v ++ t)) eqn:E; [| cbn [length]; lia].
  exfalso. apply split_ws_aux_nil in E as [_ E].
  rewrite !forallb_app in E. apply andb_true_iff in E as [_ E].
  apply andb_true_iff in E as [E _].
  destruct v as [| x v]; [congruence |]. cbn [forallb] in Hvn, E.
  apply andb_true_iff in Hvn as [Hx _]. apply andb_true_iff in E as [Ex _].
  unfold no_space in Hx. rewrite Ex in Hx. discriminate.
Qed.

Lemma title_case_two_words : forall w,
  matches Vendor.title_case_pattern w -> 2 <= length (split_ws w).
Proof.
  intros w H. unfold Vendor.title_case_pattern, py in H.
  apply matches_seqs_cons in H as [b0 [w1 [-> [Hb H]]]]. cbn in Hb. subst b0.
  apply matches_seqs_cons in H as [u [w2 [-> [Hu H]]]].
  apply matches_seqs_cons in H as [r [w3 [-> [Hr H]]]].
  destruct Hr as [ws [-> [Hws Hlo]]].
  destruct ws as [| x ws]; [cbn in Hlo; lia |].
  apply Forall_inv in Hws. destruct Hws as [sp [v [-> [Hsp Hv]]]].
  apply cap_word_shape in Hu as [Hu1 Hu2]. apply cap_word_shape in Hv as [Hv1 Hv2].
  apply ws1_shape in Hsp as [Hs1 Hs2].
  cbn [app concat]. rewrite <- !app_assoc.
  now apply split_ws_two_words.
Qed.

(** Property X17.  Every match of the title case
    pattern has two words or more: the test on the number of words in
    [_find_title_case_names] removes nothing, and the names are the matches
    that hold no excluded word. *)
Theorem title_case_names_have_two_words :
  forall (self : Vendor.VendorExtractor) (text : str),
    Forall (fun m => 2 <= length (split_ws m)) (findall Vendor.title_case_pattern text) /\
    Vendor._find_title_case_names self text =
      filter (fun m => negb (existsb (fun exclude => contains (lower (lit exclude)) (lower m))
                              (Vendor.exclude_words self)))
             (findall Vendor.title_case_pattern text).
Proof.
  intros self text.
  assert (H : Forall (fun m => 2 <= length (split_ws m))
                     (findall Vendor.title_case_pattern text)).
  { apply Forall_forall. intros m Hm. unfold findall in Hm.
    change (has_group Vendor.title_case_pattern) with false in Hm. cbv iota in Hm.
    apply in_map_iff in Hm as [x [<- Hx]].
    apply title_case_two_words. eapply finditer_sound, Hx. }
  split; [exact H |].
  unfold Vendor._find_title_case_names. cbv zeta.
  induction H as [| m l Hm Hl IH]; [reflexivity |].
  cbn [filter]. rewrite IH. apply Nat.leb_le in Hm. rewrite Hm, andb_true_r. reflexivity.
Qed.

(** ** Names in capitals *)

Lemma run_short_abbreviation : forall s,
  run Vendor.short_abbreviation (MState [] s None) Some =
  iter (run (Chr is_upper)) true 1 (Some 3) (length s) 0 (MState [] s None)
    (fun st' => if at_eol st' then Some st' else None).
Proof. reflexivity. Qed.

Lemma short_abbreviation_matches : forall s,
  forallb is_upper s = true -> 1 <= length s <= 3 ->
  Vendor.is_none (match_ Vendor.short_abbreviation s) = false.
Proof.
  intros s Hs Hl.
  assert (H : Invoice.is_some (match_ Vendor.short_abbreviation s) = true).
  { unfold match_. rewrite match_here_is_some, run_short_abbreviation.
    rewrite iter_chr_greedy by lia.
    exists (length s). rewrite firstn_all. repeat split; try lia; try assumption.
    unfold advance, at_eol. cbn [rest]. rewrite skipn_all. congruence. }
  destruct (match_ Vendor.short_abbreviation s); [reflexivity | discriminate].
Qed.

Lemma caps_word_shape : forall w,
  matches Vendor.caps_word w -> forallb is_upper w = true /\ 2 <= length w.
Proof. intros w H. now apply matches_rep_chr in H. Qed.

Lemma all_caps_shape : forall w,
  matches Vendor.all_caps_pattern w ->
  forallb upper_or_space w = true /\
  ((forallb is_upper w = true /\ 2 <= length w) \/ 5 <= length w).
Proof.
  intros w H. split.
  - eapply matches_chars_within; [| exact H]. vm_compute. reflexivity.
  - unfold Vendor.all_caps_pattern, py in H.
    apply matches_seqs_cons in H as [b0 [w1 [-> [Hb H]]]]. cbn in Hb. subst b0.
    apply matches_seqs_cons in H as [u [w2 [-> [Hu H]]]].
    apply matches_seqs_cons in H as [r [w3 [-> [Hr H]]]].
    cbn in H. subst w3. rewrite app_nil_r. cbn [app].
    apply caps_word_shape in Hu as [Hu1 Hu2].
    destruct Hr as [ws [-> [Hws _]]].
    destruct ws as [| x ws].
    + left. cbn [concat]. rewrite app_nil_r. auto.
    + right. apply Forall_inv in Hws. destruct Hws as [sp [v [-> [Hsp Hv]]]].
      apply ws1_shape in Hsp as [Hs1 _]. apply caps_word_shape in Hv as [_ Hv2].
      cbn [concat]. rewrite !length_app.
      destruct sp; [congruence |]. cbn [length]. lia.
Qed.

(** Property X18.  Every name [_find_all_caps_names] returns
    has 4 characters or more, is made of capital letters and white space and
    has no white space at its ends: a match of 2 or 3 capitals is dropped. *)
Theorem all_caps_names_are_long :
  forall (self : Vendor.VendorExtractor) (text : str),
    Forall (fun m => 4 <= length m /\ forallb upper_or_space m = true /\ strip m = m)
           (Vendor._find_all_caps_names self text).
Proof.
  intros self text. apply Forall_forall. intros m Hm.
  unfold Vendor._find_all_caps_names in Hm. cbv zeta in Hm.
  apply filter_In in Hm as [Hm Hf].
  apply andb_true_iff in Hf as [Hf Hn]. apply andb_true_iff in Hf as [Hl _].
  apply Nat.leb_le in Hl.
  assert (Hs : strip m = m)
    by (apply (findall_strip_id Vendor.all_caps_pattern text); [reflexivity | exact Hm]).
  unfold findall in Hm.
  change (has_group Vendor.all_caps_pattern) with false in Hm. cbv iota in Hm.
  apply in_map_iff in Hm as [x [<- Hx]]. apply finditer_sound in Hx.
  destruct (all_caps_shape _ Hx) as [Hc [[Hu H2] | H5]].
  - split; [| auto].
    destruct (Nat.le_gt_cases 4 (length (group0 x))) as [H4 | H4]; [exact H4 |].
    rewrite short_abbreviation_matches in Hn; [discriminate | exact Hu | lia].
  - split; [lia | auto].
Qed.

(** ** The characters of a candidate and its score *)

Lemma vendor_patterns_chars :
  chars_within Vendor.name_char Vendor.cap_words_pattern = true /\
  chars_within Vendor.name_char Vendor.title_case_pattern = true /\
  chars_within Vendor.name_char Vendor.all_caps_pattern = true /\
  forallb (chars_within Vendor.name_char) Vendor.suffix_patterns = true.
Proof. repeat split; vm_compute; reflexivity. Qed.

Lemma findall_chars : forall q r s w,
  has_group r = false -> chars_within q r = true ->
  In w (findall r s) -> forallb q w = true.
Proof.
  intros q r s w Hg Hc Hw. unfold findall in Hw. rewrite Hg in Hw.
  apply in_map_iff in Hw as [m [<- Hm]].
  eapply matches_chars_within; [exact Hc | eapply finditer_sound, Hm].
Qed.

Lemma candidates_chars : forall self text c,
  In c (Vendor.candidates_of self text) -> forallb Vendor.name_char c = true.
Proof.
  intros self text c H. unfold Vendor.candidates_of in H.
  destruct vendor_patterns_chars as [H1 [H2 [H3 H4]]].
  apply in_app_or in H as [H | H];
    [| apply in_app_or in H as [H | H]; [| apply in_app_or in H as [H | H]]].
  - unfold Vendor._find_near_keywords in H.
    apply in_flat_map in H as [kw [_ H]]. apply in_flat_map in H as [m [_ H]].
    eapply findall_chars; [| exact H1 | exact H]. reflexivity.
  - unfold Vendor._find_title_case_names in H. apply filter_In in H as [H _].
    eapply findall_chars; [| exact H2 | exact H]. reflexivity.
  - unfold Vendor._find_all_caps_names in H. apply filter_In in H as [H _].
    eapply findall_chars; [| exact H3 | exact H]. reflexivity.
  - unfold Vendor._find_company_suffixes in H.
    apply in_flat_map in H as [p [Hp H]].
    rewrite forallb_forall in H4.
    eapply findall_chars; [| exact (H4 p Hp) | exact H].
    cbn [Vendor.suffix_patterns In] in Hp. destruct Hp as [<- | [<- | []]]; reflexivity.
Qed.

Lemma name_char_no_digit : forall c, Vendor.name_char c = true -> is_digit c = false.
Proof. intro c. each_char c. Qed.

Lemma name_chars_no_digit : forall s,
  forallb Vendor.name_char s = true -> existsb is_digit s = false.
Proof.
  induction s as [| c s IH]; intro H; [reflexivity |].
  cbn [forallb] in H. apply andb_true_iff in H as [Hc H].
  cbn [existsb]. now rewrite (name_char_no_digit c Hc), IH.
Qed.

Section ScoreFacts.

Local Open Scope Z_scope.

Lemma table_score_bounds : forall self c,
  -35 <= SpecVendor.table_score self c <= 55 /\
  (existsb is_digit c = false -> -25 <= SpecVendor.table_score self c).
Proof.
  intros self c. unfold SpecVendor.table_score, SpecVendor.length_points,
    SpecVendor.word_points, SpecVendor.suffix_points, SpecVendor.title_points,
    SpecVendor.excluded_points, SpecVendor.caps_points, SpecVendor.digit_points.
  destruct (existsb is_digit c);
    repeat match goal with
           | |- context [if ?b then _ else _] => destruct b
           end; split; try lia; intro; try lia; discriminate.
Qed.

(** Property X19.  The score of a candidate is between -35 and 55,
    whatever the candidate and the word lists of the extractor; both bounds
    are reached. *)
Theorem score_bounds :
  (forall (self : Vendor.VendorExtractor) (candidate : str),
     -35 <= Vendor._score_candidate self candidate <= 55) /\
  Vendor._score_candidate Vendor.init (lit "Acme Tools Inc") = 55 /\
  Vendor._score_candidate Vendor.init
    (lit "TAX1" ++ repeat "A"%char 60) = -35.
Proof.
  split; [| split; vm_compute; reflexivity].
  intros self c. rewrite score_is_table_score. apply table_score_bounds.
Qed.

(** Property X16.  A candidate vendor holds letters, white
    space and ampersands only.  It holds no digit, so that the penalty for
    digits never applies to a candidate, whose score is between -25 and 55.
    The vendor name returned is made of the same characters. *)
Theorem vendor_name_characters :
  forall (self : Vendor.VendorExtractor) (text : str),
    Forall (fun c => forallb Vendor.name_char c = true /\
                     existsb is_digit c = false /\
                     -25 <= Vendor._score_candidate self c <= 55)
           (Vendor.candidates_of self text) /\
    forallb Vendor.name_char (Vendor.extract_vendor self text) = true /\
    existsb is_digit (Vendor.extract_vendor self text) = false.
Proof.
  intros self text.
  assert (Hall : forall c, In c (Vendor.candidates_of self text) ->
            forallb Vendor.name_char c = true /\ existsb is_digit c = false).
  { intros c Hc. pose proof (candidates_chars self text c Hc) as H.
    split; [exact H | now apply name_chars_no_digit]. }
  split.
  - apply Forall_forall. intros c Hc. destruct (Hall c Hc) as [H1 H2].
    split; [exact H1 |]. split; [exact H2 |].
    rewrite score_is_table_score.
    destruct (table_score_bounds self c) as [[_ Hhi] Hlo]. split; [now apply Hlo | exact Hhi].
  - destruct (Vendor.candidates_of self text) as [| c0 cs] eqn:Ec.
    + unfold Vendor.extract_vendor. cbv zeta. rewrite Ec. split; reflexivity.
    + apply Hall. rewrite <- Ec. apply extract_vendor_In. rewrite Ec. discriminate.
Qed.

End ScoreFacts.

(** ** Records, tables and files *)

(** ** The date columns *)

Lemma format_dates_of_sorted : forall dates,
  SpecColumns.date_columns_of (length dates)
    (sorted_by (fun d => Dates.priority (Dates.label d)) Z.leb dates)
    (_format_dates dates).
Proof.
  intro dates. unfold SpecColumns.date_columns_of, _format_dates.
  destruct dates as [| d ds]; [repeat split |].
  destruct (sorted_by _ Z.leb (d :: ds)) as [| a [| b [| c s]]]; repeat split.
Qed.

(** Property X2.  [_format_dates] fills the eleven date columns
    from the dates sorted by the priority of their label: [date_count] is the
    number of dates it is given, the columns of rank 1, 2 and 3 hold the
    formatted date, the label and the snippet of the first, second and third
    date, a rank beyond the dates is left empty, and the primary date is the
    date of rank 1.  On the dates [extract_dates] returns, which are sorted
    already and at most 3, the columns follow the order of the extractor. *)
Theorem format_dates_columns :
  (forall dates : list Dates.DateFinding,
     keys (_format_dates dates) = date_columns /\
     SpecColumns.date_columns_of (length dates)
       (sorted_by (fun d => Dates.priority (Dates.label d)) Z.leb dates)
       (_format_dates dates)) /\
  (forall (dateutil_parse : str -> option Dates.datetime)
          (self : Dates.DateExtractor) (text : str),
     let dates := Dates.extract_dates dateutil_parse self text in
     SpecColumns.date_columns_of (length dates) dates (_format_dates dates) /\
     length dates <= 3).
Proof.
  split.
  - intro dates. split; [apply keys_format_dates | apply format_dates_of_sorted].
  - intros parse self text. cbv zeta.
    set (dates := Dates.extract_dates parse self text).
    assert (Hs : StronglySorted SpecDates.by_priority dates).
    { unfold dates, Dates.extract_dates, Dates._remove_duplicates. cbv zeta.
      apply firstn_sorted, keep_unseen_sorted, sorted_by_sorted. }
    split; [| apply firstn_le_length].
    pose proof (format_dates_of_sorted dates) as H.
    now rewrite (sorted_by_id _ (fun d => Dates.priority (Dates.label d)) _ Hs) in H.
Qed.

(** ** The record of a document that is read *)

(** Property X3.  When the file is read, its text is not empty and
    the four extractors return, the record of [process_file] is the file name
    and the excerpt, then the eleven date columns of [_format_dates], then the
    vendor, the invoice number, the total, the other amounts and an empty
    error, in this order; nothing is logged. *)
Theorem successful_record :
  forall (read_text_file : Path -> outcome (option str)) (self : TextProcessor)
         (file_path : Path) (lg : log) (text : str)
         (dates : list Dates.DateFinding) (vendor invoice_no : str)
         (amounts : Currency.amounts),
    read_text_file file_path = Ok (Some text) -> text <> [] ->
    date_extractor self text = Ok dates ->
    vendor_extractor self text = Ok vendor ->
    invoice_extractor self text = Ok invoice_no ->
    currency_extractor self text = Ok amounts ->
    process_file read_text_file self file_path lg
      = (SpecSuccess.record_of (name file_path) text dates vendor invoice_no amounts, lg).
Proof.
  intros read self p lg text dates vendor inv amounts Hr Hne Hd Hv Hi Hc.
  unfold process_file, try_process_file, bind. rewrite Hr.
  destruct text as [| c text]; [congruence |].
  rewrite Hd, Hv, Hi, Hc. f_equal.
  unfold SpecSuccess.record_of, _format_dates.
  destruct dates as [| d ds]; [reflexivity |].
  destruct (sorted_by _ Z.leb (d :: ds)) as [| a [| b [| c' s]]]; reflexivity.
Qed.

Lemma successful_record_witness :
  process_file (SpecRecord.every_file SpecRuns.sample_text) (Main.init SpecParser.numeric_mdy)
    SpecRuns.first_copy []
  = (SpecSuccess.record_of (lit "a.txt") SpecRuns.sample_text
       (Dates.extract_dates SpecParser.numeric_mdy Dates.init SpecRuns.sample_text)
       (Vendor.extract_vendor Vendor.init SpecRuns.sample_text)
       (Invoice.extract_invoice_number Invoice.init SpecRuns.sample_text)
       (Currency.extract_amounts Currency.init SpecRuns.sample_text), []).
Proof.
  apply (successful_record (SpecRecord.every_file SpecRuns.sample_text)
           (Main.init SpecParser.numeric_mdy) SpecRuns.first_copy [] SpecRuns.sample_text);
    try reflexivity.
  discriminate.
Defined.

(** ** The table of a directory *)

Lemma dict_get_keys : forall (r : dict),
  NoDup (keys r) ->
  map (fun c => dict_get r c) (keys r) = map (fun kv => Some (snd kv)) r.
Proof.
  induction r as [| [k v] r IH]; intro Hn; [reflexivity |].
  cbn [keys map fst] in Hn. apply NoDup_cons_iff in Hn as [Hk Hn].
  cbn [keys map fst snd dict_get]. rewrite String.eqb_refl. f_equal.
  rewrite <- (IH Hn). apply map_ext_in. intros c Hc.
  destruct (String.eqb_spec k c) as [-> | _]; [contradiction | reflexivity].
Qed.

Lemma columns_NoDup : NoDup columns.
Proof. unfold columns. repeat constructor; cbn [In]; intuition discriminate. Qed.

Lemma reindex_full : forall (results : list dict),
  Forall (fun r => keys r = columns) results ->
  reindex results columns
  = {| df_columns := columns; df_rows := map (fun r => map Filled (map snd r)) results |}.
Proof.
  intros results H. unfold reindex. f_equal.
  apply map_ext_in. intros r Hr. rewrite Forall_forall in H.
  pose proof (H r Hr) as Hk.
  assert (Hn : NoDup (keys r)) by (rewrite Hk; apply columns_NoDup).
  pose proof (dict_get_keys r Hn) as Hg. rewrite Hk in Hg.
  transitivity (map (fun o : option value =>
                       match o with
                       | Some v => Filled v
                       | None => if existsb (has_key "") results then NaN else Filled (VStr [])
                       end) (map (fun c => dict_get r c) columns)).
  - rewrite map_map. apply map_ext_in. intros c Hc.
    destruct (dict_get r c) eqn:E; [reflexivity |].
    exfalso. assert (In (dict_get r c) (map (fun c => dict_get r c) columns))
      by (apply in_map; exact Hc).
    rewrite Hg, E in H0. apply in_map_iff in H0 as [kv [H0 _]]. discriminate.
  - rewrite Hg, !map_map. reflexivity.
Qed.

Lemma process_file_keys : forall read self p lg,
  keys (fst (process_file read self p lg)) = columns.
Proof.
  intros read self p lg. unfold process_file.
  destruct (try_process_file read self p) as [r | msg] eqn:E; cbn [fst].
  - eapply try_process_file_keys, E.
  - reflexivity.
Qed.

Lemma process_file_filename : forall read self p lg,
  dict_get (fst (process_file read self p lg)) "filename" = Some (VStr (name p)).
Proof.
  intros read self p lg. unfold process_file, try_process_file, bind.
  destruct (read p) as [[[| c text] |] | msg]; try reflexivity.
  destruct (date_extractor self (c :: text)) as [dates | msg]; [| reflexivity].
  destruct (vendor_extractor self (c :: text)) as [vendor | msg]; [| reflexivity].
  destruct (invoice_extractor self (c :: text)) as [inv | msg]; [| reflexivity].
  destruct (currency_extractor self (c :: text)) as [amounts | msg]; [| reflexivity].
  cbn [fst]. unfold _format_dates.
  destruct dates as [| d ds]; [reflexivity |].
  destruct (sorted_by _ Z.leb (d :: ds)) as [| a [| b [| c' s]]]; reflexivity.
Qed.

Section Directory.
Variable read_text_file : Path -> outcome (option str).
Variable glob_txt : Path -> list Path.

(** Property X4.  When the directory lists at least one text file,
    [process_directory] writes one table: its columns are the 18 columns, it
    has one row per file in the order of the listing, every row has 18 cells,
    which are the values of the record of its file, none of them missing, and
    the first cell of a row is the name of its file. *)
Theorem directory_table :
  forall (self : TextProcessor) (input_dir output_file : Path) (lg : log),
    glob_txt input_dir <> [] ->
    let record file_path := fst (process_file read_text_file self file_path []) in
    let rows := map (fun file_path => map Filled (map snd (record file_path)))
                    (glob_txt input_dir) in
    fst (process_directory read_text_file glob_txt self input_dir output_file lg)
      = Some (output_file, {| df_columns := columns; df_rows := rows |}) /\
    length rows = length (glob_txt input_dir) /\
    Forall (fun row => length row = 18 /\ ~ In NaN row) rows /\
    map (fun row => hd NaN row) rows
      = map (fun file_path => Filled (VStr (name file_path))) (glob_txt input_dir).
Proof.
  intros self input_dir output_file lg Hne. cbv zeta.
  set (record := fun file_path => fst (process_file read_text_file self file_path [])).
  assert (Hkeys : forall p, keys (record p) = columns)
    by (intro p; apply process_file_keys).
  unfold process_directory. cbv zeta.
  destruct (glob_txt input_dir) as [| p0 ps] eqn:Eg; [congruence |].
  cbv beta iota. set (files := p0 :: ps) in *.
  match goal with
  | |- context [process_files read_text_file self files ?l] =>
      pose proof (process_files_records read_text_file self files l) as Hrec;
      destruct (process_files read_text_file self files l) as [results lg2] eqn:Ep
  end.
  cbn [fst] in Hrec. fold record in Hrec.
  assert (Hres : results <> []) by (rewrite Hrec; discriminate).
  unfold _save_to_csv. destruct results as [| r0 rs] eqn:Er; [congruence |].
  rewrite <- Er in *. cbn [fst snd].
  split; [| split; [| split]].
  - f_equal. f_equal. rewrite reindex_full.
    + f_equal. rewrite Hrec, map_map. reflexivity.
    + rewrite Hrec. apply Forall_forall. intros r Hr.
      apply in_map_iff in Hr as [p [<- _]]. apply Hkeys.
  - apply length_map.
  - apply Forall_forall. intros row Hrow. apply in_map_iff in Hrow as [p [<- _]].
    split.
    + rewrite !length_map. fold (keys (record p)). unfold keys.
      rewrite <- (length_map fst). fold (keys (record p)). now rewrite Hkeys.
    + intro H. apply in_map_iff in H as [v [H _]]. discriminate.
  - rewrite map_map. apply map_ext. intro p.
    assert (Hf : dict_get (record p) "filename" = Some (VStr (name p)))
      by apply process_file_filename.
    pose proof (Hkeys p) as Hk.
    destruct (record p) as [| [k v] r]; [discriminate |].
    cbn [keys map fst] in Hk. injection Hk as -> _.
    cbn in Hf. injection Hf as ->. reflexivity.
Qed.

End Directory.

Lemma directory_table_witness :
  fst (process_directory (SpecRecord.every_file SpecRuns.sample_text) SpecDirectory.two_files
         (Main.init SpecParser.numeric_mdy) SpecRecord.some_path SpecDirectory.output_path [])
  = Some (SpecDirectory.output_path,
          {| df_columns := columns;
             df_rows :=
               map (fun file_path =>
                      map Filled
                        (map snd (fst (process_file (SpecRecord.every_file SpecRuns.sample_text)
                                         (Main.init SpecParser.numeric_mdy) file_path []))))
                   (SpecDirectory.two_files SpecRecord.some_path) |}).
Proof.
  apply (proj1 (directory_table (SpecRecord.every_file SpecRuns.sample_text)
                  SpecDirectory.two_files (Main.init SpecParser.numeric_mdy)
                  SpecRecord.some_path SpecDirectory.output_path []
                  ltac:(discriminate))).
Defined.

(** ** Reading a file *)

Import FileUtils.

(** Property X5.  Provided that Latin-1 decodes every file
    (it maps every byte to a character), [read_text_file] depends on the
    readings in UTF-8 and in Latin-1 only: the encodings cp1252, iso-8859-1
    and utf-16 are never reached, the line about a file that no encoding
    decodes is never printed, and the result is [None] exactly when the first
    opening raises an OSError. *)
Theorem latin_1_ends_the_fallback :
  forall (open_read : Path -> encoding -> reading),
    (forall file_path, open_read file_path latin_1 <> UnicodeError) ->
    forall (file_path : Path) (stdout : list str),
      fst (read_text_file open_read file_path utf_8 stdout)
        = SpecFiles.utf_8_then_latin_1 open_read file_path /\
      (snd (read_text_file open_read file_path utf_8 stdout) = stdout \/
       exists message,
         open_read file_path utf_8 = OSError message /\
         snd (read_text_file open_read file_path utf_8 stdout)
           = stdout ++ [SpecFiles.error_line file_path message]) /\
      (fst (read_text_file open_read file_path utf_8 stdout) = Ok None <->
       exists message, open_read file_path utf_8 = OSError message).
Proof.
  intros open_read Hlatin p out.
  unfold read_text_file, SpecFiles.utf_8_then_latin_1.
  destruct (open_read p utf_8) as [s | | msg] eqn:E8.
  - cbn [fst snd]. split; [reflexivity |]. split; [now left |].
    split; [discriminate | intros [m H]; discriminate].
  - unfold alt_encodings. cbn [try_encodings].
    specialize (Hlatin p).
    destruct (open_read p latin_1) as [s | | msg] eqn:E1; [| congruence |].
    + cbn [fst snd]. split; [reflexivity |]. split; [now left |].
      split; [discriminate | intros [m H]; discriminate].
    + cbn [fst snd]. split; [reflexivity |]. split; [now left |].
      split; [discriminate | intros [m H]; discriminate].
  - cbn [fst snd]. split; [reflexivity |]. split.
    + right. exists msg. split; reflexivity.
    + split; [intros _; now exists msg | reflexivity].
Qed.

Lemma latin_1_ends_the_fallback_witness :
  fst (read_text_file (SpecFiles.latin_1_files (lit "Invoice 42")) SpecRecord.some_path utf_8 [])
  = Ok (Some (lit "Invoice 42")).
Proof.
  apply (proj1 (latin_1_ends_the_fallback (SpecFiles.latin_1_files (lit "Invoice 42"))
                  ltac:(intros p; discriminate) SpecRecord.some_path [])).
Defined.

(** Property X6.  A file that cannot be opened is
    recorded as an empty file: [read_text_file] prints the message of the
    OSError and returns [None], and [process_file] returns the empty record
    with the error text Empty file, the record of a file whose text is empty;
    the message of the OSError is not in the record and nothing is logged. *)
Theorem unreadable_file_is_reported_empty :
  forall (open_read : Path -> encoding -> reading) (self : TextProcessor)
         (file_path : Path) (lg : log) (stdout : list str) (message : str),
    open_read file_path utf_8 = OSError message ->
    let read p := fst (read_text_file open_read p utf_8 stdout) in
    process_file read self file_path lg
      = (_create_empty_result (name file_path) (lit "Empty file"), lg) /\
    snd (read_text_file open_read file_path utf_8 stdout)
      = stdout ++ [SpecFiles.error_line file_path message] /\
    forall open_empty : Path -> encoding -> reading,
      open_empty file_path utf_8 = Text [] ->
      process_file (fun p => fst (read_text_file open_empty p utf_8 stdout)) self file_path lg
        = process_file read self file_path lg.
Proof.
  intros open_read self p lg out msg H. cbv zeta.
  unfold process_file, try_process_file, bind, read_text_file. rewrite H. cbn [fst snd].
  split; [reflexivity |]. split; [reflexivity |].
  intros open_empty He. now rewrite He.
Qed.

Lemma unreadable_file_is_reported_empty_witness :
  process_file (fun p => fst (read_text_file SpecFiles.no_file p utf_8 []))
    (Main.init SpecParser.numeric_mdy) SpecRecord.some_path []
  = (_create_empty_result (lit "a.txt") (lit "Empty file"), []).
Proof.
  apply (proj1 (unreadable_file_is_reported_empty SpecFiles.no_file
                  (Main.init SpecParser.numeric_mdy) SpecRecord.some_path [] []
                  (lit "[Errno 2] No such file or directory") eq_refl)).
Defined.

(** ** Records: the exceptions of the repository *)

Lemma os_error_str_nonempty : forall n detail, SpecErrors.os_error_str n detail <> [].
Proof. intros n detail. unfold SpecErrors.os_error_str. discriminate. Qed.

Lemma try_encodings_raise : forall os file_path encodings message,
  FileUtils.try_encodings (SpecErrors.open_on os) file_path encodings = Raise message ->
  exists n detail e, In e encodings /\ os file_path e = SpecErrors.Errno n detail /\
                     message = SpecErrors.os_error_str n detail.
Proof.
  intros os file_path encodings message. induction encodings as [| e es IH]; [discriminate |].
  cbn [FileUtils.try_encodings]. unfold SpecErrors.open_on at 1.
  destruct (os file_path e) as [s | | n detail] eqn:E.
  - discriminate.
  - intro H. destruct (IH H) as [n [detail [e' [Hin [He Hm]]]]].
    exists n, detail, e'. split; [now right | auto].
  - intro H. injection H as <-. exists n, detail, e. split; [now left | auto].
Qed.

(** [read_text_file] raises only when UTF-8 does not decode the file and
    the operating system refuses one of the other openings. *)
Lemma read_on_raise : forall os file_path message,
  SpecErrors.read_on os file_path = Raise message ->
  os file_path FileUtils.utf_8 = SpecErrors.Undecodable /\
  exists n detail e, In e FileUtils.alt_encodings /\
                     os file_path e = SpecErrors.Errno n detail /\
                     message = SpecErrors.os_error_str n detail.
Proof.
  intros os file_path message. unfold SpecErrors.read_on, FileUtils.read_text_file.
  unfold SpecErrors.open_on at 1.
  destruct (os file_path FileUtils.utf_8) as [s | | n detail] eqn:E; cbn [fst];
    try discriminate.
  destruct (FileUtils.try_encodings _ file_path FileUtils.alt_encodings)
    as [[s |] | m] eqn:T; cbn [fst]; try discriminate.
  intro H. injection H as <-. split; [reflexivity |]. eapply try_encodings_raise, T.
Qed.

(** The four extractors of the repository return on every text: an
    exception in [process_file] is one of [read_text_file]. *)
Lemma init_raise : forall read dateutil_parse file_path message,
  try_process_file read (Main.init dateutil_parse) file_path = Raise message ->
  read file_path = Raise message.
Proof.
  intros read parse file_path message. unfold try_process_file, bind.
  destruct (read file_path) as [[[| c text] |] | m]; try discriminate.
  intro H. injection H as <-. reflexivity.
Qed.

Lemma dict_get_In : forall (d : dict) k, In k (keys d) -> exists v, dict_get d k = Some v.
Proof.
  induction d as [| [k0 v0] d IH]; intros k Hin; [destruct Hin |].
  cbn [dict_get]. destruct (String.eqb k0 k) eqn:E; [eauto |].
  destruct Hin as [Hin | Hin]; [| auto].
  cbn [fst] in Hin. subst k0. rewrite String.eqb_refl in E. discriminate E.
Qed.

(** Claim C2.  For every document, whatever the operating system answers
    when the file is read, [process_file] of the repository returns a record
    with exactly the 18 fields, in their order, each of them present.  The
    extractors raise nothing: their conversions are guarded, and the one that
    is not, the key of the sort of the amounts, never fails.  When an
    exception is raised, which only the reading of the file does (an OSError
    while the other encodings are tried), every extraction field is empty and
    the error field is the message [str(e)], which is not empty.
    When the file is empty or cannot be read, every extraction field is empty
    and the error field is the text Empty file; when the text is not empty,
    the extraction returns and the error field is empty. *)
Theorem record_shape :
  forall (os : Path -> FileUtils.encoding -> SpecErrors.answer)
         (dateutil_parse : str -> option Dates.datetime) (file_path : Path) (lg : log),
    let read := SpecErrors.read_on os in
    let self := Main.init dateutil_parse in
    let result := fst (process_file read self file_path lg) in
    (keys result = columns /\ length columns = 18 /\ NoDup columns) /\
    (forall k, In k columns -> exists v, dict_get result k = Some v) /\
    (forall text a, In a (Currency._find_all_amounts Currency.init text) ->
                    Currency._amount_to_float a <> None) /\
    (forall message,
       try_process_file read self file_path = Raise message ->
       (exists n detail, message = SpecErrors.os_error_str n detail) /\
       SpecRecord.extraction_fields_empty result /\
       dict_get result "errors" = Some (VStr message) /\
       SpecRecord.stated_error_field result) /\
    (read file_path = Ok None \/ read file_path = Ok (Some []) ->
       SpecRecord.extraction_fields_empty result /\
       dict_get result "errors" = Some (VStr (lit "Empty file")) /\
       SpecRecord.stated_error_field result) /\
    (forall c text, read file_path = Ok (Some (c :: text)) ->
       try_process_file read self file_path = Ok result /\
       dict_get result "errors" = Some (VStr [])).
Proof.
  intros os parse file_path lg read self result.
  destruct (record_cases read self file_path lg) as [Hk [Hl [Hn [Hr [He Hs]]]]].
  fold result in Hk, Hr, He, Hs.
  split; [auto | split; [| split; [| split; [| split]]]].
  - intros k Hin. apply dict_get_In. rewrite Hk. exact Hin.
  - intros text a. apply sort_key_never_fails.
  - intros message E. destruct (Hr message E) as [_ [Hf Herr]].
    pose proof (init_raise _ _ _ _ E) as Hread.
    destruct (read_on_raise _ _ _ Hread) as [_ [n [detail [_ [_ [_ ->]]]]]].
    split; [eauto |]. split; [exact Hf |]. split; [exact Herr |].
    unfold SpecRecord.stated_error_field. rewrite Herr. intro H. injection H as H.
    exact (os_error_str_nonempty _ _ H).
  - intro H. destruct (He H) as [_ [Hf Herr]]. split; [exact Hf |]. split; [exact Herr |].
    unfold SpecRecord.stated_error_field. rewrite Herr. discriminate.
  - intros c text Hread.
    destruct (try_process_file read self file_path) as [r | m] eqn:E.
    + destruct (Hs r eq_refl) as [-> Herr]. split; [reflexivity |].
      destruct (try_process_file_errors read self file_path r E)
        as [[c' [t' [_ H]]] | [[H | H] _]]; [exact H | congruence | congruence].
    + apply init_raise in E. congruence.
Qed.

(** The three cases on a file system: the permission is lost while the
    encodings are tried, the file is missing, the file holds a text. *)
Lemma record_shape_witness :
  dict_get (fst (process_file (SpecErrors.read_on SpecErrors.permission_lost)
                   (Main.init SpecParser.numeric_mdy) SpecRecord.some_path []))
    "errors"
    = Some (VStr (lit "[Errno 13] Permission denied: 'data/input/a.txt'")) /\
  dict_get (fst (process_file (SpecErrors.read_on SpecErrors.missing)
                   (Main.init SpecParser.numeric_mdy) SpecRecord.some_path []))
    "errors" = Some (VStr (lit "Empty file")) /\
  dict_get (fst (process_file (SpecErrors.read_on (SpecErrors.holding SpecRuns.sample_text))
                   (Main.init SpecParser.numeric_mdy) SpecRecord.some_path []))
    "errors" = Some (VStr []).
Proof.
  split; [| split].
  - apply (proj1 (proj2 (proj2 (proj1 (proj2 (proj2 (proj2
             (record_shape SpecErrors.permission_lost SpecParser.numeric_mdy
                SpecRecord.some_path [])))) _ eq_refl)))).
  - apply (proj1 (proj2 (proj1 (proj2 (proj2 (proj2 (proj2
             (record_shape SpecErrors.missing SpecParser.numeric_mdy
                SpecRecord.some_path [])))))
             (or_introl eq_refl)))).
  - apply (proj2 (proj2 (proj2 (proj2 (proj2 (proj2
             (record_shape (SpecErrors.holding SpecRuns.sample_text) SpecParser.numeric_mdy
                SpecRecord.some_path [])))))
             "A"%char (tl SpecRuns.sample_text) eq_refl)).
Defined.

(** The line that is logged when the permission is lost. *)
Example record_shape_logged :
  snd (process_file (SpecErrors.read_on SpecErrors.permission_lost)
         (Main.init SpecParser.numeric_mdy) SpecRecord.some_path [])
  = [lit "Error processing data/input/a.txt: [Errno 13] Permission denied: 'data/input/a.txt'"].
Proof. vm_compute. reflexivity. Qed.
